(** * Password-based note encryption: [frontend/src/utils/cryptoNotes.ts]

    A shallow embedding of the encryption core of the notes application
    ([deriveKey], [encryptContent], [decryptContent], [encryptImage],
    [decryptImage], [toConcreteUint8Array]) together with executable models
    of the browser facilities those functions call:

    - [TextEncoder] / [TextDecoder]      (WHATWG Encoding, UTF-8)
    - [btoa] / [atob]                    (HTML, forgiving-base64)
    - [crypto.getRandomValues]           (an explicit random tape)
    - [crypto.subtle.importKey], [deriveKey], [encrypt], [decrypt]
      (W3C Web Cryptography; PBKDF2 of RFC 8018 over HMAC of RFC 2104 over
      SHA-256 of FIPS 180-4; AES of FIPS 197 in GCM of NIST SP 800-38D)

    A rejected promise is a value [Err e]; a fulfilled one is [Ok v].
    The limits of an engine's resources are not part of the model: the depth
    of the call stack (which bounds the number of arguments a spread call
    such as [String.fromCharCode(...combined)] can pass), the size of a
    buffer, and the 2^39 - 256 bytes of plaintext AES-GCM accepts, which no
    buffer reaches.

    The development goes on to the code around that core:

    - the canister that keeps the notes, [backend/main.mo], as a state
      machine over maps keyed by text;
    - the handlers of the components that call the core: the detail view
      ([NoteDetailModal.handleDecrypt]) and the form
      ([NoteFormModal.validateForm], [handleDecryptForEdit],
      [handleSubmit], and the handlers of its image files with
      [utils/imageAttachments.ts]);
    - [utils/safeErrorReason.ts].

    Part I holds the definitions: the platform, then the source, then the
    notions the properties are stated with. Part II holds the properties. *)

From Stdlib Require Import String Ascii NArith ZArith List Lia Bool.
From Stdlib Require Import Strings.Byte.
Import ListNotations.
Local Open Scope N_scope.

(* ================================================================== *)
(** * Part I: definitions                                              *)
(* ================================================================== *)

(** ** Bytes and typed arrays *)

(** A [Uint8Array] is the list of its elements. *)
Definition bytes := list byte.

(** Storing a number into a [Uint8Array] element keeps its low eight bits. *)
Definition byte_of_N (n : N) : byte :=
  match Byte.of_N (n mod 256) with
  | Some b => b
  | None => x00
  end.

Definition bxor (a b : byte) : byte :=
  byte_of_N (N.lxor (Byte.to_N a) (Byte.to_N b)).

(** Pointwise exclusive or, truncated to the shorter operand. *)
Fixpoint xor_bytes (a b : bytes) : bytes :=
  match a, b with
  | x :: a', y :: b' => bxor x y :: xor_bytes a' b'
  | _, _ => []
  end.

(** [TypedArray.prototype.slice(start, end)] for non-negative arguments:
    both ends are clamped to the length, nothing is read out of range. *)
Definition slice (start stop : nat) (a : bytes) : bytes :=
  firstn (stop - start) (skipn start a).

(** [TypedArray.prototype.slice(start)]. *)
Definition slice_from (start : nat) (a : bytes) : bytes := skipn start a.

(** ** JavaScript strings *)

(** A string is a sequence of 16-bit code units. *)
Record code_unit : Set := CodeUnit { cu_hi : byte; cu_lo : byte }.

Definition jsstring := list code_unit.

Definition cu_val (c : code_unit) : N :=
  256 * Byte.to_N (cu_hi c) + Byte.to_N (cu_lo c).

(** [ToUint16]. *)
Definition cu_of_N (n : N) : code_unit :=
  CodeUnit (byte_of_N (n / 256)) (byte_of_N n).

(** The string written with ASCII characters only. *)
Definition js (s : string) : jsstring :=
  map (fun a => cu_of_N (N_of_ascii a)) (list_ascii_of_string s).

(** [String.fromCharCode(...a)] on the elements of a [Uint8Array]. *)
Definition String_fromCharCode (a : bytes) : jsstring :=
  map (fun b => cu_of_N (Byte.to_N b)) a.

(** [Uint8Array.from(s, c => c.charCodeAt(0))]. *)
Definition Uint8Array_from_charCodes (s : jsstring) : bytes :=
  map (fun c => byte_of_N (cu_val c)) s.

(** ** Failures *)

(** What a rejected promise carries: a [DOMException] with its name, a
    [RangeError], or a plain [Error] with its message. *)
Inductive exn : Set :=
| DOMException (name : string)
| RangeError
| JsError (message : string).

Inductive result (A : Type) : Type :=
| Ok (v : A)
| Err (e : exn).
Arguments Ok {A} v.
Arguments Err {A} e.

Definition bind {A B} (r : result A) (k : A -> result B) : result B :=
  match r with
  | Ok v => k v
  | Err e => Err e
  end.

(** [try { body } catch (error) { throw handler }]. *)
Definition try_catch {A} (body : result A) (handler : exn) : result A :=
  match body with
  | Ok v => Ok v
  | Err _ => Err handler
  end.

Declare Scope js_scope.
Delimit Scope js_scope with js.
Notation "'await' x <- e ;; k" := (bind e (fun x => k))
  (at level 61, x name, e at next level, right associativity) : js_scope.

(** ** Text encoding (WHATWG Encoding) *)

Module Utf8.

Definition is_lead_surrogate (u : N) : bool := (0xD800 <=? u) && (u <=? 0xDBFF).
Definition is_trail_surrogate (u : N) : bool := (0xDC00 <=? u) && (u <=? 0xDFFF).

Definition replacement : N := 0xFFFD.
Definition byte_order_mark : N := 0xFEFF.

(** Conversion of a string to scalar values: a surrogate pair is one
    scalar value, an unpaired surrogate becomes U+FFFD. *)
Fixpoint to_scalar_values (s : list N) : list N :=
  match s with
  | [] => []
  | c :: rest =>
      if is_lead_surrogate c then
        match rest with
        | d :: rest' =>
            if is_trail_surrogate d
            then (0x10000 + (c - 0xD800) * 0x400 + (d - 0xDC00)) :: to_scalar_values rest'
            else replacement :: to_scalar_values rest
        | [] => [replacement]
        end
      else if is_trail_surrogate c then replacement :: to_scalar_values rest
      else c :: to_scalar_values rest
  end.

(** The UTF-8 encoder on one scalar value. *)
Definition encode_scalar (cp : N) : bytes :=
  if cp <? 0x80 then [byte_of_N cp]
  else if cp <? 0x800 then
    [byte_of_N (0xC0 + cp / 64); byte_of_N (0x80 + cp mod 64)]
  else if cp <? 0x10000 then
    [byte_of_N (0xE0 + cp / 4096); byte_of_N (0x80 + (cp / 64) mod 64);
     byte_of_N (0x80 + cp mod 64)]
  else
    [byte_of_N (0xF0 + cp / 262144); byte_of_N (0x80 + (cp / 4096) mod 64);
     byte_of_N (0x80 + (cp / 64) mod 64); byte_of_N (0x80 + cp mod 64)].

Definition encode_scalars (l : list N) : bytes := flat_map encode_scalar l.

(** The UTF-8 decoder's state. *)
Record state : Set := State {
  code_point : N;
  bytes_seen : N;
  bytes_needed : N;
  lower_boundary : N;
  upper_boundary : N
}.

Definition initial : state := State 0 0 0 0x80 0xBF.

Inductive outcome : Set :=
| Continue
| Emit (cp : N)
| Error
| ErrorRestore.

(** The UTF-8 decoder's handler on one byte. [ErrorRestore] puts the byte
    back in front of the input. *)
Definition handler (st : state) (b : N) : state * outcome :=
  if bytes_needed st =? 0 then
    if b <=? 0x7F then (st, Emit b)
    else if (0xC2 <=? b) && (b <=? 0xDF) then
      (State (b mod 32) 0 1 0x80 0xBF, Continue)
    else if (0xE0 <=? b) && (b <=? 0xEF) then
      (State (b mod 16) 0 2
             (if b =? 0xE0 then 0xA0 else 0x80)
             (if b =? 0xED then 0x9F else 0xBF), Continue)
    else if (0xF0 <=? b) && (b <=? 0xF4) then
      (State (b mod 8) 0 3
             (if b =? 0xF0 then 0x90 else 0x80)
             (if b =? 0xF4 then 0x8F else 0xBF), Continue)
    else (st, Error)
  else if negb ((lower_boundary st <=? b) && (b <=? upper_boundary st)) then
    (initial, ErrorRestore)
  else
    let cp := code_point st * 64 + b mod 64 in
    let seen := bytes_seen st + 1 in
    if seen =? bytes_needed st then (initial, Emit cp)
    else (State cp seen (bytes_needed st) 0x80 0xBF, Continue).

(** One byte of input, the restored byte included: the new state and the
    code points put out. With fatal unset an error is U+FFFD. *)
Definition step (st : state) (b : N) : state * list N :=
  match handler st b with
  | (st', Continue) => (st', [])
  | (st', Emit cp) => (st', [cp])
  | (st', Error) => (st', [replacement])
  | (st', ErrorRestore) =>
      match handler st' b with
      | (st'', Emit cp) => (st'', [replacement; cp])
      | (st'', Continue) => (st'', [replacement])
      | (st'', _) => (st'', [replacement; replacement])
      end
  end.

Fixpoint decode_from (st : state) (input : bytes) : list N :=
  match input with
  | [] => if bytes_needed st =? 0 then [] else [replacement]
  | b :: rest =>
      let '(st', out) := step st (Byte.to_N b) in
      out ++ decode_from st' rest
  end.

(** Serialising with BOM-seen and ignore-BOM unset: a first code point
    U+FEFF is dropped. *)
Definition strip_bom (l : list N) : list N :=
  match l with
  | c :: rest => if c =? byte_order_mark then rest else l
  | [] => []
  end.

(** A code point as UTF-16 code units. *)
Definition code_units_of (cp : N) : jsstring :=
  if cp <? 0x10000 then [cu_of_N cp]
  else [cu_of_N (0xD800 + (cp - 0x10000) / 0x400);
        cu_of_N (0xDC00 + (cp - 0x10000) mod 0x400)].

End Utf8.

(** [new TextEncoder().encode(s)]. *)
Definition TextEncoder_encode (s : jsstring) : bytes :=
  Utf8.encode_scalars (Utf8.to_scalar_values (map cu_val s)).

(** [new TextDecoder().decode(b)]: UTF-8, fatal and ignoreBOM both false. *)
Definition TextDecoder_decode (b : bytes) : jsstring :=
  flat_map Utf8.code_units_of (Utf8.strip_bom (Utf8.decode_from Utf8.initial b)).

(** ** Base64 (HTML: forgiving-base64 encode and decode) *)

Module Base64.

Definition pad : N := 61.

(** The character of the base64 alphabet for a six-bit value. *)
Definition char_of_sextet (n : N) : N :=
  if n <? 26 then 65 + n
  else if n <? 52 then 97 + (n - 26)
  else if n <? 62 then 48 + (n - 52)
  else if n =? 62 then 43
  else 47.

Definition sextet_of_char (c : N) : option N :=
  if (65 <=? c) && (c <=? 90) then Some (c - 65)
  else if (97 <=? c) && (c <=? 122) then Some (c - 97 + 26)
  else if (48 <=? c) && (c <=? 57) then Some (c - 48 + 52)
  else if c =? 43 then Some 62
  else if c =? 47 then Some 63
  else None.

(** Three bytes give four characters; a last group of one or two bytes is
    completed with padding. *)
Fixpoint encode (l : list N) : list N :=
  match l with
  | [] => []
  | [a] =>
      [char_of_sextet (a / 4); char_of_sextet ((a mod 4) * 16); pad; pad]
  | [a; b] =>
      [char_of_sextet (a / 4); char_of_sextet ((a mod 4) * 16 + b / 16);
       char_of_sextet ((b mod 16) * 4); pad]
  | a :: b :: c :: rest =>
      char_of_sextet (a / 4) :: char_of_sextet ((a mod 4) * 16 + b / 16)
      :: char_of_sextet ((b mod 16) * 4 + c / 64) :: char_of_sextet (c mod 64)
      :: encode rest
  end.

(** The encoding before its padding is added. *)
Fixpoint encode_unpadded (l : list N) : list N :=
  match l with
  | [] => []
  | [a] => [char_of_sextet (a / 4); char_of_sextet ((a mod 4) * 16)]
  | [a; b] =>
      [char_of_sextet (a / 4); char_of_sextet ((a mod 4) * 16 + b / 16);
       char_of_sextet ((b mod 16) * 4)]
  | a :: b :: c :: rest =>
      char_of_sextet (a / 4) :: char_of_sextet ((a mod 4) * 16 + b / 16)
      :: char_of_sextet ((b mod 16) * 4 + c / 64) :: char_of_sextet (c mod 64)
      :: encode_unpadded rest
  end.

(** The padding that completes an encoding. *)
Definition padding_of (l : list N) : list N :=
  match (length l mod 3)%nat with
  | 1%nat => [pad; pad]
  | 2%nat => [pad]
  | _ => []
  end.

(** A character of the alphabet. *)
Definition plain (c : N) : Prop := exists n, n < 64 /\ c = char_of_sextet n.

Definition is_ascii_whitespace (c : N) : bool :=
  (c =? 9) || (c =? 10) || (c =? 12) || (c =? 13) || (c =? 32).

(** When the length is a multiple of four, one or two trailing padding
    characters are removed. *)
Definition strip_padding (l : list N) : list N :=
  if (length l mod 4 =? 0)%nat then
    match rev l with
    | a :: b :: r =>
        if a =? pad then if b =? pad then rev r else rev (b :: r) else l
    | [a] => if a =? pad then [] else l
    | [] => l
    end
  else l.

Fixpoint sextets (l : list N) : option (list N) :=
  match l with
  | [] => Some []
  | c :: rest =>
      match sextet_of_char c, sextets rest with
      | Some v, Some vs => Some (v :: vs)
      | _, _ => None
      end
  end.

(** Four sextets give three bytes; of a last group of two or three sextets
    the trailing four or two bits are discarded. *)
Fixpoint decode_sextets (l : list N) : list N :=
  match l with
  | a :: b :: c :: d :: rest =>
      (a * 4 + b / 16) :: ((b mod 16) * 16 + c / 4) :: ((c mod 4) * 64 + d)
      :: decode_sextets rest
  | [a; b; c] => [a * 4 + b / 16; (b mod 16) * 16 + c / 4]
  | [a; b] => [a * 4 + b / 16]
  | _ => []
  end.

Definition decode (data : list N) : option (list N) :=
  let data := filter (fun c => negb (is_ascii_whitespace c)) data in
  let data := strip_padding data in
  if (length data mod 4 =? 1)%nat then None
  else option_map decode_sextets (sextets data).

End Base64.

Definition InvalidCharacterError : exn := DOMException "InvalidCharacterError".

(** [btoa(s)]: a code unit above U+00FF is refused. *)
Definition btoa (s : jsstring) : result jsstring :=
  if forallb (fun c => cu_val c <=? 0xFF) s
  then Ok (map cu_of_N (Base64.encode (map cu_val s)))
  else Err InvalidCharacterError.

(** [atob(s)]. *)
Definition atob (s : jsstring) : result jsstring :=
  match Base64.decode (map cu_val s) with
  | Some l => Ok (map cu_of_N l)
  | None => Err InvalidCharacterError
  end.

(** ** SHA-256 (FIPS 180-4) *)

Module Sha256.

Definition add32 (a b : N) : N := (a + b) mod 2 ^ 32.
Definition rotr (n x : N) : N :=
  (N.lor (N.shiftr x n) (N.shiftl x (32 - n))) mod 2 ^ 32.
Definition not32 (x : N) : N := N.lxor x 0xFFFFFFFF.

Definition Ch (x y z : N) : N := N.lxor (N.land x y) (N.land (not32 x) z).
Definition Maj (x y z : N) : N :=
  N.lxor (N.lxor (N.land x y) (N.land x z)) (N.land y z).
Definition Sigma0 (x : N) : N := N.lxor (N.lxor (rotr 2 x) (rotr 13 x)) (rotr 22 x).
Definition Sigma1 (x : N) : N := N.lxor (N.lxor (rotr 6 x) (rotr 11 x)) (rotr 25 x).
Definition sigma0 (x : N) : N := N.lxor (N.lxor (rotr 7 x) (rotr 18 x)) (N.shiftr x 3).
Definition sigma1 (x : N) : N := N.lxor (N.lxor (rotr 17 x) (rotr 19 x)) (N.shiftr x 10).

(** The prime numbers up to 311: the first sixty-four. *)
Definition is_prime (n : N) : bool :=
  forallb (fun d => negb (n mod N.of_nat d =? 0)) (seq 2 (N.to_nat n - 2)).

Definition primes : list N :=
  Eval vm_compute in filter is_prime (map N.of_nat (seq 2 310)).

(** The integer part of a cube root, one bit after the other. *)
Fixpoint root3_bits (i : nat) (n acc : N) : N :=
  match i with
  | O => acc
  | S i' =>
      let c := acc + 2 ^ N.of_nat i' in
      root3_bits i' n (if c * c * c <=? n then c else acc)
  end.

Definition root3 (n : N) : N := root3_bits 40 n 0.

(** The round constants: the first thirty-two bits of the fractional parts
    of the cube roots of the first sixty-four primes. *)
Definition K : list N :=
  Eval vm_compute in map (fun p => root3 (p * 2 ^ 96) mod 2 ^ 32) primes.

(** The initial hash value: the first thirty-two bits of the fractional
    parts of the square roots of the first eight primes. *)
Definition H0 : list N :=
  Eval vm_compute in
    map (fun p => N.sqrt (p * 2 ^ 64) mod 2 ^ 32) (firstn 8 primes).

(** [n] as [len] bytes, most significant first. *)
Fixpoint be_bytes (len : nat) (n : N) : bytes :=
  match len with
  | O => []
  | S len' => byte_of_N (N.shiftr n (8 * N.of_nat len')) :: be_bytes len' n
  end.

(** The number written by a byte sequence, most significant first. *)
Definition be_value (l : bytes) : N :=
  fold_left (fun acc b => acc * 256 + Byte.to_N b) l 0.

(** The message followed by the bit 1, zeros up to 56 modulo 64 bytes, and
    the 64-bit length in bits. *)
Definition padding (m : bytes) : bytes :=
  let len := length m in
  m ++ x80 :: repeat x00 ((55 + 64 - len mod 64) mod 64)%nat
    ++ be_bytes 8 (8 * N.of_nat len).

(** Cuts a byte sequence into pieces of [n] bytes ([fuel] bounds their
    number); a shorter last piece is kept. *)
Fixpoint chunks (fuel n : nat) (l : bytes) : list bytes :=
  match fuel, l with
  | O, _ => []
  | _, [] => []
  | S fuel', _ => firstn n l :: chunks fuel' n (skipn n l)
  end.

Definition words_of (block : bytes) : list N := map be_value (chunks 16 4 block).

Definition state8 : Set := N * N * N * N * N * N * N * N.

(** One round: [w] holds the sixteen latest words of the message schedule,
    its first element being the word of this round. *)
Definition round (sw : state8 * list N) (k : N) : state8 * list N :=
  let '((a, b, c, d, e, f, g, h), w) := sw in
  let wt := nth 0 w 0 in
  let t1 := add32 (add32 (add32 (add32 h (Sigma1 e)) (Ch e f g)) k) wt in
  let t2 := add32 (Sigma0 a) (Maj a b c) in
  let next := add32 (add32 (add32 (sigma1 (nth 14 w 0)) (nth 9 w 0))
                           (sigma0 (nth 1 w 0))) wt in
  ((add32 t1 t2, a, b, c, add32 d t1, e, f, g), tl w ++ [next]).

Definition compress (h : list N) (block : bytes) : list N :=
  let s0 := (nth 0 h 0, nth 1 h 0, nth 2 h 0, nth 3 h 0,
             nth 4 h 0, nth 5 h 0, nth 6 h 0, nth 7 h 0) in
  let '((a, b, c, d, e, f, g, i), _) := fold_left round K (s0, words_of block) in
  [add32 (nth 0 h 0) a; add32 (nth 1 h 0) b; add32 (nth 2 h 0) c;
   add32 (nth 3 h 0) d; add32 (nth 4 h 0) e; add32 (nth 5 h 0) f;
   add32 (nth 6 h 0) g; add32 (nth 7 h 0) i].

Definition hash (m : bytes) : bytes :=
  let p := padding m in
  flat_map (be_bytes 4) (fold_left compress (chunks (length p) 64 p) H0).

End Sha256.

(** ** HMAC (RFC 2104) over SHA-256 *)

Module Hmac.

Definition block_size : nat := 64.

(** The key as one block: hashed first when longer than a block, then
    completed with zeros. *)
Definition block_key (key : bytes) : bytes :=
  let k := if (block_size <? length key)%nat then Sha256.hash key else key in
  k ++ repeat x00 (block_size - length k).

Definition hmac (key message : bytes) : bytes :=
  let k := block_key key in
  Sha256.hash (map (bxor x5c) k ++ Sha256.hash (map (bxor x36) k ++ message)).

End Hmac.

(** ** PBKDF2 (RFC 8018) *)

Module Pbkdf2.

Section WithPrf.
Variable prf : bytes -> bytes -> bytes.
Variable hlen : nat.

(** [F(P, S, c, i) = U_1 xor ... xor U_c]. *)
Definition F (password salt : bytes) (c : N) (i : N) : bytes :=
  let u1 := prf password (salt ++ Sha256.be_bytes 4 i) in
  snd (N.iter (c - 1)
         (fun ut => let u := prf password (fst ut) in (u, xor_bytes (snd ut) u))
         (u1, u1)).

(** The first [dklen] bytes of [T_1 || T_2 || ...]. *)
Definition derive (password salt : bytes) (c : N) (dklen : nat) : bytes :=
  firstn dklen
    (flat_map (fun i => F password salt c (N.of_nat i))
              (seq 1 ((dklen + hlen - 1) / hlen)%nat)).
End WithPrf.

Definition hmac_sha256 (password salt : bytes) (c : N) (dklen : nat) : bytes :=
  derive Hmac.hmac 32 password salt c dklen.

End Pbkdf2.

(** ** AES (FIPS 197) *)

Module Aes.

(** Multiplication by [x] in GF(2^8) modulo [x^8 + x^4 + x^3 + x + 1]. *)
Definition xtime (a : N) : N :=
  let s := 2 * a in if s <? 256 then s else N.lxor (s - 256) 0x1b.

Fixpoint gmul_bits (n : nat) (a b : N) : N :=
  match n with
  | O => 0
  | S n' => N.lxor (if N.odd b then a else 0) (gmul_bits n' (xtime a) (b / 2))
  end.

Definition gmul (a b : N) : N := gmul_bits 8 a b.

(** The multiplicative inverse [a^254], with 0 sent to 0. *)
Definition ginv (a : N) : N :=
  let a2 := gmul a a in
  let a4 := gmul a2 a2 in
  let a8 := gmul a4 a4 in
  let a16 := gmul a8 a8 in
  let a32 := gmul a16 a16 in
  let a64 := gmul a32 a32 in
  let a128 := gmul a64 a64 in
  gmul a2 (gmul a4 (gmul a8 (gmul a16 (gmul a32 (gmul a64 a128))))).

Definition rotl8 (n b : N) : N := (N.lor (N.shiftl b n) (N.shiftr b (8 - n))) mod 256.

(** The S-box: inversion followed by the affine transformation. *)
Definition sbox_value (a : N) : N :=
  let b := ginv a in
  N.lxor (N.lxor (N.lxor (N.lxor (N.lxor b (rotl8 1 b)) (rotl8 2 b)) (rotl8 3 b))
                 (rotl8 4 b)) 0x63.

Definition sbox_table : list N :=
  Eval vm_compute in map (fun i => sbox_value (N.of_nat i)) (seq 0 256).

Definition sbox (a : N) : N := nth (N.to_nat a) sbox_table 0.

Fixpoint xor_list (a b : list N) : list N :=
  match a, b with
  | x :: a', y :: b' => N.lxor x y :: xor_list a' b'
  | _, _ => []
  end.

Definition sub_bytes (s : list N) : list N := map sbox s.

(** The state is kept column by column, as the input block is. *)
Definition shift_rows (s : list N) : list N :=
  map (fun i => nth i s 0) [0; 5; 10; 15; 4; 9; 14; 3; 8; 13; 2; 7; 12; 1; 6; 11]%nat.

Definition mix_column (c : list N) : list N :=
  let a0 := nth 0 c 0 in let a1 := nth 1 c 0 in
  let a2 := nth 2 c 0 in let a3 := nth 3 c 0 in
  [N.lxor (N.lxor (gmul 2 a0) (gmul 3 a1)) (N.lxor a2 a3);
   N.lxor (N.lxor a0 (gmul 2 a1)) (N.lxor (gmul 3 a2) a3);
   N.lxor (N.lxor a0 a1) (N.lxor (gmul 2 a2) (gmul 3 a3));
   N.lxor (N.lxor (gmul 3 a0) a1) (N.lxor a2 (gmul 2 a3))].

Definition mix_columns (s : list N) : list N :=
  mix_column (firstn 4 s) ++ mix_column (firstn 4 (skipn 4 s))
  ++ mix_column (firstn 4 (skipn 8 s)) ++ mix_column (firstn 4 (skipn 12 s)).

Definition rot_word (w : list N) : list N := skipn 1 w ++ firstn 1 w.

(** The key schedule from word [i] on; [ws] holds the words before it. *)
Fixpoint expand_from (fuel i nk : nat) (rcon : N) (ws : list (list N))
  : list (list N) :=
  match fuel with
  | O => ws
  | S fuel' =>
      let temp := nth (i - 1) ws [] in
      let '(temp', rcon') :=
        if (i mod nk =? 0)%nat
        then (xor_list (sub_bytes (rot_word temp)) [rcon; 0; 0; 0], xtime rcon)
        else if (6 <? nk)%nat && (i mod nk =? 4)%nat then (sub_bytes temp, rcon)
        else (temp, rcon) in
      expand_from fuel' (S i) nk rcon' (ws ++ [xor_list (nth (i - nk) ws []) temp'])
  end.

Fixpoint words (fuel : nat) (l : list N) : list (list N) :=
  match fuel, l with
  | O, _ => []
  | _, [] => []
  | S fuel', _ => firstn 4 l :: words fuel' (skipn 4 l)
  end.

(** The round keys, sixteen bytes each: [Nr + 1] of them, [Nr = Nk + 6]. *)
Definition key_expansion (key : list N) : list (list N) :=
  let nk := (length key / 4)%nat in
  let ws := expand_from (4 * (nk + 7) - nk) nk nk 1 (words nk key) in
  map (fun r => concat (firstn 4 (skipn (4 * r) ws))) (seq 0 (nk + 7)).

Definition cipher (rks : list (list N)) (input : list N) : list N :=
  let nr := (length rks - 1)%nat in
  let s := xor_list input (nth 0 rks []) in
  let s := fold_left
             (fun s rk => xor_list (mix_columns (shift_rows (sub_bytes s))) rk)
             (firstn (nr - 1) (skipn 1 rks)) s in
  xor_list (shift_rows (sub_bytes s)) (nth nr rks []).

(** The cipher on one block of sixteen bytes. *)
Definition encrypt_block (key block : bytes) : bytes :=
  let out := cipher (key_expansion (map Byte.to_N key)) (map Byte.to_N block) in
  map (fun i => byte_of_N (nth i out 0)) (seq 0 16).

End Aes.

(** ** Galois/Counter Mode (NIST SP 800-38D), 128-bit tags *)

Module Gcm.

Section WithCipher.
(** The block cipher under the key. *)
Variable E : bytes -> bytes.

Definition block_bytes (n : N) : bytes := Sha256.be_bytes 16 n.

Definition R : N := N.shiftl 0xE1 120.

(** Multiplication in GF(2^128); bit 0 of a block is its leftmost bit. *)
Fixpoint gf_mul_bits (i : nat) (x z v : N) : N :=
  match i with
  | O => z
  | S i' =>
      let z' := if N.testbit x (N.of_nat i') then N.lxor z v else z in
      let v' := if N.testbit v 0 then N.lxor (N.shiftr v 1) R else N.shiftr v 1 in
      gf_mul_bits i' x z' v'
  end.

Definition gf_mul (x y : N) : N := gf_mul_bits 128 x 0 y.

Definition hash_subkey : N := Sha256.be_value (E (repeat x00 16)).

Definition pad16 (l : bytes) : bytes :=
  l ++ repeat x00 ((16 - length l mod 16) mod 16)%nat.

Definition ghash (x : bytes) : N :=
  fold_left (fun y blk => gf_mul (N.lxor y (Sha256.be_value blk)) hash_subkey)
            (Sha256.chunks (length x) 16 x) 0.

Definition inc32 (cb : N) : N := (cb / 2 ^ 32) * 2 ^ 32 + (cb + 1) mod 2 ^ 32.

(** GCTR: counter mode from the counter block [cb]; a shorter last block
    uses the leading bytes of its key stream block. *)
Fixpoint gctr (fuel : nat) (cb : N) (x : bytes) : bytes :=
  match fuel, x with
  | O, _ => []
  | _, [] => []
  | S fuel', _ =>
      xor_bytes (firstn 16 x) (E (block_bytes cb))
      ++ gctr fuel' (inc32 cb) (skipn 16 x)
  end.

Definition j0 (iv : bytes) : N :=
  if (length iv =? 12)%nat then Sha256.be_value iv * 2 ^ 32 + 1
  else ghash (pad16 iv ++ Sha256.be_bytes 8 0
                ++ Sha256.be_bytes 8 (8 * N.of_nat (length iv))).

Definition tag (iv aad c : bytes) : bytes :=
  let s := ghash (pad16 aad ++ pad16 c
                    ++ Sha256.be_bytes 8 (8 * N.of_nat (length aad))
                    ++ Sha256.be_bytes 8 (8 * N.of_nat (length c))) in
  xor_bytes (block_bytes s) (E (block_bytes (j0 iv))).

(** Authenticated encryption: the ciphertext and the tag. *)
Definition ae (iv aad p : bytes) : bytes * bytes :=
  let c := gctr (length p) (inc32 (j0 iv)) p in
  (c, tag iv aad c).

Definition bytes_eqb (a b : bytes) : bool :=
  if list_eq_dec Byte.byte_eq_dec a b then true else false.

(** Authenticated decryption: the plaintext, or nothing when the tag is
    not the one of the ciphertext. *)
Definition ad (iv aad c t : bytes) : option bytes :=
  if bytes_eqb t (tag iv aad c)
  then Some (gctr (length c) (inc32 (j0 iv)) c)
  else None.

End WithCipher.

End Gcm.

(** ** The random source *)

(** [crypto.getRandomValues] reads an unbounded tape of bytes, of which
    nothing is known, from a position that only advances. *)
Record rng : Type := Rng { tape : nat -> byte; position : nat }.

Definition QuotaExceededError : exn := DOMException "QuotaExceededError".

(** [crypto.getRandomValues(new Uint8Array(n))]. *)
Definition getRandomValues (n : nat) (r : rng) : result bytes * rng :=
  if 65536 <? N.of_nat n then (Err QuotaExceededError, r)
  else (Ok (map (tape r) (seq (position r) n)), Rng (tape r) (position r + n)).

(** Computations that draw from the random source and may fail. *)
Definition io (A : Type) : Type := rng -> result A * rng.

Definition io_bind {A B} (m : io A) (k : A -> io B) : io B :=
  fun r => match m r with
           | (Ok v, r') => k v r'
           | (Err e, r') => (Err e, r')
           end.

Definition io_lift {A} (v : result A) : io A := fun r => (v, r).

Notation "'let*' x <- e ;; k" := (io_bind e (fun x => k))
  (at level 61, x name, e at next level, right associativity) : js_scope.

(** ** Web Cryptography: the part of [crypto.subtle] that is used *)

Module WebCrypto.

Inductive key_usage : Set :=
| encrypt_usage | decrypt_usage | sign_usage | verify_usage
| deriveKey_usage | deriveBits_usage | wrapKey_usage | unwrapKey_usage.

Inductive key_format : Set := raw | pkcs8 | spki | jwk.

Inductive hash_name : Set := SHA_1 | SHA_256 | SHA_384 | SHA_512.

Inductive algorithm_name : Set := PBKDF2 | AES_GCM.

(** A [CryptoKey]: its attributes and, in [handle], the key material. For
    an AES key [key_length] is its length in bits. *)
Record CryptoKey : Set := Key {
  algorithm : algorithm_name;
  key_length : N;
  extractable : bool;
  usages : list key_usage;
  handle : bytes
}.

Record Pbkdf2Params : Set := Pbkdf2 {
  salt : bytes;
  iterations : N;
  hash : hash_name
}.

Definition usage_eqb (a b : key_usage) : bool :=
  match a, b with
  | encrypt_usage, encrypt_usage | decrypt_usage, decrypt_usage
  | sign_usage, sign_usage | verify_usage, verify_usage
  | deriveKey_usage, deriveKey_usage | deriveBits_usage, deriveBits_usage
  | wrapKey_usage, wrapKey_usage | unwrapKey_usage, unwrapKey_usage => true
  | _, _ => false
  end.

Definition has_usage (u : key_usage) (l : list key_usage) : bool :=
  existsb (usage_eqb u) l.

Definition SyntaxError : exn := DOMException "SyntaxError".
Definition DataError : exn := DOMException "DataError".
Definition OperationError : exn := DOMException "OperationError".
Definition InvalidAccessError : exn := DOMException "InvalidAccessError".
Definition NotSupportedError : exn := DOMException "NotSupportedError".

(** The import key operation of each algorithm, for the raw format. *)
Definition import_raw (name : algorithm_name) (keyData : bytes)
           (usages : list key_usage) (extractable : bool) : result CryptoKey :=
  match name with
  | PBKDF2 =>
      if negb (forallb (fun u => usage_eqb u deriveKey_usage
                                 || usage_eqb u deriveBits_usage) usages)
      then Err SyntaxError
      else if extractable then Err SyntaxError
      else Ok (Key PBKDF2 0 false usages keyData)
  | AES_GCM =>
      if negb (forallb (fun u => usage_eqb u encrypt_usage
                                 || usage_eqb u decrypt_usage
                                 || usage_eqb u wrapKey_usage
                                 || usage_eqb u unwrapKey_usage) usages)
      then Err SyntaxError
      else
        let bits := 8 * N.of_nat (length keyData) in
        if (bits =? 128) || (bits =? 192) || (bits =? 256)
        then Ok (Key AES_GCM bits extractable usages keyData)
        else Err DataError
  end.

(** [crypto.subtle.importKey(format, keyData, { name }, extractable, usages)]. *)
Definition importKey (format : key_format) (keyData : bytes)
           (name : algorithm_name) (extractable : bool)
           (usages : list key_usage) : result CryptoKey :=
  match format with
  | raw =>
      bind (import_raw name keyData usages extractable) (fun key =>
      match usages with
      | [] => Err SyntaxError
      | _ => Ok key
      end)
  | _ => Err NotSupportedError
  end.

(** The derive bits operation of PBKDF2. Of the hash functions the model
    has SHA-256 alone. *)
Definition derive_bits (params : Pbkdf2Params) (key : CryptoKey) (length : N)
  : result bytes :=
  if negb (length mod 8 =? 0) then Err OperationError
  else if iterations params =? 0 then Err OperationError
  else match hash params with
       | SHA_256 =>
           Ok (Pbkdf2.hmac_sha256 (handle key) (salt params) (iterations params)
                                  (N.to_nat (length / 8)))
       | _ => Err NotSupportedError
       end.

(** [crypto.subtle.deriveKey(params, baseKey, { name: 'AES-GCM', length },
    extractable, usages)]. *)
Definition deriveKey (params : Pbkdf2Params) (baseKey : CryptoKey)
           (length : N) (extractable : bool) (usages : list key_usage)
  : result CryptoKey :=
  match algorithm baseKey with
  | PBKDF2 =>
      if negb (has_usage deriveKey_usage (WebCrypto.usages baseKey))
      then Err InvalidAccessError
      else if negb ((length =? 128) || (length =? 192) || (length =? 256))
      then Err OperationError
      else
        bind (derive_bits params baseKey length) (fun secret =>
        bind (import_raw AES_GCM secret usages extractable) (fun key =>
        match usages with
        | [] => Err SyntaxError
        | _ => Ok key
        end))
  | _ => Err InvalidAccessError
  end.

(** [crypto.subtle.encrypt({ name: 'AES-GCM', iv }, key, data)]: no
    additional data, a tag of 128 bits; the result is the ciphertext
    followed by the tag. *)
Definition encrypt (iv : bytes) (key : CryptoKey) (data : bytes) : result bytes :=
  match algorithm key with
  | AES_GCM =>
      if negb (has_usage encrypt_usage (usages key)) then Err InvalidAccessError
      else
        let '(c, t) := Gcm.ae (Aes.encrypt_block (handle key)) iv [] data in
        Ok (c ++ t)
  | _ => Err InvalidAccessError
  end.

(** [crypto.subtle.decrypt({ name: 'AES-GCM', iv }, key, data)]. *)
Definition decrypt (iv : bytes) (key : CryptoKey) (data : bytes) : result bytes :=
  match algorithm key with
  | AES_GCM =>
      if negb (has_usage decrypt_usage (usages key)) then Err InvalidAccessError
      else if (length data <? 16)%nat then Err OperationError
      else
        let n := (length data - 16)%nat in
        match Gcm.ad (Aes.encrypt_block (handle key)) iv []
                     (firstn n data) (skipn n data) with
        | Some p => Ok p
        | None => Err OperationError
        end
  | _ => Err InvalidAccessError
  end.

(** [crypto.subtle.exportKey('raw', key)]. *)
Definition exportKey (key : CryptoKey) : result bytes :=
  if extractable key then Ok (handle key) else Err InvalidAccessError.

End WebCrypto.

(** ** Typed array construction *)

(** [new Uint8Array(n)]. *)
Definition new_Uint8Array (n : nat) : bytes := repeat x00 n.

(** [target.set(source, offset)]: refused when the source does not fit. *)
Definition typed_array_set (target source : bytes) (offset : nat) : result bytes :=
  if (length target <? offset + length source)%nat then Err RangeError
  else Ok (firstn offset target ++ source
             ++ skipn (offset + length source) target).

(** ** The source: [cryptoNotes.ts] *)

Local Open Scope js_scope.

(** The contents are the same on both paths of the function. *)
Definition toConcreteUint8Array (input : bytes) : bytes := input.

Definition deriveKey (password : jsstring) (salt : bytes)
  : result WebCrypto.CryptoKey :=
  let passwordBuffer := TextEncoder_encode password in
  await importedKey <-
    WebCrypto.importKey WebCrypto.raw passwordBuffer WebCrypto.PBKDF2 false
                        [WebCrypto.deriveKey_usage] ;;
  WebCrypto.deriveKey (WebCrypto.Pbkdf2 salt 100000 WebCrypto.SHA_256)
                      importedKey 256 false
                      [WebCrypto.encrypt_usage; WebCrypto.decrypt_usage].

(** The block both encrypt operations end with: a new array of the three
    lengths together, into which salt, IV and encrypted data are set one
    after the other. *)
Definition combine (salt iv encryptedData : bytes) : result bytes :=
  let combined :=
    new_Uint8Array (length salt + length iv + length encryptedData) in
  await combined <- typed_array_set combined salt 0 ;;
  await combined <- typed_array_set combined iv (length salt) ;;
  typed_array_set combined encryptedData (length salt + length iv).

Definition encryptContent (content password : jsstring) : io jsstring :=
  let data := TextEncoder_encode content in
  let* salt <- getRandomValues 16 ;;
  let* iv <- getRandomValues 12 ;;
  io_lift (
    await key <- deriveKey password salt ;;
    await encryptedData <- WebCrypto.encrypt iv key data ;;
    await combined <- combine salt iv encryptedData ;;
    btoa (String_fromCharCode combined)).

Definition decryption_failed : exn :=
  JsError "Decryption failed. Incorrect password or corrupted data.".

Definition decryptContent (encryptedContent password : jsstring)
  : result jsstring :=
  try_catch (
    await decoded <- atob encryptedContent ;;
    let combined := Uint8Array_from_charCodes decoded in
    let salt := slice 0 16 combined in
    let iv := slice 16 28 combined in
    let encryptedData := slice_from 28 combined in
    await key <- deriveKey password salt ;;
    await decryptedData <- WebCrypto.decrypt iv key encryptedData ;;
    Ok (TextDecoder_decode decryptedData))
  decryption_failed.

Definition encryptImage (imageBytes : bytes) (password : jsstring) : io bytes :=
  let* salt <- getRandomValues 16 ;;
  let* iv <- getRandomValues 12 ;;
  io_lift (
    await key <- deriveKey password salt ;;
    let concreteBytes := toConcreteUint8Array imageBytes in
    await encryptedData <- WebCrypto.encrypt iv key concreteBytes ;;
    combine salt iv encryptedData).

Definition image_decryption_failed : exn :=
  JsError "Image decryption failed. Incorrect password or corrupted data.".

Definition decryptImage (encryptedBytes : bytes) (password : jsstring)
  : result bytes :=
  try_catch (
    let salt := slice 0 16 encryptedBytes in
    let iv := slice 16 28 encryptedBytes in
    let encryptedData := slice_from 28 encryptedBytes in
    await key <- deriveKey password salt ;;
    await decryptedData <-
      WebCrypto.decrypt iv key (toConcreteUint8Array encryptedData) ;;
    Ok decryptedData)
  image_decryption_failed.

(** ** Notions used to state the properties *)

(** The printable form of an envelope: what [encryptContent] makes of the
    combined bytes. *)
Definition base64_text (a : bytes) : jsstring :=
  map cu_of_N (Base64.encode (map Byte.to_N a)).

(** The key [deriveKey] hands out for the given key material. *)
Definition aes_key (material : bytes) : WebCrypto.CryptoKey :=
  WebCrypto.Key WebCrypto.AES_GCM 256 false
                [WebCrypto.encrypt_usage; WebCrypto.decrypt_usage] material.

(** PBKDF2 with HMAC-SHA-256, 100000 iterations, 32 bytes of output, on the
    UTF-8 bytes of the password. *)
Definition key_material (password : jsstring) (salt : bytes) : bytes :=
  Pbkdf2.hmac_sha256 (TextEncoder_encode password) salt 100000 32.

(** The salt and the IV an encryption draws when it starts with the random
    source in state [r], and the state it leaves. *)
Definition drawn_salt (r : rng) : bytes := map (tape r) (seq (position r) 16).
Definition drawn_iv (r : rng) : bytes := map (tape r) (seq (position r + 16) 12).
Definition after_draws (r : rng) : rng := Rng (tape r) (position r + 16 + 12).

(** Ciphertext and tag of AES-256-GCM without additional data. *)
Definition ciphertext (material iv data : bytes) : bytes :=
  fst (Gcm.ae (Aes.encrypt_block material) iv [] data).
Definition auth_tag (material iv data : bytes) : bytes :=
  snd (Gcm.ae (Aes.encrypt_block material) iv [] data).

(** The envelope of [data] under [password] for a given salt and IV. *)
Definition envelope (salt iv data : bytes) (password : jsstring) : bytes :=
  let material := key_material password salt in
  salt ++ iv ++ ciphertext material iv data ++ auth_tag material iv data.

(** Flips bit [j] (0 to 7) of the byte at index [i]. *)
Fixpoint flip_bit (i : nat) (j : N) (l : bytes) : bytes :=
  match l, i with
  | [], _ => []
  | b :: rest, O =>
      byte_of_N (N.lxor (Byte.to_N b) (N.shiftl 1 (j mod 8))) :: rest
  | b :: rest, S i' => b :: flip_bit i' j rest
  end.

(** The kinds of failure a caller can tell apart by the class of the
    exception. *)
Inductive failure_kind : Set :=
| GenericError
| RangeErrorKind
| PlatformException (name : string).

Definition kind_of (e : exn) : failure_kind :=
  match e with
  | JsError _ => GenericError
  | RangeError => RangeErrorKind
  | DOMException name => PlatformException name
  end.

(** An encryption followed by a decryption of its result. *)
Definition text_round_trip (content w1 w2 : jsstring) (r : rng) : result jsstring :=
  bind (fst (encryptContent content w1 r)) (fun e => decryptContent e w2).

Definition image_round_trip (data : bytes) (w1 w2 : jsstring) (r : rng) : result bytes :=
  bind (fst (encryptImage data w1 r)) (fun e => decryptImage e w2).





(** Decrypting as text what was encrypted as an image. *)
Definition image_as_text (data : bytes) (password : jsstring) (r : rng)
  : result jsstring :=
  bind (fst (encryptImage data password r))
       (fun e => decryptContent (base64_text e) password).

(** A byte that begins no UTF-8 sequence. *)
Definition begins_no_sequence (b : byte) : bool :=
  let n := Byte.to_N b in
  ((0x80 <=? n) && (n <? 0xC2)) || (0xF4 <? n).


(** Whether [t] is the tag the ciphertext [c] has under the given key
    material, and what counter mode under that key material makes of [c]. *)
Definition tag_matches (material iv c t : bytes) : bool :=
  Gcm.bytes_eqb t (Gcm.tag (Aes.encrypt_block material) iv [] c).

Definition counter_mode (material iv c : bytes) : bytes :=
  Gcm.gctr (Aes.encrypt_block material) (length c)
           (Gcm.inc32 (Gcm.j0 (Aes.encrypt_block material) iv)) c.

(** ** Sample values *)

(** The bytes of a text written with ASCII characters only. *)
Definition ascii_bytes (s : string) : bytes :=
  map (fun a => byte_of_N (N_of_ascii a)) (list_ascii_of_string s).

(** A random source whose tape counts upwards. *)
Definition sample_rng : rng := Rng (fun i => byte_of_N (N.of_nat i)) 0.

(** The first bytes of a PNG file. *)
Definition sample_image : bytes := [x89; x50; x4e].





(** ** Further notions for the encryption core *)




(** The code units of a text that are not ASCII whitespace. *)
Definition significant (s : jsstring) : jsstring :=
  filter (fun c => negb (Base64.is_ascii_whitespace (cu_val c))) s.

(** The printable form of an envelope without its padding. *)
Definition unpadded_text (a : bytes) : jsstring :=
  map cu_of_N (Base64.encode_unpadded (map Byte.to_N a)).


(* ------------------------------------------------------------------ *)
(** ** The canister: [backend/main.mo]

    A [Text] and a [Principal] are the byte strings they are made of; the
    order of texts is the order of their bytes, which for UTF-8 is the
    order of their characters. A trap ends the call with its message and
    leaves the canister as it was before the call. *)

From Stdlib Require Import DecimalString DecimalN Permutation Sorted.

(** [mo:core/Map]: the bindings in ascending order of the keys. *)
Module Map.

Definition Map (V : Type) : Type := list (string * V).

Definition empty {V : Type} : Map V := [].

Fixpoint get {V : Type} (self : Map V) (key : string) : option V :=
  match self with
  | [] => None
  | (k, v) :: rest => if String.eqb key k then Some v else get rest key
  end.

Fixpoint remove {V : Type} (self : Map V) (key : string) : Map V :=
  match self with
  | [] => []
  | (k, v) :: rest =>
      if String.eqb key k then remove rest key else (k, v) :: remove rest key
  end.

(** A new binding goes in front of the first greater key. *)
Fixpoint insert {V : Type} (self : Map V) (key : string) (value : V) : Map V :=
  match self with
  | [] => [(key, value)]
  | (k, v) :: rest =>
      match String.compare key k with
      | Lt => (key, value) :: self
      | _ => (k, v) :: insert rest key value
      end
  end.

(** [add] binds the key, replacing the binding it had. *)
Definition add {V : Type} (self : Map V) (key : string) (value : V) : Map V :=
  insert (remove self key) key value.

Definition values {V : Type} (self : Map V) : list V := map snd self.

End Map.

(** [mo:core/Array]: [sort] is stable. *)
Module Array.

Fixpoint insert {T : Type} (compare : T -> T -> comparison) (x : T)
         (sorted : list T) : list T :=
  match sorted with
  | [] => [x]
  | y :: rest =>
      match compare x y with
      | Gt => y :: insert compare x rest
      | _ => x :: sorted
      end
  end.

Definition sort {T : Type} (self : list T) (compare : T -> T -> comparison)
  : list T :=
  fold_right (insert compare) [] self.

End Array.

(** [Nat.toText]: the decimal digits. *)
Definition Nat_toText (n : N) : string :=
  NilEmpty.string_of_uint (N.to_uint n).

Module Main.

Definition Principal : Set := string.
Definition Text : Set := string.

Inductive UserRole : Set := admin | user | guest.

(** What [main.mo] imports from modules that are not among the sources:
    the state of [authorization/access-control] with its two tests, and
    the blob references of [blob-storage/Storage]. *)
Class Imports : Type := {
  AccessControlState : Type;
  initState : AccessControlState;
  hasPermission : AccessControlState -> Principal -> UserRole -> bool;
  isAdmin : AccessControlState -> Principal -> bool;
  ExternalBlob : Type
}.

(** The outcome of a call. *)
Inductive reply (A : Type) : Type :=
| Reply (v : A)
| Trap (message : string).
Arguments Reply {A} v.
Arguments Trap {A} message.

Section Actor.
Context `{Imports}.

Definition NoteId : Set := Text.

Record Note : Type := {
  id : NoteId;
  title : Text;
  content : Text;
  encrypted : bool;
  timestamp : Z;
  imageRefs : list ExternalBlob
}.

(** The fields of [NoteData] carry a prefix: a second record cannot use
    the names of the first. *)
Record NoteData : Type := {
  data_title : Text;
  data_content : Text;
  data_encrypted : bool;
  data_imageRefs : list ExternalBlob
}.

Record UserProfile : Set := { name : Text }.

Definition compareByTimestamp (note1 note2 : Note) : comparison :=
  Z.compare (timestamp note1) (timestamp note2).

(** The variables of the actor. *)
Record Actor : Type := {
  accessControlState : AccessControlState;
  emptyNotesMap : Map.Map (Map.Map Note);
  userProfiles : Map.Map UserProfile;
  nextNoteId : N
}.

Definition init : Actor :=
  {| accessControlState := initState;
     emptyNotesMap := Map.empty;
     userProfiles := Map.empty;
     nextNoteId := 0 |}.

Definition getCallerUserProfile (s : Actor) (caller : Principal)
  : reply (option UserProfile) :=
  if negb (hasPermission (accessControlState s) caller user) then
    Trap "Unauthorized: Only authenticated users can access profiles"
  else Reply (Map.get (userProfiles s) caller).

Definition getUserProfile (s : Actor) (caller : Principal) (user' : Principal)
  : reply (option UserProfile) :=
  if negb (hasPermission (accessControlState s) caller user) then
    Trap "Unauthorized: Only authenticated users can view profiles"
  else if negb (String.eqb caller user')
          && negb (isAdmin (accessControlState s) caller) then
    Trap "Unauthorized: Can only view your own profile"
  else Reply (Map.get (userProfiles s) user').

Definition saveCallerUserProfile (s : Actor) (caller : Principal)
           (profile : UserProfile) : reply unit * Actor :=
  if negb (hasPermission (accessControlState s) caller user) then
    (Trap "Unauthorized: Only authenticated users can save profiles", s)
  else
    (Reply tt,
     {| accessControlState := accessControlState s;
        emptyNotesMap := emptyNotesMap s;
        userProfiles := Map.add (userProfiles s) caller profile;
        nextNoteId := nextNoteId s |}).

Definition listNotes (s : Actor) (caller : Principal) : reply (list Note) :=
  if negb (hasPermission (accessControlState s) caller user) then
    Trap "Unauthorized: Only authenticated users can list notes"
  else
    match Map.get (emptyNotesMap s) caller with
    | None => Reply []
    | Some userNotes =>
        Reply (Array.sort (Map.values userNotes) compareByTimestamp)
    end.

Definition getNote (s : Actor) (caller : Principal) (noteId : NoteId)
  : reply Note :=
  if negb (hasPermission (accessControlState s) caller user) then
    Trap "Unauthorized: Only authenticated users can view notes"
  else
    match Map.get (emptyNotesMap s) caller with
    | None => Trap "Note does not exist"
    | Some userNotes =>
        match Map.get userNotes noteId with
        | None => Trap "Note does not exist"
        | Some note => Reply note
        end
    end.

(** [now] is what [Time.now()] returns during the call. *)
Definition createNote (s : Actor) (caller : Principal) (now : Z)
           (data : NoteData) : reply Note * Actor :=
  if negb (hasPermission (accessControlState s) caller user) then
    (Trap "Unauthorized: Only authenticated users can create notes", s)
  else
    let noteId := Nat_toText (nextNoteId s) in
    let note :=
      {| id := noteId;
         title := data_title data;
         content := data_content data;
         encrypted := data_encrypted data;
         timestamp := now;
         imageRefs := data_imageRefs data |} in
    let userNotes :=
      match Map.get (emptyNotesMap s) caller with
      | None => Map.add Map.empty noteId note
      | Some existing => Map.add existing noteId note
      end in
    (Reply note,
     {| accessControlState := accessControlState s;
        emptyNotesMap := Map.add (emptyNotesMap s) caller userNotes;
        userProfiles := userProfiles s;
        nextNoteId := nextNoteId s + 1 |}).

(** The map of the caller's notes is changed in place; it is the object
    bound to the caller in [emptyNotesMap] and to nothing else, so the
    change is a new binding of the caller. *)
Definition updateNote (s : Actor) (caller : Principal) (noteId : NoteId)
           (data : NoteData) : reply Note * Actor :=
  if negb (hasPermission (accessControlState s) caller user) then
    (Trap "Unauthorized: Only authenticated users can update notes", s)
  else
    match Map.get (emptyNotesMap s) caller with
    | None => (Trap "Note does not exist", s)
    | Some userNotes =>
        match Map.get userNotes noteId with
        | None => (Trap "Note does not exist", s)
        | Some existing =>
            let updatedNote :=
              {| id := id existing;
                 title := data_title data;
                 content := data_content data;
                 encrypted := data_encrypted data;
                 timestamp := timestamp existing;
                 imageRefs := data_imageRefs data |} in
            (Reply updatedNote,
             {| accessControlState := accessControlState s;
                emptyNotesMap :=
                  Map.add (emptyNotesMap s) caller
                          (Map.add userNotes noteId updatedNote);
                userProfiles := userProfiles s;
                nextNoteId := nextNoteId s |})
        end
    end.

Definition deleteNote (s : Actor) (caller : Principal) (noteId : NoteId)
  : reply unit * Actor :=
  if negb (hasPermission (accessControlState s) caller user) then
    (Trap "Unauthorized: Only authenticated users can delete notes", s)
  else
    match Map.get (emptyNotesMap s) caller with
    | None => (Trap "Note does not exist", s)
    | Some userNotes =>
        (Reply tt,
         {| accessControlState := accessControlState s;
            emptyNotesMap :=
              Map.add (emptyNotesMap s) caller (Map.remove userNotes noteId);
            userProfiles := userProfiles s;
            nextNoteId := nextNoteId s |})
    end.

(** The functions the two mixins add see of the actor's variables the
    access control state only. *)
Definition with_access (s : Actor) (access : AccessControlState) : Actor :=
  {| accessControlState := access;
     emptyNotesMap := emptyNotesMap s;
     userProfiles := userProfiles s;
     nextNoteId := nextNoteId s |}.

(** [later s s']: the canister, in state [s], gets to state [s'] by
    calls. The query functions change nothing. *)
Inductive later (s : Actor) : Actor -> Prop :=
| later_now : later s s
| later_mixin s' access : later s s' -> later s (with_access s' access)
| later_saveCallerUserProfile s' caller profile :
    later s s' -> later s (snd (saveCallerUserProfile s' caller profile))
| later_createNote s' caller now data :
    later s s' -> later s (snd (createNote s' caller now data))
| later_updateNote s' caller noteId data :
    later s s' -> later s (snd (updateNote s' caller noteId data))
| later_deleteNote s' caller noteId :
    later s s' -> later s (snd (deleteNote s' caller noteId)).

(** The states the canister can be in. *)
Definition reachable (s : Actor) : Prop := later init s.

(** The notes are well kept: in each user's map every key is bound once,
    to a note that carries the key as its identifier, and the key is the
    text of a number below the counter; no key is bound in the maps of two
    users. *)
Definition well_kept (notes : Map.Map (Map.Map Note)) (next : N) : Prop :=
  (forall c m, Map.get notes c = Some m ->
     NoDup (map fst m)
     /\ forall k n, Map.get m k = Some n ->
          id n = k /\ exists j, j < next /\ k = Nat_toText j)
  /\ (forall c c' m m' k,
        Map.get notes c = Some m -> Map.get notes c' = Some m' ->
        Map.get m k <> None -> Map.get m' k <> None -> c = c').

(** The note goes back to a call of [createNote] by the user: the canister
    was in a state it can reach, the call replied with a note of the same
    identifier and timestamp, and the state [s] came later. *)
Definition created_by (c : Principal) (note : Note) (s : Actor) : Prop :=
  exists s0 now data created,
    reachable s0
    /\ fst (createNote s0 c now data) = Reply created
    /\ later (snd (createNote s0 c now data)) s
    /\ id note = id created
    /\ timestamp note = timestamp created.

(** A list of notes in the order of their timestamps. *)
Definition by_timestamp (notes : list Note) : Prop :=
  StronglySorted (fun a b => (timestamp a <= timestamp b)%Z) notes.

End Actor.

(** An access control for the examples: the state is the list of the
    users, nobody is an administrator, a blob reference is a text. *)
Definition sample_imports : Imports :=
  {| AccessControlState := list Principal;
     initState := [];
     hasPermission := fun st p role =>
       match role with
       | guest => true
       | _ => existsb (String.eqb p) st
       end;
     isAdmin := fun _ _ => false;
     ExternalBlob := string |}.

Definition alice : Principal := "alice"%string.
Definition bob : Principal := "bob"%string.

Definition sample_data : @NoteData sample_imports :=
  {| data_title := "shopping"%string;
     data_content := "milk"%string;
     data_encrypted := false;
     data_imageRefs := [] |}.

Definition other_data : @NoteData sample_imports :=
  {| data_title := "shopping"%string;
     data_content := "milk and bread"%string;
     data_encrypted := false;
     data_imageRefs := [("blob-1"%string : @ExternalBlob sample_imports)] |}.

(** The canister after the two users were admitted, and after the first
    of them created a note. *)
Definition admitted : @Actor sample_imports :=
  @with_access sample_imports init [alice; bob].

Definition sample_actor : @Actor sample_imports :=
  snd (createNote admitted alice 1700000000 sample_data).

Definition sample_note : @Note sample_imports :=
  {| id := "0"%string;
     title := "shopping"%string;
     content := "milk"%string;
     encrypted := false;
     timestamp := 1700000000;
     imageRefs := [] |}.

End Main.

(* ------------------------------------------------------------------ *)
(** ** JavaScript strings: [trim], [includes] *)

(** ECMAScript WhiteSpace and LineTerminator code points. *)
Definition is_white_space (u : N) : bool :=
  ((0x9 <=? u) && (u <=? 0xD)) || (u =? 0x20) || (u =? 0xA0) || (u =? 0x1680)
  || ((0x2000 <=? u) && (u <=? 0x200A)) || (u =? 0x2028) || (u =? 0x2029)
  || (u =? 0x202F) || (u =? 0x205F) || (u =? 0x3000) || (u =? 0xFEFF).

Fixpoint trimStart (s : jsstring) : jsstring :=
  match s with
  | c :: rest => if is_white_space (cu_val c) then trimStart rest else s
  | [] => []
  end.

Definition trimEnd (s : jsstring) : jsstring := rev (trimStart (rev s)).

Definition trim (s : jsstring) : jsstring := trimEnd (trimStart s).

Definition cu_eqb (a b : code_unit) : bool := cu_val a =? cu_val b.

Fixpoint startsWith (s searchString : jsstring) : bool :=
  match searchString, s with
  | [], _ => true
  | p :: ps, c :: cs => cu_eqb c p && startsWith cs ps
  | _ :: _, [] => false
  end.

Fixpoint includes (s searchString : jsstring) : bool :=
  startsWith s searchString
  || match s with
     | [] => false
     | _ :: rest => includes rest searchString
     end.

Definition jsstring_eqb (a b : jsstring) : bool :=
  (length a =? length b)%nat && startsWith a b.

(* ------------------------------------------------------------------ *)
(** ** The declarations of [../backend] the front end is written against *)

Module backend.

(** A blob made from bytes in the browser, or one the canister refers
    to. What [getBytes] fetches is the network's answer; the handlers
    take it as a function of the blob. *)
Inductive ExternalBlob : Set :=
| fromBytes (blob : bytes)
| fromURL (url : jsstring).

Definition NoteId : Set := jsstring.

Record Note : Set := {
  id : NoteId;
  title : jsstring;
  content : jsstring;
  imageRefs : list ExternalBlob;
  encrypted : bool;
  timestamp : Z
}.

(** The fields of [NoteData] carry a prefix: a second record cannot use
    the names of the first. *)
Record NoteData : Set := {
  data_title : jsstring;
  data_content : jsstring;
  data_imageRefs : list ExternalBlob;
  data_encrypted : bool
}.

End backend.

(** [new Blob([bytes], { type })]; an object URL is written as the blob it
    was created for. *)
Record Blob : Set := { blob_bytes : bytes; blob_type : string }.

(** A [File]: its name, its type, its size, and what [arrayBuffer()] is
    fulfilled or rejected with. *)
Record File : Set := {
  file_name : jsstring;
  file_type : jsstring;
  file_size : N;
  arrayBuffer : result bytes
}.

(* ------------------------------------------------------------------ *)
(** ** [utils/imageAttachments.ts] *)

Definition ALLOWED_IMAGE_TYPES : list jsstring :=
  [js "image/jpeg"; js "image/png"; js "image/gif"].

Definition MAX_FILE_SIZE : N := 10 * 1024 * 1024.

Record ValidationResult : Set := { valid : bool; error : option string }.

Definition validateImageFile (file : File) : ValidationResult :=
  if negb (existsb (jsstring_eqb (file_type file)) ALLOWED_IMAGE_TYPES) then
    {| valid := false;
       error :=
         Some ("Invalid file type. "
               ++ "Only JPEG, PNG, and GIF images are supported.")%string |}
  else if MAX_FILE_SIZE <? file_size file then
    {| valid := false; error := Some "File size exceeds 10MB limit."%string |}
  else {| valid := true; error := None |}.

(** [readAsDataURL file] is what the [FileReader] ends with: the result it
    loads, or an error. An empty result is falsy. *)
Definition createImagePreview (readAsDataURL : File -> result jsstring)
           (file : File) : result jsstring :=
  match readAsDataURL file with
  | Ok [] => Err (JsError "Failed to read file")
  | Ok (c :: rest) => Ok (c :: rest)
  | Err _ => Err (JsError "Failed to read file")
  end.

(** [new File([file], name, { type })]: the bytes of the file under
    another name. A type with a character outside U+0020 to U+007E
    becomes the empty type; the letters A to Z become lower case. *)
Definition File_type (type : jsstring) : jsstring :=
  if forallb (fun c => (0x20 <=? cu_val c) && (cu_val c <=? 0x7E)) type then
    map (fun c => if (0x41 <=? cu_val c) && (cu_val c <=? 0x5A)
                  then cu_of_N (cu_val c + 0x20) else c) type
  else [].

Definition new_File (file : File) (name type : jsstring) : File :=
  {| file_name := name;
     file_type := File_type type;
     file_size := file_size file;
     arrayBuffer := arrayBuffer file |}.

(** [s.split('/')]. *)
Fixpoint split_slash (s : jsstring) : list jsstring :=
  match s with
  | [] => [[]]
  | c :: rest =>
      if cu_val c =? 0x2F then [] :: split_slash rest
      else match split_slash rest with
           | first :: more => (c :: first) :: more
           | [] => [[c]]
           end
  end.

(** A non-negative integer as a string: its decimal digits. *)
Definition Number_toString (n : N) : jsstring := js (Nat_toText n).

(* ------------------------------------------------------------------ *)
(** ** The type of an image, read off its first two bytes

    The block [let mimeType = 'image/jpeg'; if (bytes[0] === 0x89 && ...]
    of [NoteDetailModal.handleDecrypt], of
    [NoteFormModal.handleDecryptForEdit] and of the form's first effect.
    An index past the end reads [undefined], which equals no number. *)

Definition element_is (a : bytes) (i : nat) (b : byte) : bool :=
  match nth_error a i with
  | Some x => Byte.to_N x =? Byte.to_N b
  | None => false
  end.

Definition mimeType (a : bytes) : string :=
  (if element_is a 0 x89 && element_is a 1 x50 then "image/png"
   else if element_is a 0 x47 && element_is a 1 x49 then "image/gif"
   else if element_is a 0 x52 && element_is a 1 x49 then "image/webp"
   else "image/jpeg")%string.

Definition createObjectURL (a : bytes) : Blob :=
  {| blob_bytes := a; blob_type := mimeType a |}.

(** The loop over the image references of both decrypt handlers: each
    image is fetched and decrypted in turn; the first failure ends the
    loop. The result is the images decrypted until then and the failure,
    if any. *)
Fixpoint decrypt_images (getBytes : backend.ExternalBlob -> result bytes)
         (imageRefs : list backend.ExternalBlob) (password : jsstring)
  : list bytes * option exn :=
  match imageRefs with
  | [] => ([], None)
  | imageRef :: rest =>
      match bind (getBytes imageRef)
                 (fun encryptedBytes => decryptImage encryptedBytes password)
      with
      | Err e => ([], Some e)
      | Ok decryptedBytes =>
          let '(more, failure) := decrypt_images getBytes rest password in
          (decryptedBytes :: more, failure)
      end
  end.

(** The note opens under the password: its content decrypts to the text
    and its images, fetched and decrypted one after the other, to the
    images. *)
Definition opens (getBytes : backend.ExternalBlob -> result bytes)
           (note : backend.Note) (password text : jsstring)
           (images : list bytes) : Prop :=
  decryptContent (backend.content note) password = Ok text
  /\ Forall2 (fun imageRef image =>
                bind (getBytes imageRef)
                     (fun encryptedBytes => decryptImage encryptedBytes password)
                = Ok image)
             (backend.imageRefs note) images.

(** A blob store that hands back the bytes a blob was made from. *)
Definition echo (blob : backend.ExternalBlob) : result bytes :=
  match blob with
  | backend.fromBytes b => Ok b
  | backend.fromURL _ => Err (DOMException "NetworkError")
  end.

(* ------------------------------------------------------------------ *)
(** ** The component [NoteDetailModal]

    Its source is the second component of
    [components/FullScreenImageModal.tsx].

    A handler is given the state it starts in and returns the state the
    component is in when the handler has run to its end, with the object
    URLs it created and revoked on the way. *)

Module NoteDetailModal.
Import backend.

Record State : Set := {
  selectedImage : option Blob;
  decryptPassword : jsstring;
  decryptedContent : option jsstring;
  decryptedImages : option (list bytes);
  decryptedImageUrls : list Blob;
  decryptError : string;
  isDecrypting : bool;
  objectUrlsRef : list Blob
}.

Record Outcome : Set := {
  after : State;
  created : list Blob;
  revoked : list Blob
}.

(** The state the [catch] block and the [finally] block leave. *)
Definition refused (s : State) : State :=
  {| selectedImage := selectedImage s;
     decryptPassword := decryptPassword s;
     decryptedContent := None;
     decryptedImages := None;
     decryptedImageUrls := [];
     decryptError := "Incorrect password";
     isDecrypting := false;
     objectUrlsRef := objectUrlsRef s |}.

Definition handleDecrypt (getBytes : ExternalBlob -> result bytes)
           (note : Note) (s : State) : Outcome :=
  match decryptPassword s with
  | [] =>
      {| after :=
           {| selectedImage := selectedImage s;
              decryptPassword := decryptPassword s;
              decryptedContent := decryptedContent s;
              decryptedImages := decryptedImages s;
              decryptedImageUrls := decryptedImageUrls s;
              decryptError := "Please enter a password";
              isDecrypting := isDecrypting s;
              objectUrlsRef := objectUrlsRef s |};
         created := [];
         revoked := [] |}
  | _ :: _ =>
      match decryptContent (content note) (decryptPassword s) with
      | Err _ => {| after := refused s; created := []; revoked := [] |}
      | Ok decrypted =>
          match decrypt_images getBytes (imageRefs note) (decryptPassword s) with
          | (decryptedImgBytes, Some _) =>
              {| after := refused s;
                 created := map createObjectURL decryptedImgBytes;
                 revoked := [] |}
          | (decryptedImgBytes, None) =>
              let newObjectUrls := map createObjectURL decryptedImgBytes in
              {| after :=
                   {| selectedImage := selectedImage s;
                      decryptPassword := decryptPassword s;
                      decryptedContent := Some decrypted;
                      decryptedImages := Some decryptedImgBytes;
                      decryptedImageUrls := newObjectUrls;
                      decryptError := "";
                      isDecrypting := false;
                      objectUrlsRef := newObjectUrls |};
                 created := newObjectUrls;
                 revoked := objectUrlsRef s |}
          end
      end
  end.


(** [setDecryptPassword(e.target.value); setDecryptError('')]: the change
    handler of the password field. *)
Definition typed (password : jsstring) (s : State) : State :=
  {| selectedImage := selectedImage s;
     decryptPassword := password;
     decryptedContent := decryptedContent s;
     decryptedImages := decryptedImages s;
     decryptedImageUrls := decryptedImageUrls s;
     decryptError := "";
     isDecrypting := isDecrypting s;
     objectUrlsRef := objectUrlsRef s |}.

End NoteDetailModal.

(* ------------------------------------------------------------------ *)
(** ** [components/NoteFormModal.tsx] *)

Module NoteFormModal.
Import backend.

(** The properties of the component; the three optional ones under the
    names the component gives them. *)
Record Props : Set := {
  note : option Note;
  initialDecryptedContent : option jsstring;
  initialDecryptedImages : option (list bytes);
  initialDecryptedPassword : option jsstring
}.

Definition isEditing (p : Props) : bool :=
  match note p with Some _ => true | None => false end.

(** A [Record<string, string>]: the keys in the order they were set. *)
Definition Errors : Set := list (string * string).

Definition only (key message : string) : Errors := [(key, message)].

Record State : Set := {
  title : jsstring;
  content : jsstring;
  isEncrypted : bool;
  password : jsstring;
  confirmPassword : jsstring;
  existingImages : list ExternalBlob;
  decryptedExistingImages : list bytes;
  decryptedExistingPreviews : list Blob;
  newImageFiles : list File;
  newImagePreviews : list jsstring;
  uploadProgress : list (nat * N);
  useTextImport : bool;
  errors : Errors;
  isDecrypted : bool;
  decryptPassword : jsstring;
  decryptedPreviewUrlsRef : list Blob
}.

(** The initial values of the state. *)
Definition initial : State :=
  {| title := [];
     content := [];
     isEncrypted := false;
     password := [];
     confirmPassword := [];
     existingImages := [];
     decryptedExistingImages := [];
     decryptedExistingPreviews := [];
     newImageFiles := [];
     newImagePreviews := [];
     uploadProgress := [];
     useTextImport := false;
     errors := [];
     isDecrypted := false;
     decryptPassword := [];
     decryptedPreviewUrlsRef := [] |}.

(** The state after the effect that runs when the component is given its
    note. *)
Definition mounted (p : Props) : State :=
  match note p with
  | None => initial
  | Some n =>
      match encrypted n, initialDecryptedContent p with
      | true, Some decrypted =>
          let w :=
            match initialDecryptedPassword p with Some w => w | None => [] end in
          let images :=
            match initialDecryptedImages p with
            | Some (b :: rest) => b :: rest
            | _ => []
            end in
          {| title := backend.title n;
             content := decrypted;
             isEncrypted := encrypted n;
             password := w;
             confirmPassword := w;
             existingImages := [];
             decryptedExistingImages := images;
             decryptedExistingPreviews := map createObjectURL images;
             newImageFiles := [];
             newImagePreviews := [];
             uploadProgress := [];
             useTextImport := false;
             errors := [];
             isDecrypted := true;
             decryptPassword := [];
             decryptedPreviewUrlsRef := map createObjectURL images |}
      | false, _ =>
          {| title := backend.title n;
             content := backend.content n;
             isEncrypted := encrypted n;
             password := [];
             confirmPassword := [];
             existingImages := imageRefs n;
             decryptedExistingImages := [];
             decryptedExistingPreviews := [];
             newImageFiles := [];
             newImagePreviews := [];
             uploadProgress := [];
             useTextImport := false;
             errors := [];
             isDecrypted := false;
             decryptPassword := [];
             decryptedPreviewUrlsRef := [] |}
      | true, None =>
          {| title := backend.title n;
             content := backend.content n;
             isEncrypted := encrypted n;
             password := [];
             confirmPassword := [];
             existingImages := [];
             decryptedExistingImages := [];
             decryptedExistingPreviews := [];
             newImageFiles := [];
             newImagePreviews := [];
             uploadProgress := [];
             useTextImport := false;
             errors := [];
             isDecrypted := false;
             decryptPassword := [];
             decryptedPreviewUrlsRef := [] |}
      end
  end.

(** [setIsEncrypted], the change handler of the switch. *)
Definition setIsEncrypted (checked : bool) (s : State) : State :=
  {| title := title s;
     content := content s;
     isEncrypted := checked;
     password := password s;
     confirmPassword := confirmPassword s;
     existingImages := existingImages s;
     decryptedExistingImages := decryptedExistingImages s;
     decryptedExistingPreviews := decryptedExistingPreviews s;
     newImageFiles := newImageFiles s;
     newImagePreviews := newImagePreviews s;
     uploadProgress := uploadProgress s;
     useTextImport := useTextImport s;
     errors := errors s;
     isDecrypted := isDecrypted s;
     decryptPassword := decryptPassword s;
     decryptedPreviewUrlsRef := decryptedPreviewUrlsRef s |}.

Definition setErrors (e : Errors) (s : State) : State :=
  {| title := title s;
     content := content s;
     isEncrypted := isEncrypted s;
     password := password s;
     confirmPassword := confirmPassword s;
     existingImages := existingImages s;
     decryptedExistingImages := decryptedExistingImages s;
     decryptedExistingPreviews := decryptedExistingPreviews s;
     newImageFiles := newImageFiles s;
     newImagePreviews := newImagePreviews s;
     uploadProgress := uploadProgress s;
     useTextImport := useTextImport s;
     errors := e;
     isDecrypted := isDecrypted s;
     decryptPassword := decryptPassword s;
     decryptedPreviewUrlsRef := decryptedPreviewUrlsRef s |}.

(** [setDecryptPassword(e.target.value); setErrors({})]: the change
    handler of the password field of the decrypt step. *)
Definition typed (value : jsstring) (s : State) : State :=
  {| title := title s;
     content := content s;
     isEncrypted := isEncrypted s;
     password := password s;
     confirmPassword := confirmPassword s;
     existingImages := existingImages s;
     decryptedExistingImages := decryptedExistingImages s;
     decryptedExistingPreviews := decryptedExistingPreviews s;
     newImageFiles := newImageFiles s;
     newImagePreviews := newImagePreviews s;
     uploadProgress := uploadProgress s;
     useTextImport := useTextImport s;
     errors := [];
     isDecrypted := isDecrypted s;
     decryptPassword := value;
     decryptedPreviewUrlsRef := decryptedPreviewUrlsRef s |}.

Record Outcome : Set := {
  after : State;
  created : list Blob;
  revoked : list Blob
}.

(** What the four setters after [decryptContent] make of the state. *)
Definition decrypted_for_edit (decrypted : jsstring) (s : State) : State :=
  {| title := title s;
     content := decrypted;
     isEncrypted := isEncrypted s;
     password := decryptPassword s;
     confirmPassword := decryptPassword s;
     existingImages := existingImages s;
     decryptedExistingImages := decryptedExistingImages s;
     decryptedExistingPreviews := decryptedExistingPreviews s;
     newImageFiles := newImageFiles s;
     newImagePreviews := newImagePreviews s;
     uploadProgress := uploadProgress s;
     useTextImport := useTextImport s;
     errors := errors s;
     isDecrypted := true;
     decryptPassword := decryptPassword s;
     decryptedPreviewUrlsRef := decryptedPreviewUrlsRef s |}.

Definition with_decrypted_images (images : list bytes) (s : State) : State :=
  {| title := title s;
     content := content s;
     isEncrypted := isEncrypted s;
     password := password s;
     confirmPassword := confirmPassword s;
     existingImages := existingImages s;
     decryptedExistingImages := images;
     decryptedExistingPreviews := map createObjectURL images;
     newImageFiles := newImageFiles s;
     newImagePreviews := newImagePreviews s;
     uploadProgress := uploadProgress s;
     useTextImport := useTextImport s;
     errors := errors s;
     isDecrypted := isDecrypted s;
     decryptPassword := decryptPassword s;
     decryptedPreviewUrlsRef := map createObjectURL images |}.

(** [handleDecryptForEdit], on the note being edited. The setters that
    ran before a failure have taken effect when the [catch] block sets
    the error. *)
Definition handleDecryptForEdit (getBytes : ExternalBlob -> result bytes)
           (n : Note) (s : State) : Outcome :=
  match decryptPassword s with
  | [] =>
      {| after := setErrors (only "decrypt" "Please enter a password") s;
         created := [];
         revoked := [] |}
  | _ :: _ =>
      match decryptContent (backend.content n) (decryptPassword s) with
      | Err _ =>
          {| after := setErrors (only "decrypt" "Incorrect password") s;
             created := [];
             revoked := [] |}
      | Ok decrypted =>
          let s1 := decrypted_for_edit decrypted s in
          match imageRefs n with
          | [] => {| after := setErrors [] s1; created := []; revoked := [] |}
          | _ :: _ =>
              match decrypt_images getBytes (imageRefs n) (decryptPassword s) with
              | (decryptedBytes, Some _) =>
                  {| after :=
                       setErrors (only "decrypt" "Incorrect password") s1;
                     created := map createObjectURL decryptedBytes;
                     revoked := [] |}
              | (decryptedBytes, None) =>
                  {| after :=
                       setErrors [] (with_decrypted_images decryptedBytes s1);
                     created := map createObjectURL decryptedBytes;
                     revoked := decryptedPreviewUrlsRef s |}
              end
          end
      end
  end.

(** The two setters that end [processImageFiles] and [handlePaste]. *)
Definition with_new_images (files : list File) (previews : list jsstring)
           (s : State) : State :=
  {| title := title s;
     content := content s;
     isEncrypted := isEncrypted s;
     password := password s;
     confirmPassword := confirmPassword s;
     existingImages := existingImages s;
     decryptedExistingImages := decryptedExistingImages s;
     decryptedExistingPreviews := decryptedExistingPreviews s;
     newImageFiles := files;
     newImagePreviews := previews;
     uploadProgress := uploadProgress s;
     useTextImport := useTextImport s;
     errors := errors s;
     isDecrypted := isDecrypted s;
     decryptPassword := decryptPassword s;
     decryptedPreviewUrlsRef := decryptedPreviewUrlsRef s |}.

(** What a handler of image files ends with: the state, the messages
    shown, and the failure it is rejected with, if any. *)
Record Selection : Set := {
  selected : State;
  toasts : list (option string);
  rejected : option exn
}.

Section Images.
Variable readAsDataURL : File -> result jsstring.

(** The loop of [processImageFiles]: the files that pass, their previews,
    the messages for those that do not; a preview that fails ends it. *)
Fixpoint process_files (files : list File)
  : list File * list jsstring * list (option string) * option exn :=
  match files with
  | [] => ([], [], [], None)
  | file :: rest =>
      let validation := validateImageFile file in
      if negb (valid validation) then
        let '(validFiles, previews, shown, failure) := process_files rest in
        (validFiles, previews, error validation :: shown, failure)
      else
        match createImagePreview readAsDataURL file with
        | Err e => ([file], [], [], Some e)
        | Ok preview =>
            let '(validFiles, previews, shown, failure) := process_files rest in
            (file :: validFiles, preview :: previews, shown, failure)
        end
  end.

(** [processImageFiles], which [handleImageSelect] calls on the files of
    the input; [s] is the state the setters find. They come after the
    loop: a failure leaves the state as it was. *)
Definition processImageFiles (files : list File) (s : State) : Selection :=
  match process_files files with
  | (validFiles, previews, shown, None) =>
      {| selected :=
           with_new_images (newImageFiles s ++ validFiles)
                           (newImagePreviews s ++ previews) s;
         toasts := shown;
         rejected := None |}
  | (_, _, shown, Some e) =>
      {| selected := s; toasts := shown; rejected := Some e |}
  end.

(** An item of the clipboard. *)
Record DataTransferItem : Set := {
  item_type : jsstring;
  getAsFile : option File
}.

(** The name [handlePaste] gives a file, [now] being [Date.now()]. *)
Definition pasted_name (now : N) (file : File) : jsstring :=
  js "pasted-image-" ++ Number_toString now ++ js "."
  ++ match nth_error (split_slash (file_type file)) 1 with
     | Some (c :: rest) => c :: rest
     | _ => js "png"
     end.

(** The loop of [handlePaste]; [now i] is [Date.now()] at the item of
    index [i]. *)
Fixpoint paste_items (imageItems : list DataTransferItem) (index : nat)
         (now : nat -> N)
  : list File * list jsstring * list (option string) * option exn :=
  match imageItems with
  | [] => ([], [], [], None)
  | item :: rest =>
      match getAsFile item with
      | None => paste_items rest (S index) now
      | Some file =>
          let namedFile :=
            new_File file (pasted_name (now index) file) (file_type file) in
          let validation := validateImageFile namedFile in
          if negb (valid validation) then
            let '(validFiles, previews, shown, failure) :=
              paste_items rest (S index) now in
            (validFiles, previews, error validation :: shown, failure)
          else
            match createImagePreview readAsDataURL namedFile with
            | Err e => ([namedFile], [], [], Some e)
            | Ok preview =>
                let '(validFiles, previews, shown, failure) :=
                  paste_items rest (S index) now in
                (namedFile :: validFiles, preview :: previews, shown, failure)
            end
      end
  end.

(** [handlePaste]; [items] is [e.clipboardData?.items] and [s] the state
    the setters find. *)
Definition handlePaste (items : option (list DataTransferItem))
           (now : nat -> N) (s : State) : Selection :=
  match items with
  | None => {| selected := s; toasts := []; rejected := None |}
  | Some items =>
      match filter (fun item => startsWith (item_type item) (js "image/"))
                   items with
      | [] => {| selected := s; toasts := []; rejected := None |}
      | imageItems =>
          match paste_items imageItems 0 now with
          | (_, _, shown, Some e) =>
              {| selected := s; toasts := shown; rejected := Some e |}
          | ([], _, shown, None) =>
              {| selected := s; toasts := shown; rejected := None |}
          | (validFiles, previews, shown, None) =>
              {| selected :=
                   with_new_images (newImageFiles s ++ validFiles)
                                   (newImagePreviews s ++ previews) s;
                 toasts :=
                   shown
                   ++ [Some (Nat_toText (N.of_nat (length validFiles))
                             ++ (if (1 <? length validFiles)%nat
                                 then " images pasted"
                                 else " image pasted"))%string];
                 rejected := None |}
          end
      end
  end.

End Images.

(** [prev.filter((_, i) => i !== index)]. The previews are data URLs,
    which [URL.revokeObjectURL] leaves alone. *)
Fixpoint without_index {A : Type} (index : nat) (l : list A) : list A :=
  match l, index with
  | [], _ => []
  | _ :: rest, O => rest
  | x :: rest, S i => x :: without_index i rest
  end.

Definition handleRemoveNewImage (index : nat) (s : State) : State :=
  with_new_images (without_index index (newImageFiles s))
                  (without_index index (newImagePreviews s)) s.

(** The states of the form in which [processImageFiles], [handlePaste]
    and [handleRemoveNewImage] have run, in any order, among handlers
    that leave the new files and their previews as they are. No other
    code sets them. *)
Inductive selecting (readAsDataURL : File -> result jsstring) (p : Props)
  : State -> Prop :=
| selecting_mounted : selecting readAsDataURL p (mounted p)
| selecting_processImageFiles s files :
    selecting readAsDataURL p s ->
    selecting readAsDataURL p (selected (processImageFiles readAsDataURL files s))
| selecting_handlePaste s items now :
    selecting readAsDataURL p s ->
    selecting readAsDataURL p (selected (handlePaste readAsDataURL items now s))
| selecting_handleRemoveNewImage s index :
    selecting readAsDataURL p s ->
    selecting readAsDataURL p (handleRemoveNewImage index s)
| selecting_other s s' :
    selecting readAsDataURL p s ->
    newImageFiles s' = newImageFiles s ->
    newImagePreviews s' = newImagePreviews s ->
    selecting readAsDataURL p s'.

Definition validateForm (p : Props) (s : State) : Errors :=
  (if match trim (title s) with [] => true | _ => false end
    then only "title" "Title is required" else [])
   ++ (if match trim (content s) with [] => true | _ => false end
       then only "content" "Content is required" else [])
   ++ (if isEncrypted s && negb (isEditing p) then
         (if match password s with [] => true | _ => false end
          then only "password" "Password is required for encryption"
          else [])
         ++ (if negb (jsstring_eqb (password s) (confirmPassword s))
             then only "confirmPassword" "Passwords do not match" else [])
       else [])
   ++ (if isEditing p
          && match note p with Some n => encrypted n | None => false end
          && negb (isDecrypted s)
       then only "decrypt" "You must decrypt the note before editing"
       else []).

(** The state of the random source when each encryption of a submission
    starts: the content's, the first of the images the note had (they
    start one after the other without a pause), and, by its index, each
    new file's, which starts when the file has been read. *)
Record Draws : Type := {
  at_content : rng;
  at_existing : rng;
  at_new : nat -> rng
}.

Fixpoint encrypt_existing (images : list bytes) (password : jsstring)
  : io (list ExternalBlob) :=
  match images with
  | [] => io_lift (Ok [])
  | imageBytes :: rest =>
      let* encryptedBytes <- encryptImage imageBytes password ;;
      let* more <- encrypt_existing rest password ;;
      io_lift (Ok (fromBytes encryptedBytes :: more))
  end.

Fixpoint encrypt_new (files : list File) (index : nat) (password : jsstring)
         (at_new : nat -> rng) : result (list ExternalBlob) :=
  match files with
  | [] => Ok []
  | file :: rest =>
      await uint8Array <- arrayBuffer file ;;
      await encryptedBytes <- fst (encryptImage uint8Array password (at_new index)) ;;
      await more <- encrypt_new rest (S index) password at_new ;;
      Ok (fromBytes encryptedBytes :: more)
  end.

Fixpoint upload_new (files : list File) : result (list ExternalBlob) :=
  match files with
  | [] => Ok []
  | file :: rest =>
      await uint8Array <- arrayBuffer file ;;
      await more <- upload_new rest ;;
      Ok (fromBytes uint8Array :: more)
  end.

(** The body of the [try] block of [handleSubmit] down to [noteData]. *)
Definition noteData (s : State) (d : Draws) : result NoteData :=
  let encrypting :=
    isEncrypted s && match password s with [] => false | _ => true end in
  await finalContent <-
    (if encrypting
     then fst (encryptContent (content s) (password s) (at_content d))
     else Ok (content s)) ;;
  await allImageBlobs <-
    (if encrypting then
       await encryptedDecryptedExisting <-
         fst (encrypt_existing (decryptedExistingImages s) (password s)
                               (at_existing d)) ;;
       await encryptedNewImages <-
         encrypt_new (newImageFiles s) 0 (password s) (at_new d) ;;
       Ok (encryptedDecryptedExisting ++ encryptedNewImages)
     else
       await newImageBlobs <- upload_new (newImageFiles s) ;;
       Ok (existingImages s ++ newImageBlobs)) ;;
  Ok {| data_title := trim (title s);
        data_content := finalContent;
        data_imageRefs := allImageBlobs;
        data_encrypted := isEncrypted s |}.

(** What [handleSubmit] asks of the canister. *)
Inductive Request : Set :=
| updateNote (noteId : NoteId) (data : NoteData)
| createNote (data : NoteData).

(** How far [handleSubmit] gets: the form is not valid; the actor is not
    there; the [try] block fails before the request; the request is made.
    What follows the request is not part of the model. *)
Inductive Submission : Set :=
| Invalid
| NotReady
| Failed
| Requested (r : Request).

Definition handleSubmit (p : Props) (actor : bool) (d : Draws) (s : State)
  : State * Submission :=
  let newErrors := validateForm p s in
  let s' := setErrors newErrors s in
  match newErrors with
  | _ :: _ => (s', Invalid)
  | [] =>
      if negb actor then (s', NotReady)
      else
        match noteData s d with
        | Err _ => (s', Failed)
        | Ok data =>
            match note p with
            | Some n => (s', Requested (updateNote (backend.id n) data))
            | None => (s', Requested (createNote data))
            end
        end
  end.

(** The note the canister holds after a request it has carried out: the
    data of the request under the identifier and timestamp it keeps or
    gives. *)
Definition stored (noteId : NoteId) (timestamp : Z) (data : NoteData) : Note :=
  {| backend.id := noteId;
     backend.title := data_title data;
     backend.content := data_content data;
     imageRefs := data_imageRefs data;
     encrypted := data_encrypted data;
     backend.timestamp := timestamp |}.

End NoteFormModal.

(* ------------------------------------------------------------------ *)
(** ** [screens/NotesDashboard.tsx]

    The dashboard gives the form the note being edited, or none, and
    nothing else. *)

Module NotesDashboard.

Definition form (editingNote : option backend.Note) : NoteFormModal.Props :=
  {| NoteFormModal.note := editingNote;
     NoteFormModal.initialDecryptedContent := None;
     NoteFormModal.initialDecryptedImages := None;
     NoteFormModal.initialDecryptedPassword := None |}.

End NotesDashboard.

(* ------------------------------------------------------------------ *)
(** ** [utils/safeErrorReason.ts] *)

(** A value of type [unknown], as far as [safeErrorReason] looks at it:
    a value that is neither a string nor an object (of which only its
    truthiness counts; a function is one of these), a string, an instance
    of [Error] with its message, or another object, with what [String]
    makes of its [message] property when it has one. *)
Inductive unknown : Set :=
| Primitive (truthy : bool)
| Str (s : jsstring)
| ErrorObject (message : jsstring)
| Object (message : option jsstring).

Definition truthy (v : unknown) : bool :=
  match v with
  | Primitive t => t
  | Str [] => false
  | Str (_ :: _) => true
  | ErrorObject _ => true
  | Object _ => true
  end.

Definition unexpected : jsstring := js "An unexpected error occurred".

Section WithLowerCase.

(** [String.prototype.toLowerCase]: the case mapping of Unicode is not
    part of the model. *)
Variable toLowerCase : jsstring -> jsstring.

Definition safeErrorReason (error : unknown) : jsstring :=
  if negb (truthy error) then []
  else
    match error with
    | ErrorObject error_message =>
        let message := toLowerCase error_message in
        if includes message (js "actor not available")
           || includes message (js "actor not initialized") then
          js "System is initializing, please try again"
        else if includes message (js "unauthorized")
                || includes message (js "permission") then
          js "You do not have permission to perform this action"
        else if includes message (js "network")
                || includes message (js "fetch") then
          js "Network error, please check your connection"
        else if includes message (js "timeout") then
          js "Request timed out, please try again"
        else if (length error_message <? 100)%nat
                && negb (includes error_message (js "at ")) then
          error_message
        else unexpected
    | Str error =>
        if (length error <? 100)%nat then error else unexpected
    | Object (Some msg) =>
        if (length msg <? 100)%nat then msg else unexpected
    | _ => unexpected
    end.

End WithLowerCase.

(* ------------------------------------------------------------------ *)
(** ** Sample values for the components *)

Module Samples.
Import backend.

Definition plain_note : Note :=
  {| id := js "0";
     title := js "shopping";
     content := js "milk and bread";
     imageRefs := [fromURL (js "blob-1")];
     encrypted := false;
     timestamp := 1700000000 |}.

(** A note encrypted under "correct horse": a text and one image. *)
Definition secret_note : Note :=
  {| id := js "1";
     title := js "diary";
     content :=
       base64_text (envelope (drawn_salt sample_rng) (drawn_iv sample_rng)
                             (TextEncoder_encode (js "hello world"))
                             (js "correct horse"));
     imageRefs :=
       [fromBytes (envelope (drawn_salt sample_rng) (drawn_iv sample_rng)
                            sample_image (js "correct horse"))];
     encrypted := true;
     timestamp := 1700000000 |}.

Definition photo : File :=
  {| file_name := js "photo.png";
     file_type := js "image/png";
     file_size := 3;
     arrayBuffer := Ok sample_image |}.

(** A file of a type the form does not take, and one that is too big. *)
Definition document_file : File :=
  {| file_name := js "notes.pdf";
     file_type := js "application/pdf";
     file_size := 3;
     arrayBuffer := Ok sample_image |}.

Definition big_photo : File :=
  {| file_name := js "big.png";
     file_type := js "image/png";
     file_size := 10485761;
     arrayBuffer := Ok sample_image |}.

(** A reader that makes the same URL of every file. *)
Definition reader (file : File) : result jsstring :=
  Ok (js "data:image/png;base64,iVBO").


Definition draws : NoteFormModal.Draws :=
  {| NoteFormModal.at_content := sample_rng;
     NoteFormModal.at_existing := sample_rng;
     NoteFormModal.at_new := fun _ => sample_rng |}.


End Samples.

(* ================================================================== *)
(** * Part II: properties                                              *)
(* ================================================================== *)

Ltac nlia := zify; Z.to_euclidean_division_equations; lia.

(** ** The models against published test vectors *)

(** FIPS 180-4, the one-block message. *)
Example sha256_abc :
  Sha256.be_value (Sha256.hash (ascii_bytes "abc")) =
  0xba7816bf8f01cfea414140de5dae2223b00361a396177a9cb410ff61f20015ad.
Proof. vm_compute. reflexivity. Qed.

(** FIPS 180-4, the two-block message. *)
Example sha256_two_blocks :
  Sha256.be_value
    (Sha256.hash
       (ascii_bytes "abcdbcdecdefdefgefghfghighijhijkijkljklmklmnlmnomnopnopq")) =
  0x248d6a61d20638b8e5c026930c3e6039a33ce45964ff2167f6ecedd419db06c1.
Proof. vm_compute. reflexivity. Qed.

(** RFC 4231, test case 1. *)
Example hmac_rfc4231_1 :
  Sha256.be_value (Hmac.hmac (repeat x0b 20) (ascii_bytes "Hi There")) =
  0xb0344c61d8db38535ca8afceaf0bf12b881dc200c9833da726e9376c2e32cff7.
Proof. vm_compute. reflexivity. Qed.

(** RFC 4231, test case 6: a key longer than a block is hashed first. *)
Example hmac_rfc4231_6 :
  Sha256.be_value
    (Hmac.hmac (repeat xaa 131)
       (ascii_bytes "Test Using Larger Than Block-Size Key - Hash Key First")) =
  0x60e431591ee0b67f0d8a26aacbf5b77f8e0bc6213728c5140546040f0ee37f54.
Proof. vm_compute. reflexivity. Qed.

(** PBKDF2-HMAC-SHA-256 of "password" and "salt", one and two iterations. *)
Example pbkdf2_one_iteration :
  Sha256.be_value
    (Pbkdf2.hmac_sha256 (ascii_bytes "password") (ascii_bytes "salt") 1 32) =
  0x120fb6cffcf8b32c43e7225256c4f837a86548c92ccc35480805987cb70be17b.
Proof. vm_compute. reflexivity. Qed.

Example pbkdf2_two_iterations :
  Sha256.be_value
    (Pbkdf2.hmac_sha256 (ascii_bytes "password") (ascii_bytes "salt") 2 32) =
  0xae4d0c95af6b46d32d0adff928f06dd02a303f8ef3c251dfd6e2d85a95474c43.
Proof. vm_compute. reflexivity. Qed.

(** FIPS 197, appendix C.3: AES-256. *)
Example aes256_fips197 :
  Sha256.be_value
    (Aes.encrypt_block
       (map (fun i => byte_of_N (N.of_nat i)) (seq 0 32))
       (Sha256.be_bytes 16 0x00112233445566778899aabbccddeeff)) =
  0x8ea2b7ca516745bfeafc49904b496089.
Proof. vm_compute. reflexivity. Qed.

(** The GCM test cases with a 256-bit zero key and a 96-bit zero IV: no
    plaintext, and one block of zeros. *)
Example gcm_empty_plaintext :
  Gcm.ae (Aes.encrypt_block (repeat x00 32)) (repeat x00 12) [] [] =
  ([], Sha256.be_bytes 16 0x530f8afbc74536b9a963b4f1c4cb738b).
Proof. vm_compute. reflexivity. Qed.

Example gcm_one_block :
  Gcm.ae (Aes.encrypt_block (repeat x00 32)) (repeat x00 12) [] (repeat x00 16) =
  (Sha256.be_bytes 16 0xcea7403d4d606b6e074ec5d3baf39d18,
   Sha256.be_bytes 16 0xd0d1c8a799996bf0265b98b5d48ab919).
Proof. vm_compute. reflexivity. Qed.

(** The GCM test cases with a 256-bit key, additional data and a last
    block of twelve bytes: with an IV of 96 bits, and with one of 64 bits. *)
Example gcm_partial_block :
  Gcm.ae
    (Aes.encrypt_block
       (Sha256.be_bytes 32
          0xfeffe9928665731c6d6a8f9467308308feffe9928665731c6d6a8f9467308308))
    (Sha256.be_bytes 12 0xcafebabefacedbaddecaf888)
    (Sha256.be_bytes 20 0xfeedfacedeadbeeffeedfacedeadbeefabaddad2)
    (Sha256.be_bytes 60
       0xd9313225f88406e5a55909c5aff5269a86a7a9531534f7da2e4c303d8a318a721c3c0c95956809532fcf0e2449a6b525b16aedf5aa0de657ba637b39) =
  (Sha256.be_bytes 60
     0x522dc1f099567d07f47f37a32a84427d643a8cdcbfe5c0c97598a2bd2555d1aa8cb08e48590dbb3da7b08b1056828838c5f61e6393ba7a0abcc9f662,
   Sha256.be_bytes 16 0x76fc6ece0f4e1768cddf8853bb2d551b).
Proof. vm_compute. reflexivity. Qed.

Example gcm_short_iv :
  Gcm.ae
    (Aes.encrypt_block
       (Sha256.be_bytes 32
          0xfeffe9928665731c6d6a8f9467308308feffe9928665731c6d6a8f9467308308))
    (Sha256.be_bytes 8 0xcafebabefacedbad)
    (Sha256.be_bytes 20 0xfeedfacedeadbeeffeedfacedeadbeefabaddad2)
    (Sha256.be_bytes 60
       0xd9313225f88406e5a55909c5aff5269a86a7a9531534f7da2e4c303d8a318a721c3c0c95956809532fcf0e2449a6b525b16aedf5aa0de657ba637b39) =
  (Sha256.be_bytes 60
     0xc3762df1ca787d32ae47c13bf19844cbaf1ae14d0b976afac52ff7d79bba9de0feb582d33934a4f0954cc2363bc73f7862ac430e64abe499f47c9b1f,
   Sha256.be_bytes 16 0x3a337dbf46a792c45e454913fe2ea8f2).
Proof. vm_compute. reflexivity. Qed.

(** Base64 of the standard examples, and a text with one character of
    each UTF-8 length. *)
Example base64_examples :
  btoa (js "foobar") = Ok (js "Zm9vYmFy")
  /\ btoa (js "fooba") = Ok (js "Zm9vYmE=")
  /\ btoa (js "foob") = Ok (js "Zm9vYg==")
  /\ atob (js "Zm9vYg") = Ok (js "foob")
  /\ atob (js " Zm9v YmE= ") = Ok (js "fooba")
  /\ atob (js "Zm9vY") = Err InvalidCharacterError
  /\ atob (js "Zm9v!mFy") = Err InvalidCharacterError.
Proof. repeat split. Qed.

Example utf8_examples :
  map Byte.to_N
      (TextEncoder_encode (map cu_of_N [0x61; 0xE9; 0x20AC; 0xD83D; 0xDE00])) =
  [0x61; 0xC3; 0xA9; 0xE2; 0x82; 0xAC; 0xF0; 0x9F; 0x98; 0x80]
  /\ map cu_val
         (TextDecoder_decode
            (map byte_of_N [0x61; 0xC3; 0xA9; 0xE2; 0x82; 0xAC; 0xF0; 0x9F; 0x98; 0x80])) =
     [0x61; 0xE9; 0x20AC; 0xD83D; 0xDE00]
  /\ map cu_val (TextDecoder_decode (map byte_of_N [0xC0; 0x80; 0xED; 0xA0; 0x80; 0xE2; 0x82])) =
     [0xFFFD; 0xFFFD; 0xFFFD; 0xFFFD; 0xFFFD; 0xFFFD].
Proof. repeat split. Qed.

(** ** Bytes *)

Lemma to_N_byte_of_N (n : N) : Byte.to_N (byte_of_N n) = n mod 256.
Proof.
  unfold byte_of_N. destruct (Byte.of_N (n mod 256)) eqn:E.
  - now apply Byte.to_of_N.
  - apply Byte.of_N_None_iff in E. nlia.
Qed.

Lemma to_N_lt_256 (b : byte) : Byte.to_N b < 256.
Proof. pose proof (Byte.to_N_bounded b). lia. Qed.

Lemma byte_of_N_to_N (b : byte) : byte_of_N (Byte.to_N b) = b.
Proof.
  unfold byte_of_N. rewrite N.mod_small by apply to_N_lt_256.
  now rewrite Byte.of_to_N.
Qed.

Lemma to_N_byte_of_N_small (n : N) : n < 256 -> Byte.to_N (byte_of_N n) = n.
Proof. intros. rewrite to_N_byte_of_N. now apply N.mod_small. Qed.

Lemma to_N_inj (a b : byte) : Byte.to_N a = Byte.to_N b -> a = b.
Proof.
  intros H. rewrite <- (byte_of_N_to_N a), <- (byte_of_N_to_N b). now rewrite H.
Qed.

Lemma lxor_lt_256 (a b : N) : a < 256 -> b < 256 -> N.lxor a b < 256.
Proof.
  intros Ha Hb.
  destruct (N.eq_dec (N.lxor a b) 0) as [E|E]; [rewrite E; lia|].
  apply (N.log2_lt_pow2 _ 8); [lia|].
  eapply N.le_lt_trans; [apply N.log2_lxor|].
  destruct (N.eq_dec a 0) as [->|Ha0], (N.eq_dec b 0) as [->|Hb0]; simpl.
  - lia.
  - apply N.max_lub_lt; [simpl; lia|]. apply N.log2_lt_pow2; simpl; lia.
  - apply N.max_lub_lt; [|simpl; lia]. apply N.log2_lt_pow2; simpl; lia.
  - apply N.max_lub_lt; apply N.log2_lt_pow2; simpl; lia.
Qed.

Lemma to_N_bxor (a b : byte) :
  Byte.to_N (bxor a b) = N.lxor (Byte.to_N a) (Byte.to_N b).
Proof.
  unfold bxor. apply to_N_byte_of_N_small.
  apply lxor_lt_256; apply to_N_lt_256.
Qed.

Lemma bxor_cancel (a k : byte) : bxor (bxor a k) k = a.
Proof.
  apply to_N_inj. rewrite !to_N_bxor.
  now rewrite N.lxor_assoc, N.lxor_nilpotent, N.lxor_0_r.
Qed.

Lemma xor_bytes_length (a b : bytes) :
  length (xor_bytes a b) = Nat.min (length a) (length b).
Proof.
  revert b. induction a as [|x a IH]; intros [|y b]; simpl; auto.
Qed.

Lemma xor_bytes_cancel (a k : bytes) :
  (length a <= length k)%nat -> xor_bytes (xor_bytes a k) k = a.
Proof.
  revert k. induction a as [|x a IH]; intros [|y k] H; simpl in *; try lia; auto.
  rewrite bxor_cancel, IH by lia. reflexivity.
Qed.

(** ** Code units *)


Lemma cu_val_of_N (n : N) : cu_val (cu_of_N n) = n mod 65536.
Proof.
  unfold cu_val, cu_of_N; cbn [cu_hi cu_lo]. rewrite !to_N_byte_of_N. nlia.
Qed.

Lemma cu_val_of_N_small (n : N) : n < 65536 -> cu_val (cu_of_N n) = n.
Proof. intros. rewrite cu_val_of_N. now apply N.mod_small. Qed.

Lemma cu_of_N_val (c : code_unit) : cu_of_N (cu_val c) = c.
Proof.
  destruct c as [h l]. unfold cu_val, cu_of_N; cbn [cu_hi cu_lo].
  pose proof (to_N_lt_256 h). pose proof (to_N_lt_256 l).
  f_equal; apply to_N_inj; rewrite to_N_byte_of_N; nlia.
Qed.


Lemma from_charCodes_fromCharCode (a : bytes) :
  Uint8Array_from_charCodes (String_fromCharCode a) = a.
Proof.
  unfold Uint8Array_from_charCodes, String_fromCharCode.
  rewrite map_map. rewrite <- (map_id a) at 2. apply map_ext. intros b.
  rewrite cu_val_of_N_small by (pose proof (to_N_lt_256 b); lia).
  apply byte_of_N_to_N.
Qed.

(** ** UTF-8 *)

Module Utf8Facts.
Import Utf8.

Ltac bools :=
  repeat match goal with
  | H : _ && _ = true |- _ => apply andb_true_iff in H; destruct H
  | H : _ && _ = false |- _ => apply andb_false_iff in H
  | H : _ || _ = true |- _ => apply orb_true_iff in H
  | H : _ || _ = false |- _ => apply orb_false_iff in H; destruct H
  | H : negb _ = true |- _ => apply negb_true_iff in H
  | H : negb _ = false |- _ => apply negb_false_iff in H
  | H : (_ <=? _) = true |- _ => apply N.leb_le in H
  | H : (_ <=? _) = false |- _ => apply N.leb_gt in H
  | H : (_ <? _) = true |- _ => apply N.ltb_lt in H
  | H : (_ <? _) = false |- _ => apply N.ltb_ge in H
  | H : (_ =? _) = true |- _ => apply N.eqb_eq in H
  | H : (_ =? _) = false |- _ => apply N.eqb_neq in H
  | H : _ \/ _ |- _ => destruct H
  end.

(** Decides the tests of the goal one after the other. *)
Ltac cases :=
  repeat match goal with
  | |- context [if ?c then _ else _] =>
      let E := fresh "E" in destruct c eqn:E; bools; try nlia
  end.


Lemma step_ascii (b : N) : b <= 0x7F -> step initial b = (initial, [b]).
Proof. intros. unfold step, handler, initial; cbn [bytes_needed]. cases. reflexivity. Qed.

Lemma step_lead2 (b : N) :
  0xC2 <= b <= 0xDF -> step initial b = (State (b mod 32) 0 1 0x80 0xBF, []).
Proof. intros. unfold step, handler, initial; cbn [bytes_needed]. cases. reflexivity. Qed.

Lemma step_lead3 (b : N) :
  0xE0 <= b <= 0xEF ->
  step initial b =
  (State (b mod 16) 0 2 (if b =? 0xE0 then 0xA0 else 0x80)
         (if b =? 0xED then 0x9F else 0xBF), []).
Proof.
  intros. unfold step, handler, initial; cbn [bytes_needed].
  cases; reflexivity.
Qed.

Lemma step_lead4 (b : N) :
  0xF0 <= b <= 0xF4 ->
  step initial b =
  (State (b mod 8) 0 3 (if b =? 0xF0 then 0x90 else 0x80)
         (if b =? 0xF4 then 0x8F else 0xBF), []).
Proof.
  intros. unfold step, handler, initial; cbn [bytes_needed].
  cases; reflexivity.
Qed.

Lemma step_last (cp seen needed lo up b : N) :
  needed <> 0 -> lo <= b <= up -> seen + 1 = needed ->
  step (State cp seen needed lo up) b = (initial, [cp * 64 + b mod 64]).
Proof.
  intros. unfold step, handler;
    cbn [bytes_needed lower_boundary upper_boundary code_point bytes_seen].
  cases; reflexivity.
Qed.

Lemma step_more (cp seen needed lo up b : N) :
  needed <> 0 -> lo <= b <= up -> seen + 1 <> needed ->
  step (State cp seen needed lo up) b =
  (State (cp * 64 + b mod 64) (seen + 1) needed 0x80 0xBF, []).
Proof.
  intros. unfold step, handler;
    cbn [bytes_needed lower_boundary upper_boundary code_point bytes_seen].
  cases; reflexivity.
Qed.

Lemma decode_from_cons (st : state) (b : byte) (rest : bytes) :
  decode_from st (b :: rest) =
  snd (step st (Byte.to_N b)) ++ decode_from (fst (step st (Byte.to_N b))) rest.
Proof. cbn [decode_from]. destruct (step st (Byte.to_N b)); reflexivity. Qed.




(** Induction over a string one or two code units at a time. *)
Lemma units_ind (P : list N -> Prop) :
  P [] ->
  (forall c, P [c]) ->
  (forall c d rest, P rest -> P (d :: rest) -> P (c :: d :: rest)) ->
  forall s, P s.
Proof.
  intros H0 H1 H2 s.
  enough (P s /\ forall c, P (c :: s)) by tauto.
  induction s as [|d rest [IH1 IH2]]; split; auto.
Qed.





End Utf8Facts.



(** ** Base64 *)

Module Base64Facts.
Import Base64.

Lemma below_64 (P : N -> bool) :
  forallb P (map N.of_nat (seq 0 64)) = true -> forall n, n < 64 -> P n = true.
Proof.
  intros H n Hn. rewrite forallb_forall in H. apply H.
  apply in_map_iff. exists (N.to_nat n). split; [apply N2Nat.id|].
  apply in_seq. lia.
Qed.

Lemma sextet_of_char_of_sextet (n : N) :
  n < 64 -> sextet_of_char (char_of_sextet n) = Some n.
Proof.
  intros Hn.
  apply (below_64 (fun n => match sextet_of_char (char_of_sextet n) with
                            | Some m => m =? n
                            | None => false
                            end)) in Hn; [|vm_compute; reflexivity].
  destruct (sextet_of_char (char_of_sextet n)); [|discriminate].
  apply N.eqb_eq in Hn. now subst.
Qed.

Lemma char_of_sextet_plain (n : N) :
  n < 64 ->
  is_ascii_whitespace (char_of_sextet n) = false
  /\ (char_of_sextet n =? pad) = false
  /\ char_of_sextet n < 256.
Proof.
  intros Hn.
  apply (below_64 (fun n => negb (is_ascii_whitespace (char_of_sextet n))
                            && negb (char_of_sextet n =? pad)
                            && (char_of_sextet n <? 256))) in Hn;
    [|vm_compute; reflexivity].
  apply andb_true_iff in Hn. destruct Hn as [Hn H3].
  apply andb_true_iff in Hn. destruct Hn as [H1 H2].
  apply negb_true_iff in H1, H2. apply N.ltb_lt in H3. auto.
Qed.

(** Induction over a byte sequence three bytes at a time. *)
Lemma triples_ind (P : list N -> Prop) :
  P [] -> (forall a, P [a]) -> (forall a b, P [a; b]) ->
  (forall a b c rest, P rest -> P (a :: b :: c :: rest)) ->
  forall l, P l.
Proof.
  intros H0 H1 H2 H3 l.
  enough (P l /\ (forall a, P (a :: l)) /\ forall a b, P (a :: b :: l)) by tauto.
  induction l as [|c rest (IH1 & IH2 & IH3)]; repeat split; auto.
Qed.

Lemma plain_char (n : N) : n < 64 -> plain (char_of_sextet n).
Proof. intros; exists n; auto. Qed.

Lemma encode_unpadded_plain (l : list N) :
  Forall (fun b => b < 256) l -> Forall plain (encode_unpadded l).
Proof.
  induction l as [|a|a b|a b c rest IH] using triples_ind; intros Hl;
    cbn [encode_unpadded].
  - constructor.
  - inversion_clear Hl. repeat (constructor; [apply plain_char; nlia|]). constructor.
  - inversion_clear Hl as [|? ? Ha Hl']. inversion_clear Hl'.
    repeat (constructor; [apply plain_char; nlia|]). constructor.
  - inversion_clear Hl as [|? ? Ha Hl']. inversion_clear Hl' as [|? ? Hb Hl''].
    inversion_clear Hl'' as [|? ? Hc Hr].
    repeat (constructor; [apply plain_char; nlia|]). auto.
Qed.

Lemma encode_split (l : list N) : encode l = encode_unpadded l ++ padding_of l.
Proof.
  induction l as [|a|a b|a b c rest IH] using triples_ind; try reflexivity.
  cbn [encode encode_unpadded app]. rewrite IH. do 5 f_equal.
  unfold padding_of. cbn [length].
  replace (S (S (S (length rest)))) with (length rest + 1 * 3)%nat by lia.
  now rewrite Nat.Div0.mod_add.
Qed.

Lemma encode_length (l : list N) : (length (encode l) mod 4 = 0)%nat.
Proof.
  induction l as [|a|a b|a b c rest IH] using triples_ind; try reflexivity.
  cbn [encode length].
  replace (S (S (S (S (length (encode rest)))))) with (length (encode rest) + 1 * 4)%nat by lia.
  now rewrite Nat.Div0.mod_add.
Qed.

Lemma encode_unpadded_length (l : list N) :
  (length (encode_unpadded l) mod 4 <> 1)%nat.
Proof.
  induction l as [|a|a b|a b c rest IH] using triples_ind;
    try (cbn; lia).
  cbn [encode_unpadded length].
  replace (S (S (S (S (length (encode_unpadded rest))))))
    with (length (encode_unpadded rest) + 1 * 4)%nat by lia.
  now rewrite Nat.Div0.mod_add.
Qed.

Lemma strip_padding_encode (l : list N) :
  Forall (fun b => b < 256) l -> strip_padding (encode l) = encode_unpadded l.
Proof.
  intros Hl. pose proof (encode_unpadded_plain l Hl) as Hp.
  unfold strip_padding. rewrite encode_length. cbn [Nat.eqb].
  rewrite encode_split. unfold padding_of.
  assert (Hr : Forall plain (rev (encode_unpadded l))) by now apply Forall_rev.
  destruct (length l mod 3)%nat as [|[|[|k]]].
  - rewrite app_nil_r.
    destruct (rev (encode_unpadded l)) as [|a [|b r]]; [reflexivity| |];
      inversion_clear Hr as [|? ? Ha _]; destruct Ha as (n & Hn & ->);
      destruct (char_of_sextet_plain n Hn) as (_ & -> & _); reflexivity.
  - rewrite rev_app_distr. cbn [rev app]. rewrite !N.eqb_refl. apply rev_involutive.
  - rewrite rev_app_distr. cbn [rev app].
    destruct (rev (encode_unpadded l)) as [|b r] eqn:E.
    + rewrite N.eqb_refl. apply (f_equal (@rev N)) in E.
      rewrite rev_involutive in E. now rewrite E.
    + rewrite N.eqb_refl.
      inversion_clear Hr as [|? ? Hb _]. destruct Hb as (n & Hn & ->).
      destruct (char_of_sextet_plain n Hn) as (_ & -> & _).
      change (rev (char_of_sextet n :: r) = encode_unpadded l).
      rewrite <- E. apply rev_involutive.
  - rewrite app_nil_r.
    destruct (rev (encode_unpadded l)) as [|a [|b r]]; [reflexivity| |];
      inversion_clear Hr as [|? ? Ha _]; destruct Ha as (n & Hn & ->);
      destruct (char_of_sextet_plain n Hn) as (_ & -> & _); reflexivity.
Qed.

Lemma filter_whitespace_encode (l : list N) :
  Forall (fun b => b < 256) l ->
  filter (fun c => negb (is_ascii_whitespace c)) (encode l) = encode l.
Proof.
  intros Hl. apply forallb_filter_id. rewrite encode_split, forallb_app.
  apply andb_true_iff. split.
  - apply forallb_forall. intros c Hc.
    pose proof (encode_unpadded_plain l Hl) as Hp.
    rewrite Forall_forall in Hp. destruct (Hp c Hc) as (n & Hn & ->).
    destruct (char_of_sextet_plain n Hn) as (-> & _). reflexivity.
  - unfold padding_of. destruct (length l mod 3)%nat as [|[|[|k]]]; reflexivity.
Qed.

Lemma sextets_encode_unpadded (l : list N) :
  Forall (fun b => b < 256) l ->
  option_map decode_sextets (sextets (encode_unpadded l)) = Some l.
Proof.
  induction l as [|a|a b|a b c rest IH] using triples_ind; intros Hl.
  - reflexivity.
  - inversion_clear Hl. cbn [encode_unpadded sextets].
    rewrite !sextet_of_char_of_sextet by nlia.
    cbn [option_map decode_sextets]. do 2 f_equal. nlia.
  - inversion_clear Hl as [|? ? Ha Hl']. inversion_clear Hl'.
    cbn [encode_unpadded sextets].
    rewrite !sextet_of_char_of_sextet by nlia.
    cbn [option_map decode_sextets]. f_equal. f_equal; [|f_equal]; nlia.
  - inversion_clear Hl as [|? ? Ha Hl']. inversion_clear Hl' as [|? ? Hb Hl''].
    inversion_clear Hl'' as [|? ? Hc Hr].
    specialize (IH Hr). cbn [encode_unpadded sextets].
    rewrite !sextet_of_char_of_sextet by nlia.
    destruct (sextets (encode_unpadded rest)) as [sx|]; [|discriminate].
    cbn [option_map] in *. injection IH as IH.
    cbn [decode_sextets]. rewrite IH.
    f_equal. f_equal; [|f_equal; [|f_equal]]; nlia.
Qed.

(** Decoding inverts encoding. *)
Lemma decode_encode (l : list N) :
  Forall (fun b => b < 256) l -> decode (encode l) = Some l.
Proof.
  intros Hl. unfold decode.
  rewrite filter_whitespace_encode, strip_padding_encode by assumption.
  pose proof (encode_unpadded_length l) as Hn.
  apply Nat.eqb_neq in Hn. rewrite Hn.
  now apply sextets_encode_unpadded.
Qed.

Lemma encode_below_256 (l : list N) :
  Forall (fun b => b < 256) l -> Forall (fun c => c < 256) (encode l).
Proof.
  intros Hl. rewrite encode_split. apply Forall_app. split.
  - eapply Forall_impl; [|apply encode_unpadded_plain, Hl].
    intros c (n & Hn & ->). now destruct (char_of_sextet_plain n Hn) as (_ & _ & ?).
  - unfold padding_of.
    destruct (length l mod 3)%nat as [|[|[|k]]]; repeat constructor.
Qed.

End Base64Facts.

Lemma Forall_to_N (a : bytes) : Forall (fun b => b < 256) (map Byte.to_N a).
Proof. apply Forall_map, Forall_forall. intros b _. apply to_N_lt_256. Qed.

Lemma cu_val_fromCharCode (a : bytes) :
  map cu_val (String_fromCharCode a) = map Byte.to_N a.
Proof.
  unfold String_fromCharCode. rewrite map_map. apply map_ext. intros b.
  apply cu_val_of_N_small. pose proof (to_N_lt_256 b). lia.
Qed.

(** [btoa] accepts the characters made from bytes. *)
Lemma btoa_fromCharCode (a : bytes) :
  btoa (String_fromCharCode a) = Ok (base64_text a).
Proof.
  unfold btoa, base64_text.
  replace (forallb (fun c => cu_val c <=? 255) (String_fromCharCode a)) with true.
  - now rewrite cu_val_fromCharCode.
  - symmetry. apply forallb_forall. intros c Hc.
    unfold String_fromCharCode in Hc. apply in_map_iff in Hc.
    destruct Hc as (b & <- & _). pose proof (to_N_lt_256 b).
    rewrite cu_val_of_N_small by lia. apply N.leb_le. lia.
Qed.

(** [atob] gives back the characters [btoa] was given. *)
Lemma atob_base64_text (a : bytes) :
  atob (base64_text a) = Ok (String_fromCharCode a).
Proof.
  unfold atob, base64_text.
  assert (H : map cu_val (map cu_of_N (Base64.encode (map Byte.to_N a)))
              = Base64.encode (map Byte.to_N a)).
  { rewrite map_map. rewrite <- (map_id (Base64.encode _)) at 2.
    apply map_ext_in. intros c Hc.
    pose proof (Base64Facts.encode_below_256 _ (Forall_to_N a)) as Hf.
    rewrite Forall_forall in Hf. specialize (Hf c Hc).
    apply cu_val_of_N_small. lia. }
  rewrite H, Base64Facts.decode_encode by apply Forall_to_N.
  unfold String_fromCharCode. now rewrite map_map.
Qed.

(** ** Lengths of the cryptographic outputs *)

Lemma be_bytes_length (len : nat) (n : N) : length (Sha256.be_bytes len n) = len.
Proof. induction len; simpl; auto. Qed.

Lemma compress_length (h : list N) (block : bytes) :
  length (Sha256.compress h block) = 8%nat.
Proof.
  unfold Sha256.compress.
  destruct (fold_left Sha256.round Sha256.K _) as [[[[[[[[a b] c] d] e] f] g] i] w].
  reflexivity.
Qed.

(** What every step of a fold keeps, the fold keeps. *)
Lemma fold_left_invariant {A B : Type} (f : A -> B -> A) (P : A -> Prop) :
  (forall a b, P (f a b)) ->
  forall l a, P a -> P (fold_left f l a).
Proof.
  intros Hf l. induction l as [|b l IH]; intros a Ha; [exact Ha|].
  cbn [fold_left]. apply IH, Hf.
Qed.

Lemma fold_compress_length (blocks : list bytes) (h : list N) :
  length h = 8%nat -> length (fold_left Sha256.compress blocks h) = 8%nat.
Proof.
  apply (fold_left_invariant Sha256.compress (fun h => length h = 8%nat)).
  apply compress_length.
Qed.

Lemma flat_map_be_bytes_length (l : list N) :
  length (flat_map (Sha256.be_bytes 4) l) = (4 * length l)%nat.
Proof.
  induction l as [|x l IH]; [reflexivity|].
  cbn [flat_map]. rewrite length_app, be_bytes_length, IH. cbn [length]. lia.
Qed.

Lemma hash_length (m : bytes) : length (Sha256.hash m) = 32%nat.
Proof.
  unfold Sha256.hash. rewrite flat_map_be_bytes_length.
  rewrite fold_compress_length; reflexivity.
Qed.

Lemma hmac_length (key message : bytes) : length (Hmac.hmac key message) = 32%nat.
Proof. apply hash_length. Qed.

Lemma F_length (password salt : bytes) (c i : N) :
  length (Pbkdf2.F Hmac.hmac password salt c i) = 32%nat.
Proof.
  unfold Pbkdf2.F.
  set (f := fun ut : bytes * bytes => _).
  set (u1 := Hmac.hmac password _).
  refine (proj2 (N.iter_invariant (c - 1) _ f
           (fun ut => length (fst ut) = 32%nat /\ length (snd ut) = 32%nat) _ _ _)).
  - intros [u t] [Hu Ht]. unfold f; cbn [fst snd] in *.
    rewrite xor_bytes_length, hmac_length, Ht. split; reflexivity.
  - unfold u1. cbn [fst snd]. rewrite hmac_length. auto.
Qed.

Lemma hmac_sha256_length (password salt : bytes) (c : N) :
  length (Pbkdf2.hmac_sha256 password salt c 32) = 32%nat.
Proof.
  unfold Pbkdf2.hmac_sha256, Pbkdf2.derive.
  change ((32 + 32 - 1) / 32)%nat with 1%nat.
  cbn [seq flat_map]. rewrite app_nil_r.
  rewrite firstn_all2; rewrite F_length; auto.
Qed.

Lemma encrypt_block_length (key block : bytes) :
  length (Aes.encrypt_block key block) = 16%nat.
Proof. unfold Aes.encrypt_block. now rewrite length_map, length_seq. Qed.

(** ** Counter mode and the tag *)

Module GcmFacts.
Section WithCipher.
Variable E : bytes -> bytes.
Hypothesis E_length : forall b, length (E b) = 16%nat.

Lemma gctr_nil (fuel : nat) (cb : N) : Gcm.gctr E fuel cb [] = [].
Proof. destruct fuel; reflexivity. Qed.

Lemma gctr_step (fuel : nat) (cb : N) (x : bytes) :
  x <> [] ->
  Gcm.gctr E (S fuel) cb x =
  xor_bytes (firstn 16 x) (E (Gcm.block_bytes cb))
  ++ Gcm.gctr E fuel (Gcm.inc32 cb) (skipn 16 x).
Proof. destruct x; [congruence|reflexivity]. Qed.

Lemma gctr_length (fuel : nat) (cb : N) (x : bytes) :
  (length x <= fuel)%nat -> length (Gcm.gctr E fuel cb x) = length x.
Proof.
  revert cb x. induction fuel as [|fuel IH]; intros cb x Hx.
  - destruct x; [reflexivity|simpl in Hx; lia].
  - destruct x as [|b x]; [reflexivity|].
    assert (Hn : b :: x <> []) by discriminate.
    generalize dependent (b :: x). intros y Hx Hn.
    rewrite gctr_step by assumption.
    rewrite length_app, xor_bytes_length, length_firstn, E_length.
    rewrite IH by (rewrite length_skipn; lia).
    rewrite length_skipn. lia.
Qed.

(** Counter mode undoes itself. *)
Lemma gctr_involutive (fuel : nat) (cb : N) (x : bytes) :
  (length x <= fuel)%nat ->
  Gcm.gctr E fuel cb (Gcm.gctr E fuel cb x) = x.
Proof.
  revert cb x. induction fuel as [|fuel IH]; intros cb x Hx.
  - destruct x; [reflexivity|simpl in Hx; lia].
  - destruct x as [|b x]; [reflexivity|].
    assert (Hy : (0 < length (b :: x))%nat) by (cbn [length]; lia).
    assert (Hn : b :: x <> []) by discriminate.
    generalize dependent (b :: x). intros y Hx Hy Hn.
    rewrite (gctr_step fuel cb y) by assumption.
    pose proof (E_length (Gcm.block_bytes cb)) as Hk.
    pose proof (IH (Gcm.inc32 cb) (skipn 16 y)) as IHr.
    remember (E (Gcm.block_bytes cb)) as k eqn:Ek.
    remember (Gcm.gctr E fuel (Gcm.inc32 cb) (skipn 16 y)) as rest eqn:Er.
    assert (Hh : length (xor_bytes (firstn 16 y) k) = length (firstn 16 y)).
    { rewrite xor_bytes_length, Hk, length_firstn. lia. }
    rewrite gctr_step.
    2:{ intros Ez. apply (f_equal (@length byte)) in Ez.
        rewrite length_app, Hh, length_firstn in Ez. cbn [length] in Ez. lia. }
    rewrite <- Ek.
    destruct (Nat.le_gt_cases 16 (length y)) as [Hl|Hl].
    + assert (Hf : length (firstn 16 y) = 16%nat)
        by (rewrite length_firstn; lia).
      rewrite firstn_app, skipn_app, Hh, Hf.
      change (16 - 16)%nat with 0%nat. rewrite firstn_0, skipn_0, app_nil_r.
      rewrite firstn_all2, skipn_all2 by lia. rewrite app_nil_l.
      rewrite xor_bytes_cancel by lia.
      rewrite IHr by (rewrite length_skipn; lia).
      apply firstn_skipn.
    + assert (Hs : skipn 16 y = []) by (apply skipn_all2; lia).
      rewrite Hs, gctr_nil in Er. subst rest. rewrite app_nil_r.
      rewrite (firstn_all2 (n := 16) y) by lia.
      rewrite (firstn_all2 (n := 16) (xor_bytes y k))
        by (rewrite xor_bytes_length; lia).
      rewrite xor_bytes_cancel by lia.
      rewrite skipn_all2 by (rewrite xor_bytes_length; lia).
      rewrite gctr_nil. apply app_nil_r.
Qed.

Lemma bytes_eqb_refl (a : bytes) : Gcm.bytes_eqb a a = true.
Proof. unfold Gcm.bytes_eqb. destruct (list_eq_dec _ a a); congruence. Qed.

Lemma bytes_eqb_eq (a b : bytes) : Gcm.bytes_eqb a b = true -> a = b.
Proof. unfold Gcm.bytes_eqb. destruct (list_eq_dec _ a b); congruence. Qed.

Lemma tag_length (iv aad c : bytes) : length (Gcm.tag E iv aad c) = 16%nat.
Proof.
  unfold Gcm.tag. rewrite xor_bytes_length, E_length.
  unfold Gcm.block_bytes. now rewrite be_bytes_length.
Qed.

Lemma ae_length (iv aad p : bytes) :
  length (fst (Gcm.ae E iv aad p)) = length p
  /\ length (snd (Gcm.ae E iv aad p)) = 16%nat.
Proof.
  unfold Gcm.ae; cbn [fst snd]. split; [now apply gctr_length|apply tag_length].
Qed.

(** Authenticated decryption accepts what authenticated encryption made
    and gives the plaintext back. *)
Lemma ad_ae (iv aad p : bytes) :
  Gcm.ad E iv aad (fst (Gcm.ae E iv aad p)) (snd (Gcm.ae E iv aad p)) = Some p.
Proof.
  unfold Gcm.ae, Gcm.ad; cbn [fst snd].
  rewrite bytes_eqb_refl, gctr_length by auto.
  now rewrite gctr_involutive.
Qed.

End WithCipher.
End GcmFacts.

(** ** The decoder puts out U+FFFD for every input that is not UTF-8 *)

Module Utf8Sound.
Import Utf8.

(** Two sequences of bytes written with [byte_of_N] are equal when the
    numbers are. *)
Ltac bytes_eq :=
  repeat match goal with
  | |- _ :: _ = _ :: _ => f_equal
  | |- byte_of_N _ = byte_of_N _ => f_equal
  end; try nlia.

Lemma step_begins_no_sequence (b : N) :
  (0x80 <= b < 0xC2 \/ 0xF4 < b) -> step initial b = (initial, [replacement]).
Proof.
  intros H. unfold step, handler, initial; cbn [bytes_needed].
  Utf8Facts.cases; reflexivity.
Qed.

(** Where a continuation byte is expected, a byte outside the bounds is an
    error. *)
Lemma handler_out_of_bounds (cp seen needed lo up b : N) :
  needed <> 0 -> (b < lo \/ up < b) ->
  handler (State cp seen needed lo up) b = (initial, ErrorRestore).
Proof.
  intros Hn Hb. unfold handler;
    cbn [bytes_needed lower_boundary upper_boundary code_point bytes_seen].
  destruct (needed =? 0) eqn:E1; Utf8Facts.bools; try lia.
  all: destruct (negb ((lo <=? b) && (b <=? up))) eqn:E2; Utf8Facts.bools;
    try lia; reflexivity.
Qed.

Lemma step_out_of_bounds (cp seen needed lo up b : N) :
  needed <> 0 -> (b < lo \/ up < b) ->
  exists st out, step (State cp seen needed lo up) b = (st, replacement :: out).
Proof.
  intros Hn Hb. unfold step. rewrite handler_out_of_bounds by assumption.
  destruct (handler initial b) as [st' [|cp'| |]]; eauto.
Qed.

Lemma decode_from_end (cp seen needed lo up : N) :
  needed <> 0 -> decode_from (State cp seen needed lo up) [] = [replacement].
Proof.
  intros H. cbn [decode_from bytes_needed].
  destruct (needed =? 0) eqn:E; Utf8Facts.bools; [lia|reflexivity].
Qed.

(** One continuation byte more, when the output is free of U+FFFD. *)
Lemma continuation (cp seen needed lo up : N) (input : bytes) :
  needed <> 0 ->
  ~ In replacement (decode_from (State cp seen needed lo up) input) ->
  exists b rest,
    input = b :: rest /\ lo <= Byte.to_N b <= up
    /\ decode_from (State cp seen needed lo up) input =
       snd (step (State cp seen needed lo up) (Byte.to_N b))
       ++ decode_from (fst (step (State cp seen needed lo up) (Byte.to_N b))) rest.
Proof.
  intros Hn Hno. destruct input as [|b rest].
  - exfalso. apply Hno. rewrite decode_from_end by assumption. now left.
  - exists b, rest. split; [reflexivity|].
    rewrite Utf8Facts.decode_from_cons in *. split; [|reflexivity].
    destruct (N.lt_ge_cases (Byte.to_N b) lo) as [Hl|Hl];
      [|destruct (N.lt_ge_cases up (Byte.to_N b)) as [Hu|Hu]; [|lia]].
    all: exfalso; apply Hno.
    all: destruct (step_out_of_bounds cp seen needed lo up (Byte.to_N b))
        as (st & out & E); [assumption|lia|].
    all: rewrite E; now left.
Qed.

Lemma encode_scalars_cons (cp : N) (l : list N) :
  encode_scalars (cp :: l) = encode_scalar cp ++ encode_scalars l.
Proof. reflexivity. Qed.

(** An output free of U+FFFD encodes back to the input: the input was
    UTF-8 and the output is what it encodes. *)
Lemma decode_sound (n : nat) (input : bytes) :
  (length input <= n)%nat ->
  ~ In replacement (decode_from initial input) ->
  encode_scalars (decode_from initial input) = input.
Proof.
  revert input. induction n as [|n IH]; intros input Hlen Hno.
  - destruct input; [reflexivity|cbn [length] in Hlen; lia].
  - destruct input as [|b rest]; [reflexivity|].
    cbn [length] in Hlen.
    rewrite Utf8Facts.decode_from_cons in *.
    pose proof (to_N_lt_256 b) as Hb. pose proof (byte_of_N_to_N b) as Eb.
    remember (Byte.to_N b) as v eqn:Ev. clear Ev.
    destruct (N.le_gt_cases v 0x7F) as [H1|H1].
    { rewrite Utf8Facts.step_ascii in * by assumption. cbn [fst snd app] in *.
      rewrite encode_scalars_cons, IH; [|lia|intros Hin; apply Hno; now right].
      unfold encode_scalar. Utf8Facts.cases. cbn [app]. now rewrite Eb. }
    destruct (N.lt_ge_cases v 0xC2) as [H2|H2].
    { exfalso. apply Hno. rewrite step_begins_no_sequence by lia. now left. }
    destruct (N.lt_ge_cases 0xF4 v) as [H3|H3].
    { exfalso. apply Hno. rewrite step_begins_no_sequence by lia. now left. }
    destruct (N.le_gt_cases v 0xDF) as [H4|H4].
    { (* two bytes *)
      rewrite Utf8Facts.step_lead2 in * by lia. cbn [fst snd app] in *.
      pose proof (fun Hn => continuation _ _ _ _ _ rest Hn Hno) as Hc;
      destruct Hc as (b2 & rest2 & -> & Hr2 & E2); [lia|].
      pose proof (byte_of_N_to_N b2) as Eb2.
      remember (Byte.to_N b2) as v2 eqn:Ev2. clear Ev2.
      rewrite E2 in *. rewrite Utf8Facts.step_last in * by lia.
      cbn [fst snd app] in *. cbn [length] in Hlen.
      rewrite encode_scalars_cons, IH; [|lia|intros Hin; apply Hno; now right].
      unfold encode_scalar. Utf8Facts.cases. cbn [app].
      rewrite <- Eb, <- Eb2.
      bytes_eq. }
    destruct (N.le_gt_cases v 0xEF) as [H5|H5].
    { (* three bytes *)
      rewrite Utf8Facts.step_lead3 in * by lia. cbn [fst snd app] in *.
      pose proof (fun Hn => continuation _ _ _ _ _ rest Hn Hno) as Hc;
      destruct Hc as (b2 & rest2 & -> & Hr2 & E2); [lia|].
      pose proof (byte_of_N_to_N b2) as Eb2.
      remember (Byte.to_N b2) as v2 eqn:Ev2. clear Ev2.
      rewrite E2 in *. clear E2.
      assert (Hr2' : 0x80 <= v2 <= 0xBF)
        by (revert Hr2; Utf8Facts.cases; lia).
      rewrite Utf8Facts.step_more in * by lia. cbn [fst snd app] in *.
      pose proof (fun Hn => continuation _ _ _ _ _ rest2 Hn Hno) as Hc;
      destruct Hc as (b3 & rest3 & -> & Hr3 & E3); [lia|].
      pose proof (byte_of_N_to_N b3) as Eb3.
      remember (Byte.to_N b3) as v3 eqn:Ev3. clear Ev3.
      rewrite E3 in *. clear E3.
      rewrite Utf8Facts.step_last in * by lia.
      cbn [fst snd app] in *. cbn [length] in Hlen.
      rewrite encode_scalars_cons, IH; [|lia|intros Hin; apply Hno; now right].
      unfold encode_scalar.
      revert Hr2. Utf8Facts.cases; intros Hr2; try nlia.
      all: cbn [app]; rewrite <- Eb, <- Eb2, <- Eb3.
      all: bytes_eq. }
    { (* four bytes *)
      rewrite Utf8Facts.step_lead4 in * by lia. cbn [fst snd app] in *.
      pose proof (fun Hn => continuation _ _ _ _ _ rest Hn Hno) as Hc;
      destruct Hc as (b2 & rest2 & -> & Hr2 & E2); [lia|].
      pose proof (byte_of_N_to_N b2) as Eb2.
      remember (Byte.to_N b2) as v2 eqn:Ev2. clear Ev2.
      rewrite E2 in *. clear E2.
      assert (Hr2' : 0x80 <= v2 <= 0xBF)
        by (revert Hr2; Utf8Facts.cases; lia).
      rewrite Utf8Facts.step_more in * by lia. cbn [fst snd app] in *.
      pose proof (fun Hn => continuation _ _ _ _ _ rest2 Hn Hno) as Hc;
      destruct Hc as (b3 & rest3 & -> & Hr3 & E3); [lia|].
      pose proof (byte_of_N_to_N b3) as Eb3.
      remember (Byte.to_N b3) as v3 eqn:Ev3. clear Ev3.
      rewrite E3 in *. clear E3.
      rewrite Utf8Facts.step_more in * by lia. cbn [fst snd app] in *.
      pose proof (fun Hn => continuation _ _ _ _ _ rest3 Hn Hno) as Hc;
      destruct Hc as (b4 & rest4 & -> & Hr4 & E4); [lia|].
      pose proof (byte_of_N_to_N b4) as Eb4.
      remember (Byte.to_N b4) as v4 eqn:Ev4. clear Ev4.
      rewrite E4 in *. clear E4.
      rewrite Utf8Facts.step_last in * by lia.
      cbn [fst snd app] in *. cbn [length] in Hlen.
      rewrite encode_scalars_cons, IH; [|lia|intros Hin; apply Hno; now right].
      unfold encode_scalar.
      revert Hr2. Utf8Facts.cases; intros Hr2; try nlia.
      all: cbn [app]; rewrite <- Eb, <- Eb2, <- Eb3, <- Eb4.
      all: bytes_eq. }
Qed.

End Utf8Sound.

(** ** The Web Cryptography operations as the source uses them *)

Lemma importKey_password (keyData : bytes) :
  WebCrypto.importKey WebCrypto.raw keyData WebCrypto.PBKDF2 false
                      [WebCrypto.deriveKey_usage]
  = Ok (WebCrypto.Key WebCrypto.PBKDF2 0 false [WebCrypto.deriveKey_usage] keyData).
Proof. reflexivity. Qed.

Lemma import_raw_aes (secret : bytes) :
  length secret = 32%nat ->
  WebCrypto.import_raw WebCrypto.AES_GCM secret
    [WebCrypto.encrypt_usage; WebCrypto.decrypt_usage] false
  = Ok (aes_key secret).
Proof.
  intros H. unfold WebCrypto.import_raw. rewrite H. reflexivity.
Qed.

(** [deriveKey] always gives a key, and says which. *)
Lemma deriveKey_value (password : jsstring) (salt : bytes) :
  deriveKey password salt =
  Ok (aes_key (key_material password salt)).
Proof.
  unfold deriveKey, key_material.
  rewrite importKey_password. cbn [bind].
  unfold WebCrypto.deriveKey, WebCrypto.derive_bits.
  cbn [WebCrypto.algorithm WebCrypto.usages WebCrypto.iterations
       WebCrypto.hash WebCrypto.handle WebCrypto.salt].
  change (negb (WebCrypto.has_usage WebCrypto.deriveKey_usage
                  [WebCrypto.deriveKey_usage])) with false.
  change (negb ((256 =? 128) || (256 =? 192) || (256 =? 256))) with false.
  change (negb (256 mod 8 =? 0)) with false.
  change (100000 =? 0) with false.
  change (N.to_nat (256 / 8)) with 32%nat.
  cbv iota. cbn [bind].
  rewrite import_raw_aes by apply hmac_sha256_length.
  reflexivity.
Qed.

Section AesGcm.
Variables (material iv : bytes).

Local Abbreviation E := (Aes.encrypt_block material).

Lemma encrypt_value (data : bytes) :
  WebCrypto.encrypt iv (aes_key material) data =
  Ok (fst (Gcm.ae E iv [] data) ++ snd (Gcm.ae E iv [] data)).
Proof. reflexivity. Qed.

Lemma encrypt_length (data out : bytes) :
  WebCrypto.encrypt iv (aes_key material) data = Ok out ->
  length out = (length data + 16)%nat.
Proof.
  rewrite encrypt_value. intros H.
  assert (Ho : out = fst (Gcm.ae E iv [] data) ++ snd (Gcm.ae E iv [] data))
    by congruence.
  clear H. subst out.
  destruct (GcmFacts.ae_length E (encrypt_block_length material) iv [] data) as [Hc Ht].
  rewrite length_app. lia.
Qed.

(** Decryption of the ciphertext and tag of [data] gives [data]. *)
Lemma decrypt_encrypt (data out : bytes) :
  WebCrypto.encrypt iv (aes_key material) data = Ok out ->
  WebCrypto.decrypt iv (aes_key material) out = Ok data.
Proof.
  rewrite encrypt_value. intros H.
  assert (Ho : out = fst (Gcm.ae E iv [] data) ++ snd (Gcm.ae E iv [] data))
    by congruence.
  clear H. subst out.
  destruct (GcmFacts.ae_length E (encrypt_block_length material) iv [] data) as [Hc Ht].
  pose proof (GcmFacts.ad_ae E (encrypt_block_length material) iv [] data) as Hd.
  remember (fst (Gcm.ae E iv [] data)) as c eqn:Ec.
  remember (snd (Gcm.ae E iv [] data)) as t eqn:Et.
  unfold WebCrypto.decrypt, aes_key.
  cbn [WebCrypto.algorithm WebCrypto.usages WebCrypto.handle].
  change (negb (WebCrypto.has_usage WebCrypto.decrypt_usage
                  [WebCrypto.encrypt_usage; WebCrypto.decrypt_usage])) with false.
  cbv iota.
  assert (Hlen : length (c ++ t) = (length c + 16)%nat)
    by (rewrite length_app; lia).
  rewrite Hlen.
  replace (length c + 16 <? 16)%nat with false
    by (symmetry; apply Nat.ltb_ge; lia).
  replace (length c + 16 - 16)%nat with (length c) by lia.
  rewrite firstn_app, firstn_all, Nat.sub_diag, firstn_0, app_nil_r.
  rewrite skipn_app, skipn_all, Nat.sub_diag, skipn_0, app_nil_l.
  now rewrite Hd.
Qed.

(** Less than a tag is refused. *)
Lemma decrypt_short (data : bytes) :
  (length data < 16)%nat ->
  WebCrypto.decrypt iv (aes_key material) data = Err WebCrypto.OperationError.
Proof.
  intros H. unfold WebCrypto.decrypt, aes_key.
  cbn [WebCrypto.algorithm WebCrypto.usages WebCrypto.handle].
  change (negb (WebCrypto.has_usage WebCrypto.decrypt_usage
                  [WebCrypto.encrypt_usage; WebCrypto.decrypt_usage])) with false.
  cbv iota. apply Nat.ltb_lt in H. now rewrite H.
Qed.

End AesGcm.

(** ** Putting the envelope together *)

Lemma typed_array_set_zeros (pre src : bytes) (k : nat) :
  typed_array_set (pre ++ repeat x00 (length src + k)) src (length pre)
  = Ok (pre ++ src ++ repeat x00 k).
Proof.
  unfold typed_array_set. rewrite length_app, repeat_length.
  replace (length pre + (length src + k) <? length pre + length src)%nat
    with false by (symmetry; apply Nat.ltb_ge; lia).
  rewrite firstn_app, firstn_all, Nat.sub_diag, firstn_0, app_nil_r.
  rewrite skipn_app.
  replace (skipn (length pre + length src) pre) with (@nil byte)
    by (symmetry; apply skipn_all2; lia).
  replace (length pre + length src - length pre)%nat with (length src) by lia.
  rewrite app_nil_l.
  replace (skipn (length src) (repeat x00 (length src + k))) with (repeat x00 k).
  - reflexivity.
  - rewrite repeat_app, skipn_app, repeat_length, Nat.sub_diag, skipn_0.
    rewrite skipn_all2 by (rewrite repeat_length; lia). reflexivity.
Qed.

Lemma combine_value (salt iv encryptedData : bytes) :
  combine salt iv encryptedData = Ok (salt ++ iv ++ encryptedData).
Proof.
  unfold combine, new_Uint8Array.
  pose proof (typed_array_set_zeros [] salt (length iv + length encryptedData)) as H1.
  cbn [app length] in H1.
  rewrite Nat.add_assoc in H1. rewrite H1. cbn [bind].
  pose proof (typed_array_set_zeros salt iv (length encryptedData)) as H2.
  rewrite H2. cbn [bind].
  pose proof (typed_array_set_zeros (salt ++ iv) encryptedData 0) as H3.
  rewrite Nat.add_0_r, length_app, <- app_assoc in H3. rewrite H3.
  cbn [repeat]. now rewrite app_nil_r, <- app_assoc.
Qed.

(** ** What the four operations compute *)

Lemma getRandomValues_16 (r : rng) :
  getRandomValues 16 r = (Ok (drawn_salt r), Rng (tape r) (position r + 16)).
Proof. reflexivity. Qed.

Lemma getRandomValues_12 (r : rng) :
  getRandomValues 12 (Rng (tape r) (position r + 16)) =
  (Ok (drawn_iv r), after_draws r).
Proof. reflexivity. Qed.

Lemma drawn_salt_length (r : rng) : length (drawn_salt r) = 16%nat.
Proof. unfold drawn_salt. now rewrite length_map, length_seq. Qed.

Lemma drawn_iv_length (r : rng) : length (drawn_iv r) = 12%nat.
Proof. unfold drawn_iv. now rewrite length_map, length_seq. Qed.

Lemma key_material_length (password : jsstring) (salt : bytes) :
  length (key_material password salt) = 32%nat.
Proof. unfold key_material. apply hmac_sha256_length. Qed.

Lemma ciphertext_length (material iv data : bytes) :
  length (ciphertext material iv data) = length data.
Proof.
  apply (GcmFacts.ae_length _ (encrypt_block_length material) iv [] data).
Qed.

Lemma auth_tag_length (material iv data : bytes) :
  length (auth_tag material iv data) = 16%nat.
Proof.
  apply (GcmFacts.ae_length _ (encrypt_block_length material) iv [] data).
Qed.

Create HintDb envelope.
#[global] Hint Resolve drawn_salt_length drawn_iv_length key_material_length
  ciphertext_length auth_tag_length : envelope.

(** [encryptImage] succeeds with the envelope for the salt and IV it drew. *)
Lemma encryptImage_value (imageBytes : bytes) (password : jsstring) (r : rng) :
  encryptImage imageBytes password r =
  (Ok (envelope (drawn_salt r) (drawn_iv r) imageBytes password), after_draws r).
Proof.
  unfold encryptImage, io_bind.
  rewrite getRandomValues_16, getRandomValues_12.
  unfold io_lift, toConcreteUint8Array. f_equal.
  rewrite deriveKey_value. cbn [bind].
  rewrite encrypt_value. cbn [bind].
  rewrite combine_value. reflexivity.
Qed.

(** [encryptContent] succeeds with the printable form of the envelope of
    the UTF-8 bytes of the content. *)
Lemma encryptContent_value (content password : jsstring) (r : rng) :
  encryptContent content password r =
  (Ok (base64_text (envelope (drawn_salt r) (drawn_iv r)
                             (TextEncoder_encode content) password)),
   after_draws r).
Proof.
  unfold encryptContent, io_bind.
  rewrite getRandomValues_16, getRandomValues_12.
  unfold io_lift. f_equal.
  rewrite deriveKey_value. cbn [bind].
  rewrite encrypt_value. cbn [bind].
  rewrite combine_value. cbn [bind].
  rewrite btoa_fromCharCode. reflexivity.
Qed.

(** The three parts of an envelope as the decrypt operations cut them. *)
Lemma slices_of_envelope (salt iv sealed : bytes) :
  length salt = 16%nat -> length iv = 12%nat ->
  slice 0 16 (salt ++ iv ++ sealed) = salt
  /\ slice 16 28 (salt ++ iv ++ sealed) = iv
  /\ slice_from 28 (salt ++ iv ++ sealed) = sealed.
Proof.
  intros Hs Hi. unfold slice, slice_from.
  change (16 - 0)%nat with 16%nat. change (28 - 16)%nat with 12%nat.
  rewrite skipn_0. repeat split.
  - rewrite firstn_app, Hs, Nat.sub_diag, firstn_0, app_nil_r.
    apply firstn_all2. lia.
  - rewrite skipn_app, Hs, Nat.sub_diag, skipn_0.
    rewrite skipn_all2 by lia. rewrite app_nil_l.
    rewrite firstn_app, Hi, Nat.sub_diag, firstn_0, app_nil_r.
    apply firstn_all2. lia.
  - rewrite skipn_app, Hs. rewrite skipn_all2 by lia. rewrite app_nil_l.
    change (28 - 16)%nat with 12%nat.
    rewrite skipn_app, Hi, Nat.sub_diag, skipn_0.
    rewrite skipn_all2 by lia. reflexivity.
Qed.

(** What [decryptImage] does with an envelope-shaped input. *)
Lemma decryptImage_parts (salt iv sealed : bytes) (password : jsstring) :
  length salt = 16%nat -> length iv = 12%nat ->
  decryptImage (salt ++ iv ++ sealed) password =
  try_catch (WebCrypto.decrypt iv (aes_key (key_material password salt)) sealed)
            image_decryption_failed.
Proof.
  intros Hs Hi. unfold decryptImage, toConcreteUint8Array.
  destruct (slices_of_envelope salt iv sealed Hs Hi) as (-> & -> & ->).
  rewrite deriveKey_value. cbn [bind].
  destruct (WebCrypto.decrypt _ _ _); reflexivity.
Qed.

(** What [decryptContent] does with the printable form of an
    envelope-shaped input. *)
Lemma decryptContent_parts (salt iv sealed : bytes) (password : jsstring) :
  length salt = 16%nat -> length iv = 12%nat ->
  decryptContent (base64_text (salt ++ iv ++ sealed)) password =
  try_catch
    (bind (WebCrypto.decrypt iv (aes_key (key_material password salt)) sealed)
          (fun d => Ok (TextDecoder_decode d)))
    decryption_failed.
Proof.
  intros Hs Hi. unfold decryptContent.
  rewrite atob_base64_text. cbn [bind].
  rewrite from_charCodes_fromCharCode.
  destruct (slices_of_envelope salt iv sealed Hs Hi) as (-> & -> & ->).
  rewrite deriveKey_value. cbn [bind]. reflexivity.
Qed.

(** Decryption with the key material the envelope was made with. *)
Lemma decrypt_with_same_material (salt iv data : bytes) (w1 w2 : jsstring) :
  key_material w2 salt = key_material w1 salt ->
  WebCrypto.decrypt iv (aes_key (key_material w2 salt))
    (ciphertext (key_material w1 salt) iv data
     ++ auth_tag (key_material w1 salt) iv data) = Ok data.
Proof.
  intros ->. apply decrypt_encrypt. apply encrypt_value.
Qed.

Lemma decryptImage_envelope (salt iv data : bytes) (w1 w2 : jsstring) :
  length salt = 16%nat -> length iv = 12%nat ->
  key_material w2 salt = key_material w1 salt ->
  decryptImage (envelope salt iv data w1) w2 = Ok data.
Proof.
  intros Hs Hi Hk. unfold envelope.
  rewrite decryptImage_parts by assumption.
  now rewrite decrypt_with_same_material.
Qed.

Lemma decryptContent_envelope (salt iv data : bytes) (w1 w2 : jsstring) :
  length salt = 16%nat -> length iv = 12%nat ->
  key_material w2 salt = key_material w1 salt ->
  decryptContent (base64_text (envelope salt iv data w1)) w2 =
  Ok (TextDecoder_decode data).
Proof.
  intros Hs Hi Hk. unfold envelope.
  rewrite decryptContent_parts by assumption.
  now rewrite decrypt_with_same_material.
Qed.

Lemma bind_Ok {A B : Type} (v : A) (k : A -> result B) : bind (Ok v) k = k v.
Proof. reflexivity. Qed.

Lemma fst_of_pair {A B : Type} (a : A) (b : B) : fst (a, b) = a.
Proof. reflexivity. Qed.

Lemma image_round_trip_unfold (data : bytes) (w1 w2 : jsstring) (r : rng) :
  image_round_trip data w1 w2 r =
  decryptImage (envelope (drawn_salt r) (drawn_iv r) data w1) w2.
Proof.
  unfold image_round_trip.
  rewrite encryptImage_value, fst_of_pair, bind_Ok. reflexivity.
Qed.

Lemma text_round_trip_unfold (content w1 w2 : jsstring) (r : rng) :
  text_round_trip content w1 w2 r =
  decryptContent
    (base64_text (envelope (drawn_salt r) (drawn_iv r)
                           (TextEncoder_encode content) w1)) w2.
Proof.
  unfold text_round_trip.
  rewrite encryptContent_value, fst_of_pair, bind_Ok. reflexivity.
Qed.

Lemma image_round_trip_same_material
      (data : bytes) (w1 w2 : jsstring) (r : rng) :
  key_material w2 (drawn_salt r) = key_material w1 (drawn_salt r) ->
  image_round_trip data w1 w2 r = Ok data.
Proof.
  intros Hk. rewrite image_round_trip_unfold.
  apply decryptImage_envelope;
    [auto with envelope|auto with envelope|assumption].
Qed.

Lemma text_round_trip_same_material
      (content w1 w2 : jsstring) (r : rng) :
  key_material w2 (drawn_salt r) = key_material w1 (drawn_salt r) ->
  text_round_trip content w1 w2 r =
  Ok (TextDecoder_decode (TextEncoder_encode content)).
Proof.
  intros Hk. rewrite text_round_trip_unfold.
  apply decryptContent_envelope;
    [auto with envelope|auto with envelope|assumption].
Qed.

(** ** Round trip *)





(** ** The layout of the envelope *)



(** ** Failures of decryption *)

Lemma try_catch_cases {A} (body : result A) (handler : exn) :
  try_catch body handler = Err handler \/ exists v, try_catch body handler = Ok v.
Proof. destruct body as [v|e]; [right; exists v; reflexivity|left; reflexivity]. Qed.

Lemma decryptContent_cases (encryptedContent password : jsstring) :
  decryptContent encryptedContent password = Err decryption_failed
  \/ exists s, decryptContent encryptedContent password = Ok s.
Proof. unfold decryptContent. apply try_catch_cases. Qed.

Lemma decryptImage_cases (encryptedBytes : bytes) (password : jsstring) :
  decryptImage encryptedBytes password = Err image_decryption_failed
  \/ exists b, decryptImage encryptedBytes password = Ok b.
Proof. unfold decryptImage. apply try_catch_cases. Qed.

(** C4: whatever the input and the password, a decrypt operation either
    returns a result or fails with one fixed plain [Error]: the same value
    for every cause within [decryptContent], the same value for every cause
    within [decryptImage], the two of one and the same generic kind and
    neither a platform exception; a text that is not base64 is one of the
    causes. *)
Theorem decryption_failure_uniform
        (encryptedContent : jsstring) (encryptedBytes : bytes)
        (password : jsstring) :
  (decryptContent encryptedContent password = Err decryption_failed
   \/ exists s, decryptContent encryptedContent password = Ok s)
  /\ (decryptImage encryptedBytes password = Err image_decryption_failed
      \/ exists b, decryptImage encryptedBytes password = Ok b)
  /\ kind_of decryption_failed = GenericError
  /\ kind_of image_decryption_failed = kind_of decryption_failed
  /\ (forall e, atob encryptedContent = Err e ->
                decryptContent encryptedContent password = Err decryption_failed).
Proof.
  split; [apply decryptContent_cases|].
  split; [apply decryptImage_cases|].
  split; [reflexivity|]. split; [reflexivity|].
  intros e H. unfold decryptContent. rewrite H. reflexivity.
Qed.

(** Whatever the input, a failure has the generic kind. *)
Lemma decryption_failure_kind
      (encryptedContent : jsstring) (encryptedBytes : bytes)
      (password : jsstring) (e : exn) :
  decryptContent encryptedContent password = Err e
  \/ decryptImage encryptedBytes password = Err e ->
  kind_of e = GenericError.
Proof.
  destruct (decryptContent_cases encryptedContent password) as [Hc|[s Hc]];
    destruct (decryptImage_cases encryptedBytes password) as [Hi|[b Hi]];
    rewrite Hc, Hi; intros [H|H]; inversion H; reflexivity.
Qed.

(** A text that is not base64 is refused with the same failure. *)
Lemma decryptContent_malformed (encryptedContent password : jsstring) :
  atob encryptedContent = Err InvalidCharacterError ->
  decryptContent encryptedContent password = Err decryption_failed.
Proof. intros H. unfold decryptContent. now rewrite H. Qed.

Lemma decryptImage_short (encryptedBytes : bytes) (password : jsstring) :
  (length encryptedBytes < 44)%nat ->
  decryptImage encryptedBytes password = Err image_decryption_failed.
Proof.
  intros H. unfold decryptImage, toConcreteUint8Array.
  rewrite deriveKey_value. cbn [bind].
  rewrite decrypt_short; [reflexivity|].
  unfold slice_from. rewrite length_skipn. lia.
Qed.

Lemma decryptContent_short (encryptedContent decoded password : jsstring) :
  atob encryptedContent = Ok decoded -> (length decoded < 44)%nat ->
  decryptContent encryptedContent password = Err decryption_failed.
Proof.
  intros Ha H. unfold decryptContent. rewrite Ha. cbn [bind].
  rewrite deriveKey_value. cbn [bind].
  rewrite decrypt_short; [reflexivity|].
  unfold slice_from, Uint8Array_from_charCodes.
  rewrite length_skipn, length_map. lia.
Qed.

(** The three slices are the whole input and nothing else, whatever its
    length. *)
Lemma slices_partition (e : bytes) :
  slice 0 16 e ++ slice 16 28 e ++ slice_from 28 e = e.
Proof.
  unfold slice, slice_from.
  change (16 - 0)%nat with 16%nat. change (28 - 16)%nat with 12%nat.
  rewrite skipn_0.
  replace (skipn 28 e) with (skipn 12 (skipn 16 e))
    by (rewrite skipn_skipn; reflexivity).
  now rewrite !firstn_skipn.
Qed.

(** C5: an envelope of fewer than 28 bytes, given as bytes to
    [decryptImage] or as the base64 text of such bytes to [decryptContent],
    makes the operation fail with the decryption failure, whatever the
    password, and it returns no output; the slices it takes as salt and IV
    are bytes of the input and there is no encrypted data. *)
Theorem truncated_envelope_fails
        (encryptedBytes : bytes) (encryptedContent decoded password : jsstring) :
  ((length encryptedBytes < 28)%nat ->
   decryptImage encryptedBytes password = Err image_decryption_failed
   /\ slice 0 16 encryptedBytes ++ slice 16 28 encryptedBytes = encryptedBytes
   /\ slice_from 28 encryptedBytes = [])
  /\ (atob encryptedContent = Ok decoded ->
      (length (Uint8Array_from_charCodes decoded) < 28)%nat ->
      decryptContent encryptedContent password = Err decryption_failed).
Proof.
  split.
  - intros H.
    assert (Hs : slice_from 28 encryptedBytes = [])
      by (apply skipn_all2; lia).
    split; [apply decryptImage_short; lia|]. split; [|exact Hs].
    pose proof (slices_partition encryptedBytes) as Hp.
    rewrite Hs, app_nil_r in Hp. exact Hp.
  - intros Ha H. apply (decryptContent_short _ decoded); [assumption|].
    unfold Uint8Array_from_charCodes in H. rewrite length_map in H. lia.
Qed.

Lemma truncated_envelope_fails_witness :
  decryptImage (repeat x00 27) (js "pw") = Err image_decryption_failed
  /\ decryptContent (js "AAAA") (js "pw") = Err decryption_failed.
Proof.
  split.
  - apply (truncated_envelope_fails (repeat x00 27) [] [] (js "pw")).
    cbn [repeat length]. lia.
  - apply (truncated_envelope_fails [] (js "AAAA") (map cu_of_N [0; 0; 0]) (js "pw")).
    + reflexivity.
    + cbn [Uint8Array_from_charCodes map length]. lia.
Defined.

(** ** Key derivation *)

(** C7: for every password and salt [deriveKey] gives a key whose material
    is PBKDF2 with HMAC-SHA-256 as pseudorandom function, 100000 iterations
    and 32 bytes (256 bits) of output, computed from the UTF-8 bytes of the
    password and the salt; the key is an AES-GCM key of 256 bits, is not
    extractable (exporting it is refused) and permits encrypt and decrypt
    and no other use; the same password and salt give the same key. *)
Theorem deriveKey_parameters (password : jsstring) (salt : bytes) :
  exists key,
    deriveKey password salt = Ok key
    /\ WebCrypto.handle key =
       Pbkdf2.derive Hmac.hmac 32 (TextEncoder_encode password) salt 100000 32
    /\ length (WebCrypto.handle key) = 32%nat
    /\ WebCrypto.algorithm key = WebCrypto.AES_GCM
    /\ WebCrypto.key_length key = 256
    /\ WebCrypto.extractable key = false
    /\ WebCrypto.exportKey key = Err WebCrypto.InvalidAccessError
    /\ (forall u, WebCrypto.has_usage u (WebCrypto.usages key) = true <->
                  u = WebCrypto.encrypt_usage \/ u = WebCrypto.decrypt_usage)
    /\ (forall password' salt',
           password' = password -> salt' = salt ->
           deriveKey password' salt' = Ok key).
Proof.
  exists (aes_key (key_material password salt)).
  split; [apply deriveKey_value|].
  split; [reflexivity|].
  split; [apply key_material_length|].
  do 4 (split; [reflexivity|]).
  split.
  - intros u; split.
    + destruct u; cbn; intros H; try discriminate; auto.
    + intros [->| ->]; reflexivity.
  - intros ? ? -> ->. apply deriveKey_value.
Qed.

(** The pseudorandom function sees the password only through its block
    key, so a password and the same password followed by U+0000 derive the
    same key when the longer one fits a block. *)
Lemma block_key_zero (key : bytes) :
  (length key < 64)%nat -> Hmac.block_key (key ++ [x00]) = Hmac.block_key key.
Proof.
  intros H. unfold Hmac.block_key, Hmac.block_size.
  rewrite length_app. cbn [length].
  replace (64 <? length key + 1)%nat with false
    by (symmetry; apply Nat.ltb_ge; lia).
  replace (64 <? length key)%nat with false
    by (symmetry; apply Nat.ltb_ge; lia).
  rewrite length_app. cbn [length]. rewrite <- app_assoc. f_equal.
  replace (64 - length key)%nat with (S (64 - (length key + 1)))%nat by lia.
  reflexivity.
Qed.

Lemma hmac_zero (key message : bytes) :
  (length key < 64)%nat -> Hmac.hmac (key ++ [x00]) message = Hmac.hmac key message.
Proof. intros H. unfold Hmac.hmac. now rewrite block_key_zero. Qed.

Lemma iter_ext {A : Type} (f g : A -> A) (n : N) (x : A) :
  (forall a, f a = g a) -> N.iter n f x = N.iter n g x.
Proof.
  intros H. induction n as [|n IH] using N.peano_ind; [reflexivity|].
  now rewrite !N.iter_succ, IH, H.
Qed.

Lemma derive_ext (prf : bytes -> bytes -> bytes) (hlen : nat)
      (p1 p2 salt : bytes) (c : N) (dklen : nat) :
  (forall m, prf p1 m = prf p2 m) ->
  Pbkdf2.derive prf hlen p1 salt c dklen = Pbkdf2.derive prf hlen p2 salt c dklen.
Proof.
  intros H. unfold Pbkdf2.derive. f_equal. apply flat_map_ext. intros i.
  unfold Pbkdf2.F. rewrite H. f_equal. apply iter_ext. intros [u t].
  cbn [fst snd]. now rewrite H.
Qed.

Lemma key_material_zero (password : jsstring) (salt : bytes) :
  (length (TextEncoder_encode password) < 64)%nat ->
  TextEncoder_encode (password ++ [cu_of_N 0]) = TextEncoder_encode password ++ [x00] ->
  key_material (password ++ [cu_of_N 0]) salt = key_material password salt.
Proof.
  intros Hl He. unfold key_material, Pbkdf2.hmac_sha256. rewrite He.
  apply derive_ext. intros m. now apply hmac_zero.
Qed.


(** ** Decrypting with another password *)



Lemma decrypt_sealed (material iv c t : bytes) :
  length t = 16%nat ->
  WebCrypto.decrypt iv (aes_key material) (c ++ t) =
  if tag_matches material iv c t then Ok (counter_mode material iv c)
  else Err WebCrypto.OperationError.
Proof.
  intros Ht. unfold WebCrypto.decrypt, aes_key.
  cbn [WebCrypto.algorithm WebCrypto.usages WebCrypto.handle].
  change (negb (WebCrypto.has_usage WebCrypto.decrypt_usage
                  [WebCrypto.encrypt_usage; WebCrypto.decrypt_usage])) with false.
  cbv iota.
  assert (Hlen : length (c ++ t) = (length c + 16)%nat)
    by (rewrite length_app; lia).
  rewrite Hlen.
  replace (length c + 16 <? 16)%nat with false
    by (symmetry; apply Nat.ltb_ge; lia).
  replace (length c + 16 - 16)%nat with (length c) by lia.
  rewrite firstn_app, firstn_all, Nat.sub_diag, firstn_0, app_nil_r.
  rewrite skipn_app, skipn_all, Nat.sub_diag, skipn_0, app_nil_l.
  unfold Gcm.ad, tag_matches, counter_mode.
  destruct (Gcm.bytes_eqb t _); reflexivity.
Qed.



(** ** Encryption never fails *)


(** ** Text decoding of arbitrary plaintext *)

Lemma decode_begins_no_sequence (b : byte) (rest : bytes) :
  begins_no_sequence b = true ->
  Utf8.decode_from Utf8.initial (b :: rest) =
  Utf8.replacement :: Utf8.decode_from Utf8.initial rest.
Proof.
  unfold begins_no_sequence. intros H.
  rewrite Utf8Facts.decode_from_cons.
  pose proof (to_N_lt_256 b) as Hb.
  generalize dependent (Byte.to_N b). intros n H Hn.
  assert (E : Utf8.step Utf8.initial n = (Utf8.initial, [Utf8.replacement])).
  { unfold Utf8.step, Utf8.handler, Utf8.initial; cbn [Utf8.bytes_needed].
    Utf8Facts.bools; Utf8Facts.cases; reflexivity. }
  rewrite E. reflexivity.
Qed.

(** C10: the envelope of any byte sequence, given in base64 form to
    [decryptContent] with the right password, does not make it fail: it
    returns what the non-fatal UTF-8 decoder makes of the bytes. There a
    byte that begins no UTF-8 sequence has become U+FFFD, and the code
    points are free of U+FFFD only when the bytes were the UTF-8 encoding
    of exactly those code points, so that nothing invalid passes unmarked;
    the first bytes of a PNG file come back as U+FFFD followed by "PN". *)
Theorem invalid_utf8_is_replaced
        (data : bytes) (password : jsstring) (r : rng) (b : byte) (rest : bytes) :
  image_as_text data password r = Ok (TextDecoder_decode data)
  /\ (begins_no_sequence b = true ->
      Utf8.decode_from Utf8.initial (b :: rest) =
      Utf8.replacement :: Utf8.decode_from Utf8.initial rest)
  /\ (~ In Utf8.replacement (Utf8.decode_from Utf8.initial data) ->
      Utf8.encode_scalars (Utf8.decode_from Utf8.initial data) = data)
  /\ image_as_text sample_image password r = Ok (cu_of_N 0xFFFD :: js "PN").
Proof.
  assert (H : forall d, image_as_text d password r = Ok (TextDecoder_decode d)).
  { intros d. unfold image_as_text.
    rewrite encryptImage_value, fst_of_pair, bind_Ok.
    apply decryptContent_envelope;
      [auto with envelope|auto with envelope|reflexivity]. }
  split; [apply H|]. split; [apply decode_begins_no_sequence|].
  split; [apply (Utf8Sound.decode_sound (length data)); lia|].
  rewrite H. reflexivity.
Qed.

Lemma invalid_utf8_is_replaced_witness :
  Utf8.decode_from Utf8.initial [x89; x50; x4e] =
  Utf8.replacement :: Utf8.decode_from Utf8.initial [x50; x4e]
  /\ Utf8.encode_scalars (Utf8.decode_from Utf8.initial [x50; x4e]) = [x50; x4e].
Proof.
  destruct (invalid_utf8_is_replaced [x50; x4e] [] sample_rng x89 [x50; x4e])
    as (_ & H1 & H2 & _).
  split.
  - apply H1. reflexivity.
  - apply H2. cbn. intros [H|[H|[]]]; discriminate H.
Defined.

(** ** Tampering with the tag *)

Lemma flip_bit_length (i : nat) (j : N) (l : bytes) :
  length (flip_bit i j l) = length l.
Proof.
  revert i. induction l as [|b l IH]; intros [|i]; cbn [flip_bit length]; auto.
Qed.

Lemma flip_bit_changes (i : nat) (j : N) (l : bytes) :
  (i < length l)%nat -> flip_bit i j l <> l.
Proof.
  revert i. induction l as [|b l IH]; intros [|i] Hi; cbn [length] in Hi;
    try lia; cbn [flip_bit].
  - intros H. injection H as H. apply (f_equal Byte.to_N) in H.
    assert (Hm : N.shiftl 1 (j mod 8) < 256).
    { rewrite N.shiftl_1_l. apply (N.pow_lt_mono_r 2 (j mod 8) 8); nlia. }
    rewrite to_N_byte_of_N_small in H
      by (apply lxor_lt_256; [apply to_N_lt_256|exact Hm]).
    apply (f_equal (N.lxor (Byte.to_N b))) in H.
    rewrite <- N.lxor_assoc, N.lxor_nilpotent, N.lxor_0_l in H.
    discriminate H.
  - intros H. injection H as H. apply (IH i); [lia|assumption].
Qed.

Lemma flip_bit_app_r (i : nat) (j : N) (a b : bytes) :
  flip_bit (length a + i) j (a ++ b) = a ++ flip_bit i j b.
Proof.
  induction a as [|x a IH]; [reflexivity|].
  cbn [length app Nat.add flip_bit]. now rewrite IH.
Qed.

Lemma tag_matches_own (material iv data : bytes) (t : bytes) :
  tag_matches material iv (ciphertext material iv data) t = true ->
  t = auth_tag material iv data.
Proof. unfold tag_matches. intros H. now apply GcmFacts.bytes_eqb_eq in H. Qed.

(** Flipping any bit of the tag of an envelope makes both decrypt
    operations fail with their decryption failure. *)
Lemma tag_flip_detected (salt iv data : bytes) (password : jsstring)
      (i : nat) (j : N) :
  length salt = 16%nat -> length iv = 12%nat -> (i < 16)%nat ->
  let e := flip_bit (28 + length data + i) j (envelope salt iv data password) in
  decryptImage e password = Err image_decryption_failed
  /\ decryptContent (base64_text e) password = Err decryption_failed.
Proof.
  intros Hs Hi Hlt e. subst e. unfold envelope.
  set (k := key_material password salt).
  set (c := ciphertext k iv data). set (t := auth_tag k iv data).
  assert (Hc : length c = length data) by apply ciphertext_length.
  assert (Ht : length t = 16%nat) by auto with envelope.
  replace (28 + length data + i)%nat
    with (length salt + (length iv + (length c + i)))%nat by lia.
  rewrite !flip_bit_app_r.
  assert (Hm : tag_matches k iv c (flip_bit i j t) = false).
  { destruct (tag_matches k iv c (flip_bit i j t)) eqn:E; [|reflexivity].
    apply tag_matches_own in E. fold t in E.
    exfalso. apply (flip_bit_changes i j t); [lia|exact E]. }
  split.
  - rewrite decryptImage_parts by assumption.
    rewrite decrypt_sealed by (rewrite flip_bit_length; exact Ht).
    fold k. now rewrite Hm.
  - rewrite decryptContent_parts by assumption.
    rewrite decrypt_sealed by (rewrite flip_bit_length; exact Ht).
    fold k. now rewrite Hm.
Qed.

(** What [decryptImage] returns has passed the tag check, and is what
    counter mode makes of the ciphertext: nothing else is ever returned. *)
Lemma decryptImage_authenticated
      (salt iv c t : bytes) (password : jsstring) (p : bytes) :
  length salt = 16%nat -> length iv = 12%nat -> length t = 16%nat ->
  decryptImage (salt ++ iv ++ c ++ t) password = Ok p ->
  tag_matches (key_material password salt) iv c t = true
  /\ p = counter_mode (key_material password salt) iv c.
Proof.
  intros Hs Hi Ht. rewrite decryptImage_parts by assumption.
  rewrite decrypt_sealed by assumption.
  destruct (tag_matches _ iv c t); cbn [try_catch]; intros H;
    [split; congruence|discriminate].
Qed.

(** ** Salt and IV of successive encryptions *)

Lemma app_same_length {A : Type} (a b c d : list A) :
  length a = length c -> a ++ b = c ++ d -> a = c /\ b = d.
Proof.
  revert c. induction a as [|x a IH]; intros [|y c] Hl H;
    cbn [length] in Hl; try lia.
  - auto.
  - cbn [app] in H. injection H as -> H.
    destruct (IH c) as [-> ->]; auto.
Qed.

(** Envelopes made from different salts or IVs are different. *)
Lemma envelope_injective (salt1 iv1 salt2 iv2 data : bytes) (w : jsstring) :
  length salt1 = 16%nat -> length salt2 = 16%nat ->
  length iv1 = 12%nat -> length iv2 = 12%nat ->
  envelope salt1 iv1 data w = envelope salt2 iv2 data w ->
  salt1 = salt2 /\ iv1 = iv2.
Proof.
  intros Hs1 Hs2 Hi1 Hi2 H. unfold envelope in H.
  apply app_same_length in H; [|lia]. destruct H as [-> H].
  apply app_same_length in H; [|lia]. destruct H as [-> _]. auto.
Qed.

(** An encryption reads the next 28 cells of the tape and no others; the
    encryption after it reads the 28 cells that follow. *)
Lemma successive_encryptions (data : bytes) (w : jsstring) (r : rng) :
  snd (encryptImage data w r) = after_draws r
  /\ snd (encryptContent (String_fromCharCode data) w r) = after_draws r
  /\ drawn_salt r = map (tape r) (seq (position r) 16)
  /\ drawn_iv r = map (tape r) (seq (position r + 16) 12)
  /\ drawn_salt (after_draws r) = map (tape r) (seq (position r + 28) 16)
  /\ drawn_iv (after_draws r) = map (tape r) (seq (position r + 44) 12).
Proof.
  rewrite encryptImage_value, encryptContent_value.
  unfold drawn_salt, drawn_iv, after_draws; cbn [tape position snd].
  replace (position r + 16 + 12)%nat with (position r + 28)%nat by lia.
  replace (position r + 28 + 16)%nat with (position r + 44)%nat by lia.
  repeat split.
Qed.

(** Two encryptions give the same envelope only when they drew the same
    salt and the same IV. *)
Lemma equal_envelopes_equal_draws (data : bytes) (w : jsstring) (r r' : rng) :
  fst (encryptImage data w r) = fst (encryptImage data w r') ->
  drawn_salt r = drawn_salt r' /\ drawn_iv r = drawn_iv r'.
Proof.
  rewrite !encryptImage_value, !fst_of_pair. intros H.
  assert (He : envelope (drawn_salt r) (drawn_iv r) data w
               = envelope (drawn_salt r') (drawn_iv r') data w) by congruence.
  apply envelope_injective in He;
    auto using drawn_salt_length, drawn_iv_length.
Qed.

(** ** Tampering with the ciphertext *)

(** Under the zero key of the test cases a flipped ciphertext bit is
    rejected. *)
Example gcm_rejects_flipped_ciphertext :
  let E := Aes.encrypt_block (repeat x00 32) in
  let iv := repeat x00 12 in
  let '(c, t) := Gcm.ae E iv [] (repeat x00 16) in
  Gcm.ad E iv [] c t = Some (repeat x00 16)
  /\ Gcm.ad E iv [] (flip_bit 0 0 c) t = None
  /\ Gcm.ad E iv [] (flip_bit 15 7 c) t = None.
Proof. vm_compute. repeat split. Qed.

(** The rejection rests on the hash subkey: in GCM over a block function
    whose hash subkey is zero the tag does not depend on the ciphertext, and
    a flipped ciphertext bit is accepted. Whether AES has this subkey under
    some derived key is not known. *)
Example gcm_zero_subkey_accepts_flip :
  let E := fun _ : bytes => repeat x00 16 in
  let iv := repeat x00 12 in
  let '(c, t) := Gcm.ae E iv [] (ascii_bytes "attack at dawn") in
  Gcm.hash_subkey E = 0
  /\ Gcm.ad E iv [] c t = Some (ascii_bytes "attack at dawn")
  /\ Gcm.ad E iv [] (flip_bit 0 0 c) t = Some (ascii_bytes "`ttack at dawn").
Proof. vm_compute. repeat split. Qed.

(** ** The text round trip on any string *)

Module Utf8More.
Import Utf8 Utf8Facts.

Lemma to_scalar_values_two (c d : N) (rest : list N) :
  to_scalar_values (c :: d :: rest) =
  if is_lead_surrogate c then
    if is_trail_surrogate d
    then (0x10000 + (c - 0xD800) * 0x400 + (d - 0xDC00)) :: to_scalar_values rest
    else replacement :: to_scalar_values (d :: rest)
  else if is_trail_surrogate c then replacement :: to_scalar_values (d :: rest)
  else c :: to_scalar_values (d :: rest).
Proof. reflexivity. Qed.





(** Appending U+0000 to a string appends one zero byte to its encoding. *)
Lemma to_scalar_values_snoc_zero (s : list N) :
  to_scalar_values (s ++ [0]) = to_scalar_values s ++ [0].
Proof.
  induction s as [|c|c d rest IH1 IH2] using units_ind.
  - reflexivity.
  - cbn [app]. rewrite to_scalar_values_two. cbn [to_scalar_values].
    change (is_trail_surrogate 0) with false.
    change (is_lead_surrogate 0) with false.
    destruct (is_lead_surrogate c); [reflexivity|].
    destruct (is_trail_surrogate c); reflexivity.
  - change ((c :: d :: rest) ++ [0]) with (c :: d :: (rest ++ [0])).
    rewrite !to_scalar_values_two.
    change (d :: rest ++ [0]) with ((d :: rest) ++ [0]).
    rewrite IH1, IH2.
    destruct (is_lead_surrogate c); [destruct (is_trail_surrogate d)|
                                     destruct (is_trail_surrogate c)];
      reflexivity.
Qed.

End Utf8More.

Lemma encode_snoc_zero (s : jsstring) :
  TextEncoder_encode (s ++ [cu_of_N 0]) = TextEncoder_encode s ++ [x00].
Proof.
  unfold TextEncoder_encode. rewrite map_app. cbn [map].
  change (cu_val (cu_of_N 0)) with 0.
  rewrite Utf8More.to_scalar_values_snoc_zero.
  unfold Utf8.encode_scalars. rewrite flat_map_app. reflexivity.
Qed.



(** ** Passwords that derive the same key *)

(** X2. A password whose UTF-8 form has fewer than 64 bytes and the same
    password followed by U+0000 are interchangeable: what either encrypts,
    the other decrypts, images and text alike. *)
Theorem trailing_zero_password
        (data : bytes) (content password : jsstring) (r : rng) :
  (length (TextEncoder_encode password) < 64)%nat ->
  let twin := password ++ [cu_of_N 0] in
  twin <> password
  /\ image_round_trip data password twin r = Ok data
  /\ image_round_trip data twin password r = Ok data
  /\ text_round_trip content password twin r
     = text_round_trip content password password r
  /\ text_round_trip content twin password r
     = text_round_trip content password password r.
Proof.
  intros Hl twin.
  assert (Hk : forall salt, key_material twin salt = key_material password salt).
  { intros salt. apply key_material_zero; [exact Hl|apply encode_snoc_zero]. }
  split; [|split; [|split; [|split]]].
  - intros H. apply (f_equal (@length code_unit)) in H.
    unfold twin in H. rewrite length_app in H. cbn [length] in H. lia.
  - apply image_round_trip_same_material, Hk.
  - apply image_round_trip_same_material. symmetry. apply Hk.
  - rewrite !text_round_trip_same_material; [reflexivity|reflexivity|apply Hk].
  - rewrite !text_round_trip_same_material;
      [reflexivity|reflexivity|symmetry; apply Hk].
Qed.

Lemma trailing_zero_password_witness :
  let twin := js "correct horse" ++ [cu_of_N 0] in
  twin <> js "correct horse"
  /\ image_round_trip sample_image (js "correct horse") twin sample_rng
     = Ok sample_image
  /\ image_round_trip sample_image twin (js "correct horse") sample_rng
     = Ok sample_image
  /\ text_round_trip (js "hello world") (js "correct horse") twin sample_rng
     = text_round_trip (js "hello world") (js "correct horse")
                       (js "correct horse") sample_rng
  /\ text_round_trip (js "hello world") twin (js "correct horse") sample_rng
     = text_round_trip (js "hello world") (js "correct horse")
                       (js "correct horse") sample_rng.
Proof.
  apply (trailing_zero_password sample_image (js "hello world")
                                (js "correct horse") sample_rng).
  vm_compute. lia.
Defined.

(** ** What [decryptContent] accepts as stored text *)

Lemma filter_map_comm {A B : Type} (f : B -> bool) (g : A -> B) (l : list A) :
  filter f (map g l) = map g (filter (fun x => f (g x)) l).
Proof.
  induction l as [|x l IH]; [reflexivity|].
  cbn [map filter]. destruct (f (g x)); cbn [map]; now rewrite IH.
Qed.

Lemma filter_idempotent {A : Type} (f : A -> bool) (l : list A) :
  filter f (filter f l) = filter f l.
Proof.
  induction l as [|x l IH]; [reflexivity|].
  cbn [filter]. destruct (f x) eqn:E; [cbn [filter]; rewrite E, IH|]; auto.
Qed.

(** [atob] does not see ASCII whitespace. *)
Lemma atob_significant (s : jsstring) : atob (significant s) = atob s.
Proof.
  unfold atob, Base64.decode, significant.
  rewrite !filter_map_comm, filter_idempotent. reflexivity.
Qed.

Lemma strip_padding_unpadded (l : list N) :
  Forall (fun b => b < 256) l ->
  Base64.strip_padding (Base64.encode_unpadded l) = Base64.encode_unpadded l.
Proof.
  intros Hl. pose proof (Base64Facts.encode_unpadded_plain l Hl) as Hp.
  apply Forall_rev in Hp. unfold Base64.strip_padding.
  destruct (length (Base64.encode_unpadded l) mod 4 =? 0)%nat; [|reflexivity].
  destruct (rev (Base64.encode_unpadded l)) as [|a [|b r]]; [reflexivity| |];
    inversion_clear Hp as [|? ? Ha _]; destruct Ha as (n & Hn & ->);
    destruct (Base64Facts.char_of_sextet_plain n Hn) as (_ & -> & _);
    reflexivity.
Qed.

(** [atob] accepts an encoding without its padding. *)
Lemma atob_unpadded_text (a : bytes) :
  atob (unpadded_text a) = Ok (String_fromCharCode a).
Proof.
  unfold atob, unpadded_text.
  pose proof (Base64Facts.encode_unpadded_plain _ (Forall_to_N a)) as Hp.
  assert (H : map cu_val (map cu_of_N (Base64.encode_unpadded (map Byte.to_N a)))
              = Base64.encode_unpadded (map Byte.to_N a)).
  { rewrite map_map. rewrite <- (map_id (Base64.encode_unpadded _)) at 2.
    apply map_ext_in. intros c Hc. rewrite Forall_forall in Hp.
    destruct (Hp c Hc) as (n & Hn & ->).
    destruct (Base64Facts.char_of_sextet_plain n Hn) as (_ & _ & Hlt).
    apply cu_val_of_N_small. lia. }
  rewrite H. unfold Base64.decode.
  assert (Hf : filter (fun c => negb (Base64.is_ascii_whitespace c))
                      (Base64.encode_unpadded (map Byte.to_N a))
               = Base64.encode_unpadded (map Byte.to_N a)).
  { apply forallb_filter_id, forallb_forall. intros c Hc.
    rewrite Forall_forall in Hp. destruct (Hp c Hc) as (n & Hn & ->).
    destruct (Base64Facts.char_of_sextet_plain n Hn) as (-> & _). reflexivity. }
  rewrite Hf, strip_padding_unpadded by apply Forall_to_N.
  pose proof (Base64Facts.encode_unpadded_length (map Byte.to_N a)) as Hn.
  apply Nat.eqb_neq in Hn. rewrite Hn.
  rewrite Base64Facts.sextets_encode_unpadded by apply Forall_to_N.
  unfold String_fromCharCode. now rewrite map_map.
Qed.

Lemma decryptContent_atob (s t password : jsstring) :
  atob s = atob t -> decryptContent s password = decryptContent t password.
Proof. intros H. unfold decryptContent. rewrite H. reflexivity. Qed.

(** X3. [decryptContent] reads its text as [atob] does: ASCII whitespace
    anywhere in the text is ignored, and the padding at the end of an
    envelope may be left out. *)
Theorem decryptContent_forgiving (content : jsstring) (e : bytes)
        (password : jsstring) :
  decryptContent content password
  = decryptContent (significant content) password
  /\ decryptContent (unpadded_text e) password
     = decryptContent (base64_text e) password.
Proof.
  split; apply decryptContent_atob.
  - symmetry. apply atob_significant.
  - now rewrite atob_unpadded_text, atob_base64_text.
Qed.

(** ** Texts too short to hold an envelope *)

Module Base64More.
Import Base64.

Lemma sextets_length (l v : list N) : sextets l = Some v -> length v = length l.
Proof.
  revert v. induction l as [|c l IH]; intros v H; cbn [sextets] in H.
  - injection H as <-. reflexivity.
  - destruct (sextet_of_char c); [|discriminate].
    destruct (sextets l) as [vs|]; [|discriminate].
    injection H as <-. cbn [length]. now rewrite (IH vs).
Qed.

(** Induction over a list four elements at a time. *)
Lemma quads_ind (P : list N -> Prop) :
  P [] -> (forall a, P [a]) -> (forall a b, P [a; b]) ->
  (forall a b c, P [a; b; c]) ->
  (forall a b c d rest, P rest -> P (a :: b :: c :: d :: rest)) ->
  forall l, P l.
Proof.
  intros H0 H1 H2 H3 H4 l.
  enough (P l /\ (forall a, P (a :: l)) /\ (forall a b, P (a :: b :: l))
          /\ forall a b c, P (a :: b :: c :: l)) by tauto.
  induction l as [|d rest (IH1 & IH2 & IH3 & IH4)]; repeat split; auto.
Qed.

(** Four characters give at most three bytes. *)
Lemma decode_sextets_length (l : list N) :
  (4 * length (decode_sextets l) <= 3 * length l)%nat.
Proof.
  induction l as [|a|a b|a b c|a b c d rest IH] using quads_ind;
    cbn [decode_sextets length] in *; lia.
Qed.

Lemma strip_padding_length (l : list N) :
  (length (strip_padding l) <= length l)%nat.
Proof.
  unfold strip_padding.
  destruct (length l mod 4 =? 0)%nat; [|lia].
  assert (Hl : length l = length (rev l)) by (symmetry; apply length_rev).
  destruct (rev l) as [|a [|b r]]; [lia| |]; cbn [length] in Hl.
  - destruct (a =? pad); cbn [length]; lia.
  - destruct (a =? pad); [destruct (b =? pad)|];
      rewrite ?length_rev; cbn [length]; lia.
Qed.

Lemma decode_length (data l : list N) :
  decode data = Some l -> (4 * length l <= 3 * length data)%nat.
Proof.
  unfold decode.
  set (f := filter (fun c => negb (is_ascii_whitespace c)) data).
  assert (Hf : (length f <= length data)%nat) by apply filter_length_le.
  pose proof (strip_padding_length f) as Hs.
  destruct (length (strip_padding f) mod 4 =? 1)%nat; [discriminate|].
  destruct (sextets (strip_padding f)) as [v|] eqn:E; [|discriminate].
  cbn [option_map]. intros [= <-].
  apply sextets_length in E. pose proof (decode_sextets_length v). lia.
Qed.

End Base64More.

Lemma decryptContent_short_text (encryptedContent password : jsstring) :
  (length encryptedContent < 59)%nat ->
  decryptContent encryptedContent password = Err decryption_failed.
Proof.
  intros Hl. destruct (atob encryptedContent) as [decoded|e] eqn:Ha.
  - apply (decryptContent_short _ decoded); [exact Ha|].
    unfold atob in Ha.
    destruct (Base64.decode (map cu_val encryptedContent)) as [l|] eqn:E;
      [|discriminate].
    injection Ha as <-. apply Base64More.decode_length in E.
    rewrite length_map in *. lia.
  - unfold decryptContent. rewrite Ha. reflexivity.
Qed.

(** X4. No input shorter than an envelope of the empty plaintext is
    accepted: [decryptImage] refuses every input of fewer than 44 bytes
    and [decryptContent] every text of fewer than 59 code units, the empty
    ones included, each with its decryption failure. *)
Theorem short_input_is_refused (encryptedBytes : bytes)
        (encryptedContent password : jsstring) :
  (length encryptedBytes < 44)%nat -> (length encryptedContent < 59)%nat ->
  decryptImage encryptedBytes password = Err image_decryption_failed
  /\ decryptContent encryptedContent password = Err decryption_failed.
Proof.
  intros Hb Hl. split.
  - now apply decryptImage_short.
  - now apply decryptContent_short_text.
Qed.

Lemma short_input_is_refused_witness :
  decryptImage [] (js "correct horse") = Err image_decryption_failed
  /\ decryptContent (js "a note kept in clear") (js "correct horse")
     = Err decryption_failed.
Proof.
  apply (short_input_is_refused [] (js "a note kept in clear")
                                (js "correct horse"));
    cbn; lia.
Defined.

(** ** What the tag check lets through *)

(** X5. An envelope whose tag has one bit flipped, whichever of its 128
    bits, is refused by both decrypt operations with their decryption
    failure. *)
Theorem tampered_tag_is_refused (data : bytes) (password : jsstring) (r : rng)
        (i : nat) (j : N) :
  (i < 16)%nat ->
  let e := envelope (drawn_salt r) (drawn_iv r) data password in
  fst (encryptImage data password r) = Ok e
  /\ flip_bit (28 + length data + i) j e <> e
  /\ decryptImage (flip_bit (28 + length data + i) j e) password
     = Err image_decryption_failed
  /\ decryptContent (base64_text (flip_bit (28 + length data + i) j e)) password
     = Err decryption_failed.
Proof.
  intros Hi e. split; [|split].
  - rewrite encryptImage_value. reflexivity.
  - apply flip_bit_changes. subst e. unfold envelope.
    rewrite !length_app, drawn_salt_length, drawn_iv_length,
      ciphertext_length, auth_tag_length. lia.
  - apply (tag_flip_detected (drawn_salt r) (drawn_iv r) data password i j);
      auto using drawn_salt_length, drawn_iv_length.
Qed.

Lemma tampered_tag_is_refused_witness :
  let e := envelope (drawn_salt sample_rng) (drawn_iv sample_rng)
                    sample_image (js "img-pass") in
  fst (encryptImage sample_image (js "img-pass") sample_rng) = Ok e
  /\ flip_bit (28 + length sample_image + 15) 7 e <> e
  /\ decryptImage (flip_bit (28 + length sample_image + 15) 7 e) (js "img-pass")
     = Err image_decryption_failed
  /\ decryptContent (base64_text (flip_bit (28 + length sample_image + 15) 7 e))
                    (js "img-pass")
     = Err decryption_failed.
Proof.
  apply (tampered_tag_is_refused sample_image (js "img-pass") sample_rng 15 7).
  lia.
Defined.

(** The parts of an input of 44 bytes or more. *)
Lemma input_parts (e : bytes) :
  (44 <= length e)%nat ->
  exists c t,
    e = slice 0 16 e ++ slice 16 28 e ++ c ++ t
    /\ length (slice 0 16 e) = 16%nat /\ length (slice 16 28 e) = 12%nat
    /\ length t = 16%nat.
Proof.
  intros Hl. unfold slice. rewrite skipn_0.
  change (16 - 0)%nat with 16%nat. change (28 - 16)%nat with 12%nat.
  set (rest := skipn 28 e).
  assert (Hr : length rest = (length e - 28)%nat) by apply length_skipn.
  exists (firstn (length rest - 16) rest), (skipn (length rest - 16) rest).
  split; [|split; [|split]].
  - rewrite firstn_skipn. unfold rest.
    replace (skipn 28 e) with (skipn 12 (skipn 16 e))
      by (rewrite skipn_skipn; reflexivity).
    now rewrite !firstn_skipn.
  - rewrite length_firstn. lia.
  - rewrite length_firstn, length_skipn. lia.
  - rewrite length_skipn. lia.
Qed.

(** X6. Whatever input [decryptImage] accepts, an envelope or not, holds
    from byte 28 on a ciphertext followed by the sixteen-byte tag that
    ciphertext has under the key derived from the password and the first
    sixteen bytes; what is returned is the counter-mode decryption of that
    ciphertext, of the same length, and nothing else. *)
Theorem accepted_input_is_authenticated
        (encryptedBytes : bytes) (password : jsstring) (p : bytes) :
  decryptImage encryptedBytes password = Ok p ->
  let salt := slice 0 16 encryptedBytes in
  let iv := slice 16 28 encryptedBytes in
  exists c t,
    encryptedBytes = salt ++ iv ++ c ++ t
    /\ length t = 16%nat
    /\ tag_matches (key_material password salt) iv c t = true
    /\ p = counter_mode (key_material password salt) iv c
    /\ length p = length c.
Proof.
  intros H salt iv.
  destruct (Nat.lt_ge_cases (length encryptedBytes) 44) as [Hs|Hl].
  - rewrite decryptImage_short in H by exact Hs. discriminate H.
  - destruct (input_parts encryptedBytes Hl) as (c & t & He & Hsl & Hil & Ht).
    fold salt iv in He, Hsl, Hil.
    exists c, t. split; [exact He|]. split; [exact Ht|].
    assert (H' : decryptImage (salt ++ iv ++ c ++ t) password = Ok p)
      by (rewrite <- He; exact H).
    destruct (decryptImage_authenticated salt iv c t password p Hsl Hil Ht H')
      as [Hm Hp].
    split; [exact Hm|]. split; [exact Hp|].
    rewrite Hp. unfold counter_mode.
    apply (GcmFacts.gctr_length _ (encrypt_block_length _)). lia.
Qed.

Lemma accepted_input_is_authenticated_witness :
  let e := envelope (drawn_salt sample_rng) (drawn_iv sample_rng)
                    sample_image (js "img-pass") in
  let salt := slice 0 16 e in
  let iv := slice 16 28 e in
  exists c t,
    e = salt ++ iv ++ c ++ t
    /\ length t = 16%nat
    /\ tag_matches (key_material (js "img-pass") salt) iv c t = true
    /\ sample_image = counter_mode (key_material (js "img-pass") salt) iv c
    /\ length sample_image = length c.
Proof.
  intros e.
  apply (accepted_input_is_authenticated e (js "img-pass") sample_image).
  apply decryptImage_envelope;
    [apply drawn_salt_length|apply drawn_iv_length|reflexivity].
Defined.

(** ** The random bytes an encryption reads *)





(* ------------------------------------------------------------------ *)
(** ** The canister: maps and sorting *)

Module MapFacts.
Import Map.

Section WithValues.
Context {V : Type}.
Implicit Types (m : Map V) (k : string) (v : V).

Lemma get_remove_same m k : get (remove m k) k = None.
Proof.
  induction m as [|[k' v'] m IH]; [reflexivity|]. cbn [remove].
  destruct (String.eqb k k') eqn:E; [exact IH|].
  cbn [get]. now rewrite E.
Qed.

Lemma get_remove_other m k k' : k' <> k -> get (remove m k) k' = get m k'.
Proof.
  intros Hk. induction m as [|[k0 v0] m IH]; [reflexivity|]. cbn [remove get].
  destruct (String.eqb k k0) eqn:E.
  - apply String.eqb_eq in E. subst k0.
    apply String.eqb_neq in Hk. now rewrite Hk.
  - cbn [get]. now rewrite IH.
Qed.

Lemma get_insert_same m k v : get m k = None -> get (insert m k v) k = Some v.
Proof.
  induction m as [|[k' v'] m IH]; cbn [insert get]; intros Hg.
  - now rewrite String.eqb_refl.
  - destruct (String.eqb k k') eqn:E; [discriminate|].
    destruct (String.compare k k'); cbn [get];
      rewrite ?String.eqb_refl, ?E; auto.
Qed.

Lemma get_insert_other m k v k' :
  k' <> k -> get (insert m k v) k' = get m k'.
Proof.
  intros Hk. apply String.eqb_neq in Hk.
  induction m as [|[k0 v0] m IH]; cbn [insert get].
  - now rewrite Hk.
  - destruct (String.compare k k0); cbn [get]; rewrite ?Hk, ?IH; reflexivity.
Qed.

Lemma get_add_same m k v : get (add m k v) k = Some v.
Proof. apply get_insert_same, get_remove_same. Qed.

Lemma get_add_other m k v k' : k' <> k -> get (add m k v) k' = get m k'.
Proof.
  intros Hk. unfold add. rewrite get_insert_other by exact Hk.
  now apply get_remove_other.
Qed.

Lemma insert_permutation m k v : Permutation (insert m k v) ((k, v) :: m).
Proof.
  induction m as [|[k' v'] m IH]; cbn [insert]; [reflexivity|].
  destruct (String.compare k k'); try reflexivity;
    (rewrite IH; apply perm_swap).
Qed.

Lemma in_remove m k k' v :
  In (k', v) (remove m k) <-> In (k', v) m /\ k' <> k.
Proof.
  induction m as [|[k0 v0] m IH]; cbn [remove In]; [tauto|].
  destruct (String.eqb_spec k k0) as [->|Hne].
  - rewrite IH. split; [tauto|]. intros [[Heq|Hin] Hk]; [|tauto].
    injection Heq as -> _. contradiction.
  - cbn [In]. rewrite IH. split.
    + intros [Heq|[Hin Hk]]; [|tauto]. injection Heq as -> ->. split; auto.
    + tauto.
Qed.

Lemma get_none_keys m k : get m k = None <-> ~ In k (map fst m).
Proof.
  induction m as [|[k' v'] m IH]; cbn [get map fst In]; [tauto|].
  destruct (String.eqb_spec k k') as [->|Hne].
  - split; [discriminate|]. intros Hn. exfalso. apply Hn. now left.
  - rewrite IH. split; [|tauto]. intros Hn [Heq|Hin]; [|tauto].
    apply Hne. now symmetry.
Qed.

Lemma keys_remove m k : NoDup (map fst m) -> NoDup (map fst (remove m k)).
Proof.
  induction m as [|[k' v'] m IH]; cbn [remove map fst]; intros Hn;
    [constructor|].
  inversion_clear Hn as [|? ? Hk Hm].
  destruct (String.eqb k k'); [auto|].
  cbn [map fst]. constructor; [|auto].
  intros Hin. apply Hk. apply in_map_iff in Hin.
  destruct Hin as ([k0 v0] & Hf & Hin). cbn [fst] in Hf. subst k0.
  apply in_remove in Hin. apply in_map_iff. exists (k', v0). tauto.
Qed.

Lemma keys_add m k v : NoDup (map fst m) -> NoDup (map fst (add m k v)).
Proof.
  intros Hn. unfold add.
  apply (Permutation_NoDup (l := map fst ((k, v) :: remove m k))).
  - apply Permutation_map. symmetry. apply insert_permutation.
  - cbn [map fst]. constructor; [|now apply keys_remove].
    apply get_none_keys, get_remove_same.
Qed.

(** With each key bound once, the bindings are what [get] finds. *)
Lemma in_get m k v : NoDup (map fst m) -> (In (k, v) m <-> get m k = Some v).
Proof.
  induction m as [|[k' v'] m IH]; cbn [map fst In get]; intros Hn.
  - split; [tauto|discriminate].
  - inversion_clear Hn as [|? ? Hk Hm]. specialize (IH Hm).
    destruct (String.eqb_spec k k') as [->|Hne].
    + split.
      * intros [Heq|Hin]; [congruence|].
        exfalso. apply Hk. apply in_map_iff. now exists (k', v).
      * intros [= ->]. now left.
    + rewrite <- IH. split; [|tauto]. intros [Heq|Hin]; [|exact Hin].
      congruence.
Qed.

Lemma in_values m v : In v (values m) <-> exists k, In (k, v) m.
Proof.
  unfold values. rewrite in_map_iff. split.
  - intros ([k v'] & Hs & Hin). cbn [snd] in Hs. subst v'. now exists k.
  - intros (k & Hin). now exists (k, v).
Qed.

(** Removing a bound key takes its value out of the values. *)
Lemma values_remove m k v :
  NoDup (map fst m) -> get m k = Some v ->
  Permutation (values m) (v :: values (remove m k)).
Proof.
  unfold values.
  induction m as [|[k' v'] m IH]; cbn [map fst get remove snd]; intros Hn Hg;
    [discriminate|].
  inversion_clear Hn as [|? ? Hk Hm].
  destruct (String.eqb_spec k k') as [->|Hne].
  - injection Hg as ->.
    assert (Hr : remove m k' = m).
    { clear IH Hm. induction m as [|[k0 v0] m IH]; [reflexivity|].
      cbn [remove map fst In] in *.
      destruct (String.eqb_spec k' k0) as [->|Hne]; [tauto|].
      rewrite IH; tauto. }
    now rewrite Hr.
  - cbn [map snd]. rewrite (IH Hm Hg). apply perm_swap.
Qed.

Lemma values_remove_absent m k : get m k = None -> remove m k = m.
Proof.
  induction m as [|[k' v'] m IH]; cbn [get remove]; [reflexivity|].
  destruct (String.eqb k k'); [discriminate|]. intros Hg. now rewrite IH.
Qed.

Lemma values_add m k v :
  Permutation (values (add m k v)) (v :: values (remove m k)).
Proof.
  unfold add, values.
  change (v :: map snd (remove m k)) with (map snd ((k, v) :: remove m k)).
  apply Permutation_map, insert_permutation.
Qed.

End WithValues.
End MapFacts.

Module ArrayFacts.
Import Array.

Lemma sorted_insert_permutation {T : Type} (cmp : T -> T -> comparison) (x : T)
      (l : list T) : Permutation (insert cmp x l) (x :: l).
Proof.
  induction l as [|y l IH]; cbn [insert]; [reflexivity|].
  destruct (cmp x y); try reflexivity. rewrite IH. apply perm_swap.
Qed.

(** Sorting keeps the elements. *)
Lemma sort_permutation {T : Type} (cmp : T -> T -> comparison) (l : list T) :
  Permutation (sort l cmp) l.
Proof.
  unfold sort. induction l as [|x l IH]; cbn [fold_right]; [reflexivity|].
  rewrite sorted_insert_permutation. now constructor.
Qed.

Lemma insert_sorted {T : Type} (key : T -> Z) (x : T) (l : list T) :
  StronglySorted (fun a b => (key a <= key b)%Z) l ->
  StronglySorted (fun a b => (key a <= key b)%Z)
                 (insert (fun a b => Z.compare (key a) (key b)) x l).
Proof.
  induction l as [|y l IH]; cbn [insert]; intros Hs.
  - constructor; [constructor|constructor].
  - inversion Hs as [|? ? Hl Hy]; subst.
    destruct (Z.compare_spec (key x) (key y)) as [He|Hlt|Hgt].
    + constructor; [exact Hs|]. constructor; [lia|].
      eapply Forall_impl; [|exact Hy]. cbn beta. intros; lia.
    + constructor; [exact Hs|]. constructor; [lia|].
      eapply Forall_impl; [|exact Hy]. cbn beta. intros; lia.
    + constructor; [now apply IH|].
      eapply Permutation_Forall; [symmetry; apply sorted_insert_permutation|].
      constructor; [lia|exact Hy].
Qed.

(** Sorting by a key puts the elements in the order of their keys. *)
Lemma sort_sorted {T : Type} (key : T -> Z) (l : list T) :
  StronglySorted (fun a b => (key a <= key b)%Z)
                 (sort l (fun a b => Z.compare (key a) (key b))).
Proof.
  unfold sort. induction l as [|x l IH]; cbn [fold_right]; [constructor|].
  now apply insert_sorted.
Qed.

End ArrayFacts.

(** ** The canister: the notes *)

Lemma Nat_toText_injective (a b : N) : Nat_toText a = Nat_toText b -> a = b.
Proof.
  unfold Nat_toText. intros H.
  apply (f_equal NilEmpty.uint_of_string) in H. rewrite !NilEmpty.usu in H.
  injection H as H. now apply Unsigned.to_uint_inj.
Qed.

Section MainFacts.
Import Main.
Context `{Imports}.

Lemma get_some_not_none {V : Type} (m : Map.Map V) (k : string) (v : V) :
  Map.get m k = Some v -> Map.get m k <> None.
Proof. congruence. Qed.

Lemma well_kept_init : well_kept Map.empty 0.
Proof. split; intros; discriminate. Qed.

(** One user's map is replaced by a map whose keys were that user's
    already, or are bound in no map. *)
Lemma well_kept_step (notes : Map.Map (Map.Map Note)) (next next' : N)
      (c : Principal) (m' : Map.Map Note) :
  well_kept notes next -> next <= next' ->
  NoDup (map fst m') ->
  (forall k n, Map.get m' k = Some n ->
     id n = k /\ exists j, j < next' /\ k = Nat_toText j) ->
  (forall k, Map.get m' k <> None ->
     (exists m, Map.get notes c = Some m /\ Map.get m k <> None)
     \/ (forall c0 m0, Map.get notes c0 = Some m0 -> Map.get m0 k = None)) ->
  well_kept (Map.add notes c m') next'.
Proof.
  intros [Hm Hu] Hle Hn Hk Hfrom. split.
  - intros c0 m0 Hg. destruct (String.eqb_spec c0 c) as [->|Hne].
    + rewrite MapFacts.get_add_same in Hg. injection Hg as <-. auto.
    + rewrite MapFacts.get_add_other in Hg by exact Hne.
      destruct (Hm c0 m0 Hg) as [Hd Hin]. split; [exact Hd|].
      intros k n Hkn. destruct (Hin k n Hkn) as [Hid (j & Hj & Hkj)].
      split; [exact Hid|]. exists j. split; [lia|exact Hkj].
  - assert (Hc : forall c2 m2 k,
               c2 <> c -> Map.get notes c2 = Some m2 ->
               Map.get m' k <> None -> Map.get m2 k <> None -> False).
    { intros c2 m2 k Hne Hg2 Hk1 Hk2.
      destruct (Hfrom k Hk1) as [(m & Hg & Hgk)|Hfresh].
      - apply Hne. apply (Hu c2 c m2 m k); assumption.
      - apply Hk2. apply (Hfresh c2 m2 Hg2). }
    intros c1 c2 m1 m2 k Hg1 Hg2 Hk1 Hk2.
    destruct (String.eqb_spec c1 c) as [->|Hne1];
      destruct (String.eqb_spec c2 c) as [->|Hne2]; [reflexivity| | |].
    + rewrite MapFacts.get_add_same in Hg1. injection Hg1 as <-.
      rewrite MapFacts.get_add_other in Hg2 by exact Hne2.
      exfalso. apply (Hc c2 m2 k); assumption.
    + rewrite MapFacts.get_add_same in Hg2. injection Hg2 as <-.
      rewrite MapFacts.get_add_other in Hg1 by exact Hne1.
      exfalso. apply (Hc c1 m1 k); assumption.
    + rewrite MapFacts.get_add_other in Hg1 by exact Hne1.
      rewrite MapFacts.get_add_other in Hg2 by exact Hne2.
      apply (Hu c1 c2 m1 m2 k); assumption.
Qed.

Lemma well_kept_createNote (s : Actor) (caller : Principal) (now : Z)
      (data : NoteData) :
  well_kept (emptyNotesMap s) (nextNoteId s) ->
  well_kept (emptyNotesMap (snd (createNote s caller now data)))
            (nextNoteId (snd (createNote s caller now data))).
Proof.
  intros Hw. unfold createNote.
  destruct (negb (hasPermission (accessControlState s) caller user));
    [exact Hw|].
  cbn [snd emptyNotesMap nextNoteId].
  set (k0 := Nat_toText (nextNoteId s)).
  set (note := Build_Note k0 _ _ _ _ _).
  assert (Hfresh : forall c0 m0, Map.get (emptyNotesMap s) c0 = Some m0 ->
                                 Map.get m0 k0 = None).
  { intros c0 m0 Hg. destruct (Map.get m0 k0) as [n|] eqn:E; [|reflexivity].
    destruct Hw as [Hm _]. destruct (Hm c0 m0 Hg) as [_ Hin].
    destruct (Hin k0 n E) as [_ (j & Hj & Hkj)].
    apply Nat_toText_injective in Hkj. lia. }
  apply (well_kept_step _ (nextNoteId s)); [exact Hw|lia| | |].
  - destruct (Map.get (emptyNotesMap s) caller) as [m|] eqn:E.
    + apply MapFacts.keys_add. destruct Hw as [Hm _]. now apply (Hm caller m).
    + apply MapFacts.keys_add. constructor.
  - intros k n Hg.
    assert (Hcase : (k = k0 /\ n = note)
                    \/ exists m, Map.get (emptyNotesMap s) caller = Some m
                                 /\ Map.get m k = Some n).
    { destruct (String.eqb_spec k k0) as [->|Hne].
      - left. destruct (Map.get (emptyNotesMap s) caller);
          rewrite MapFacts.get_add_same in Hg; split; congruence.
      - right. destruct (Map.get (emptyNotesMap s) caller) as [m|];
          rewrite MapFacts.get_add_other in Hg by exact Hne;
          [now exists m|discriminate]. }
    destruct Hcase as [[-> ->]|(m & Hm & Hkn)].
    + split; [reflexivity|]. exists (nextNoteId s). split; [lia|reflexivity].
    + destruct Hw as [Hw _]. destruct (Hw caller m Hm) as [_ Hin].
      destruct (Hin k n Hkn) as [Hid (j & Hj & Hkj)].
      split; [exact Hid|]. exists j. split; [lia|exact Hkj].
  - intros k Hk. destruct (String.eqb_spec k k0) as [->|Hne].
    + right. exact Hfresh.
    + left. destruct (Map.get (emptyNotesMap s) caller) as [m|];
        rewrite MapFacts.get_add_other in Hk by exact Hne.
      * now exists m.
      * exfalso. now apply Hk.
Qed.

Lemma well_kept_updateNote (s : Actor) (caller : Principal) (noteId : NoteId)
      (data : NoteData) :
  well_kept (emptyNotesMap s) (nextNoteId s) ->
  well_kept (emptyNotesMap (snd (updateNote s caller noteId data)))
            (nextNoteId (snd (updateNote s caller noteId data))).
Proof.
  intros Hw. unfold updateNote.
  destruct (negb (hasPermission (accessControlState s) caller user));
    [exact Hw|].
  destruct (Map.get (emptyNotesMap s) caller) as [m|] eqn:Em; [|exact Hw].
  destruct (Map.get m noteId) as [existing|] eqn:En; [|exact Hw].
  cbn [snd emptyNotesMap nextNoteId].
  pose proof Hw as [Hm _]. destruct (Hm caller m Em) as [Hd Hin].
  apply (well_kept_step _ (nextNoteId s)); [exact Hw|lia| | |].
  - now apply MapFacts.keys_add.
  - intros k n Hg. destruct (String.eqb_spec k noteId) as [->|Hne].
    + rewrite MapFacts.get_add_same in Hg. injection Hg as <-.
      cbn [id]. exact (Hin noteId existing En).
    + rewrite MapFacts.get_add_other in Hg by exact Hne. now apply Hin.
  - intros k Hk. left. exists m. split; [exact Em|].
    destruct (String.eqb_spec k noteId) as [->|Hne]; [congruence|].
    now rewrite MapFacts.get_add_other in Hk by exact Hne.
Qed.

Lemma well_kept_deleteNote (s : Actor) (caller : Principal) (noteId : NoteId) :
  well_kept (emptyNotesMap s) (nextNoteId s) ->
  well_kept (emptyNotesMap (snd (deleteNote s caller noteId)))
            (nextNoteId (snd (deleteNote s caller noteId))).
Proof.
  intros Hw. unfold deleteNote.
  destruct (negb (hasPermission (accessControlState s) caller user));
    [exact Hw|].
  destruct (Map.get (emptyNotesMap s) caller) as [m|] eqn:Em; [|exact Hw].
  cbn [snd emptyNotesMap nextNoteId].
  pose proof Hw as [Hm _]. destruct (Hm caller m Em) as [Hd Hin].
  assert (Hsub : forall k, Map.get (Map.remove m noteId) k <> None ->
                           k <> noteId /\ Map.get m k <> None).
  { intros k Hk. destruct (String.eqb_spec k noteId) as [->|Hne].
    - now rewrite MapFacts.get_remove_same in Hk.
    - now rewrite MapFacts.get_remove_other in Hk by exact Hne. }
  apply (well_kept_step _ (nextNoteId s)); [exact Hw|lia| | |].
  - now apply MapFacts.keys_remove.
  - intros k n Hg. destruct (Hsub k (get_some_not_none _ _ _ Hg)) as [Hne _].
    rewrite MapFacts.get_remove_other in Hg by exact Hne. now apply Hin.
  - intros k Hk. left. exists m. split; [exact Em|]. now apply Hsub.
Qed.

Lemma later_well_kept (s s' : Actor) :
  later s s' -> well_kept (emptyNotesMap s) (nextNoteId s) ->
  well_kept (emptyNotesMap s') (nextNoteId s').
Proof.
  intros Hl Hw.
  induction Hl as [|s' access _ IH|s' caller profile _ IH
                   |s' caller now data _ IH|s' caller noteId data _ IH
                   |s' caller noteId _ IH].
  - exact Hw.
  - exact IH.
  - unfold saveCallerUserProfile.
    destruct (negb (hasPermission (accessControlState s') caller user));
      exact IH.
  - now apply well_kept_createNote.
  - now apply well_kept_updateNote.
  - now apply well_kept_deleteNote.
Qed.

(** Every state the canister reaches keeps the notes well. *)
Lemma reachable_well_kept (s : Actor) :
  reachable s -> well_kept (emptyNotesMap s) (nextNoteId s).
Proof. intros Hr. apply (later_well_kept init s Hr), well_kept_init. Qed.

(** The counter never goes down. *)
Lemma later_counter (s s' : Actor) :
  later s s' -> nextNoteId s <= nextNoteId s'.
Proof.
  induction 1 as [|s' access _ IH|s' caller profile _ IH
                  |s' caller now data _ IH|s' caller noteId data _ IH
                  |s' caller noteId _ IH].
  - lia.
  - exact IH.
  - unfold saveCallerUserProfile.
    destruct (negb (hasPermission (accessControlState s') caller user));
      exact IH.
  - unfold createNote.
    destruct (negb (hasPermission (accessControlState s') caller user));
      cbn [snd nextNoteId]; lia.
  - unfold updateNote.
    destruct (negb (hasPermission (accessControlState s') caller user));
      [exact IH|].
    destruct (Map.get (emptyNotesMap s') caller) as [m|]; [|exact IH].
    destruct (Map.get m noteId); exact IH.
  - unfold deleteNote.
    destruct (negb (hasPermission (accessControlState s') caller user));
      [exact IH|].
    destruct (Map.get (emptyNotesMap s') caller); exact IH.
Qed.

Lemma getNote_value (s : Actor) (caller : Principal) (noteId : NoteId) :
  hasPermission (accessControlState s) caller user = true ->
  getNote s caller noteId =
  match Map.get (emptyNotesMap s) caller with
  | None => Trap "Note does not exist"
  | Some userNotes =>
      match Map.get userNotes noteId with
      | None => Trap "Note does not exist"
      | Some note => Reply note
      end
  end.
Proof. intros Hp. unfold getNote. now rewrite Hp. Qed.

Lemma getNote_reply (s : Actor) (caller : Principal) (noteId : NoteId)
      (note : Note) :
  getNote s caller noteId = Reply note <->
  hasPermission (accessControlState s) caller user = true
  /\ exists m, Map.get (emptyNotesMap s) caller = Some m
               /\ Map.get m noteId = Some note.
Proof.
  unfold getNote.
  destruct (hasPermission (accessControlState s) caller user); cbn [negb].
  - destruct (Map.get (emptyNotesMap s) caller) as [m|].
    + destruct (Map.get m noteId) as [n|] eqn:E.
      * split.
        -- intros [= ->]. split; [reflexivity|]. now exists m.
        -- intros (_ & m' & [= <-] & Hn). congruence.
      * split; [discriminate|]. intros (_ & m' & [= <-] & Hn). congruence.
    + split; [discriminate|]. intros (_ & m' & Hm & _). discriminate.
  - split; [discriminate|]. intros [Hp _]. discriminate.
Qed.

Lemma getNote_missing (s : Actor) (caller : Principal) (noteId : NoteId) :
  hasPermission (accessControlState s) caller user = true ->
  getNote s caller noteId = Trap "Note does not exist" ->
  forall m, Map.get (emptyNotesMap s) caller = Some m ->
            Map.get m noteId = None.
Proof.
  intros Hp Hg m Hm. rewrite getNote_value in Hg by exact Hp.
  rewrite Hm in Hg. destruct (Map.get m noteId); [discriminate|reflexivity].
Qed.

(** What the queries of any user make of a state in which one user's map
    was replaced. *)
Lemma getNote_after (s s' : Actor) (caller : Principal) (m' : Map.Map Note) :
  accessControlState s' = accessControlState s ->
  emptyNotesMap s' = Map.add (emptyNotesMap s) caller m' ->
  forall c k,
    getNote s' c k =
    if negb (hasPermission (accessControlState s) c user) then
      Trap "Unauthorized: Only authenticated users can view notes"
    else if String.eqb c caller then
      match Map.get m' k with
      | None => Trap "Note does not exist"
      | Some note => Reply note
      end
    else getNote s c k.
Proof.
  intros Ha Hn c k. unfold getNote. rewrite Ha, Hn.
  destruct (negb (hasPermission (accessControlState s) c user));
    [reflexivity|].
  destruct (String.eqb_spec c caller) as [->|Hne].
  - now rewrite MapFacts.get_add_same.
  - now rewrite MapFacts.get_add_other by exact Hne.
Qed.

Lemma listNotes_after (s s' : Actor) (caller : Principal) (m' : Map.Map Note) :
  accessControlState s' = accessControlState s ->
  emptyNotesMap s' = Map.add (emptyNotesMap s) caller m' ->
  forall c,
    listNotes s' c =
    if negb (hasPermission (accessControlState s) c user) then
      Trap "Unauthorized: Only authenticated users can list notes"
    else if String.eqb c caller then
      Reply (Array.sort (Map.values m') compareByTimestamp)
    else listNotes s c.
Proof.
  intros Ha Hn c. unfold listNotes. rewrite Ha, Hn.
  destruct (negb (hasPermission (accessControlState s) c user));
    [reflexivity|].
  destruct (String.eqb_spec c caller) as [->|Hne].
  - now rewrite MapFacts.get_add_same.
  - now rewrite MapFacts.get_add_other by exact Hne.
Qed.

Lemma eqb_other (c caller : string) : c <> caller -> String.eqb c caller = false.
Proof. apply String.eqb_neq. Qed.

(** X8. In every state the canister reaches, a note is filed under its own
    identifier, the identifier is the decimal text of a number below the
    counter, and no two users have a note with the same identifier. *)
Theorem note_identifiers (s : Actor) (caller : Principal) (noteId : NoteId)
        (note : Note) :
  reachable s -> getNote s caller noteId = Reply note ->
  id note = noteId
  /\ (exists j, j < nextNoteId s /\ noteId = Nat_toText j)
  /\ forall c n, getNote s c noteId = Reply n -> c = caller.
Proof.
  intros Hr Hg. apply reachable_well_kept in Hr. destruct Hr as [Hm Hu].
  apply getNote_reply in Hg. destruct Hg as (_ & m & Hc & Hk).
  destruct (Hm caller m Hc) as [_ Hin]. destruct (Hin noteId note Hk) as [Hid Hj].
  split; [exact Hid|]. split; [exact Hj|].
  intros c n Hg. apply getNote_reply in Hg. destruct Hg as (_ & m' & Hc' & Hk').
  apply (Hu c caller m' m noteId); congruence.
Qed.

(** X9. [createNote], called by a user in a state the canister reaches,
    replies with a note that carries the data, the time of the call and
    the decimal text of the counter as identifier; no user had a note with
    that identifier; afterwards the caller gets the note by it and lists
    one note more, and every other answer of [getNote] and every other
    user's list are as before. *)
Theorem createNote_adds_a_note (s : Actor) (caller : Principal) (now : Z)
        (data : NoteData) :
  reachable s -> hasPermission (accessControlState s) caller user = true ->
  let note :=
    {| id := Nat_toText (nextNoteId s);
       title := data_title data;
       content := data_content data;
       encrypted := data_encrypted data;
       timestamp := now;
       imageRefs := data_imageRefs data |} in
  let s' := snd (createNote s caller now data) in
  fst (createNote s caller now data) = Reply note
  /\ nextNoteId s' = nextNoteId s + 1
  /\ (forall c n, getNote s c (id note) <> Reply n)
  /\ getNote s' caller (id note) = Reply note
  /\ (forall c k, c <> caller \/ k <> id note -> getNote s' c k = getNote s c k)
  /\ (forall c, c <> caller -> listNotes s' c = listNotes s c)
  /\ exists l l', listNotes s caller = Reply l
                  /\ listNotes s' caller = Reply l'
                  /\ Permutation l' (note :: l).
Proof.
  intros Hr Hp note s'. apply reachable_well_kept in Hr.
  assert (Hfree : forall c m, Map.get (emptyNotesMap s) c = Some m ->
                              Map.get m (id note) = None).
  { intros c m Hm. destruct (Map.get m (id note)) as [n|] eqn:E; [|reflexivity].
    destruct Hr as [Hk _]. destruct (Hk c m Hm) as [_ Hin].
    destruct (Hin _ n E) as [_ (j & Hj & Hkj)]. cbn [id note] in Hkj.
    apply Nat_toText_injective in Hkj. lia. }
  assert (Hs : exists m',
             s' = {| accessControlState := accessControlState s;
                     emptyNotesMap := Map.add (emptyNotesMap s) caller m';
                     userProfiles := userProfiles s;
                     nextNoteId := nextNoteId s + 1 |}
             /\ m' = Map.add (match Map.get (emptyNotesMap s) caller with
                              | Some m => m
                              | None => Map.empty
                              end) (id note) note).
  { subst s'. unfold createNote. rewrite Hp. cbn [negb snd].
    eexists. split; [reflexivity|].
    destruct (Map.get (emptyNotesMap s) caller); reflexivity. }
  destruct Hs as (m' & Hs & Hm').
  assert (Ha : accessControlState s' = accessControlState s) by now rewrite Hs.
  assert (Hn : emptyNotesMap s' = Map.add (emptyNotesMap s) caller m')
    by now rewrite Hs.
  split; [|split; [|split; [|split; [|split; [|split]]]]].
  - unfold createNote. now rewrite Hp.
  - now rewrite Hs.
  - intros c n Hg. apply getNote_reply in Hg. destruct Hg as (_ & m & Hc & Hk).
    rewrite (Hfree c m Hc) in Hk. discriminate.
  - rewrite (getNote_after s s' caller m' Ha Hn), Hp, String.eqb_refl.
    cbn [negb]. now rewrite Hm', MapFacts.get_add_same.
  - intros c k Hck. rewrite (getNote_after s s' caller m' Ha Hn).
    unfold getNote.
    destruct (negb (hasPermission (accessControlState s) c user));
      [reflexivity|].
    destruct (String.eqb_spec c caller) as [->|Hne]; [|reflexivity].
    destruct Hck as [Hc|Hk]; [contradiction|].
    rewrite Hm', MapFacts.get_add_other by exact Hk.
    destruct (Map.get (emptyNotesMap s) caller); reflexivity.
  - intros c Hc. rewrite (listNotes_after s s' caller m' Ha Hn).
    unfold listNotes.
    destruct (negb (hasPermission (accessControlState s) c user));
      [reflexivity|].
    now rewrite (eqb_other c caller Hc).
  - rewrite (listNotes_after s s' caller m' Ha Hn), Hp, String.eqb_refl.
    unfold listNotes. rewrite Hp. cbn [negb].
    destruct (Map.get (emptyNotesMap s) caller) as [m|] eqn:E.
    + do 2 eexists. split; [reflexivity|]. split; [reflexivity|].
      rewrite !ArrayFacts.sort_permutation, Hm', MapFacts.values_add.
      now rewrite (MapFacts.values_remove_absent m _ (Hfree caller m E)).
    + do 2 eexists. split; [reflexivity|]. split; [reflexivity|].
      rewrite !ArrayFacts.sort_permutation, Hm', MapFacts.values_add.
      reflexivity.
Qed.

(** X10. [updateNote] on a note the caller has replies with the note under
    the same identifier and with the same timestamp, the four fields of
    the data replaced; afterwards the caller gets that note by the
    identifier and lists it in place of the old one; the counter, every
    other answer of [getNote] and every other user's list are as
    before. *)
Theorem updateNote_replaces_the_data (s : Actor) (caller : Principal)
        (noteId : NoteId) (data : NoteData) (existing : Note) :
  reachable s -> getNote s caller noteId = Reply existing ->
  let updated :=
    {| id := id existing;
       title := data_title data;
       content := data_content data;
       encrypted := data_encrypted data;
       timestamp := timestamp existing;
       imageRefs := data_imageRefs data |} in
  let s' := snd (updateNote s caller noteId data) in
  fst (updateNote s caller noteId data) = Reply updated
  /\ id updated = noteId
  /\ nextNoteId s' = nextNoteId s
  /\ getNote s' caller noteId = Reply updated
  /\ (forall c k, c <> caller \/ k <> noteId -> getNote s' c k = getNote s c k)
  /\ (forall c, c <> caller -> listNotes s' c = listNotes s c)
  /\ exists l l' others, listNotes s caller = Reply l
                         /\ listNotes s' caller = Reply l'
                         /\ Permutation l (existing :: others)
                         /\ Permutation l' (updated :: others).
Proof.
  intros Hr Hg updated s'. apply reachable_well_kept in Hr.
  apply getNote_reply in Hg. destruct Hg as (Hp & m & Hc & Hk).
  destruct Hr as [Hm _]. destruct (Hm caller m Hc) as [Hd Hin].
  destruct (Hin noteId existing Hk) as [Hid _].
  assert (Hu : updateNote s caller noteId data =
               (Reply updated,
                {| accessControlState := accessControlState s;
                   emptyNotesMap :=
                     Map.add (emptyNotesMap s) caller
                             (Map.add m noteId updated);
                   userProfiles := userProfiles s;
                   nextNoteId := nextNoteId s |})).
  { unfold updateNote. now rewrite Hp, Hc, Hk. }
  assert (Ha : accessControlState s' = accessControlState s)
    by (subst s'; now rewrite Hu).
  assert (Hn : emptyNotesMap s'
               = Map.add (emptyNotesMap s) caller (Map.add m noteId updated))
    by (subst s'; now rewrite Hu).
  split; [|split; [|split; [|split; [|split; [|split]]]]].
  - now rewrite Hu.
  - exact Hid.
  - subst s'. now rewrite Hu.
  - rewrite (getNote_after s s' caller _ Ha Hn), Hp, String.eqb_refl.
    cbn [negb]. now rewrite MapFacts.get_add_same.
  - intros c k Hck. rewrite (getNote_after s s' caller _ Ha Hn).
    unfold getNote.
    destruct (negb (hasPermission (accessControlState s) c user));
      [reflexivity|].
    destruct (String.eqb_spec c caller) as [->|Hne]; [|reflexivity].
    destruct Hck as [Hc'|Hk']; [contradiction|].
    now rewrite MapFacts.get_add_other, Hc by exact Hk'.
  - intros c Hc'. rewrite (listNotes_after s s' caller _ Ha Hn).
    unfold listNotes.
    destruct (negb (hasPermission (accessControlState s) c user));
      [reflexivity|].
    now rewrite (eqb_other c caller Hc').
  - rewrite (listNotes_after s s' caller _ Ha Hn), Hp, String.eqb_refl.
    unfold listNotes. rewrite Hp, Hc. cbn [negb].
    exists (Array.sort (Map.values m) compareByTimestamp),
      (Array.sort (Map.values (Map.add m noteId updated)) compareByTimestamp),
      (Map.values (Map.remove m noteId)).
    split; [reflexivity|]. split; [reflexivity|].
    rewrite !ArrayFacts.sort_permutation. split.
    + now apply MapFacts.values_remove.
    + apply MapFacts.values_add.
Qed.

(** X11. [deleteNote] on a note the caller has replies; afterwards the
    caller's [getNote] traps on the identifier, the caller's list is the
    old one without the note, and every other answer of [getNote] and
    every other user's list are as before. *)
Theorem deleteNote_removes_the_note (s : Actor) (caller : Principal)
        (noteId : NoteId) (note : Note) :
  reachable s -> getNote s caller noteId = Reply note ->
  let s' := snd (deleteNote s caller noteId) in
  fst (deleteNote s caller noteId) = Reply tt
  /\ nextNoteId s' = nextNoteId s
  /\ getNote s' caller noteId = Trap "Note does not exist"
  /\ (forall c k, c <> caller \/ k <> noteId -> getNote s' c k = getNote s c k)
  /\ (forall c, c <> caller -> listNotes s' c = listNotes s c)
  /\ exists l l', listNotes s caller = Reply l
                  /\ listNotes s' caller = Reply l'
                  /\ Permutation l (note :: l').
Proof.
  intros Hr Hg s'. apply reachable_well_kept in Hr.
  apply getNote_reply in Hg. destruct Hg as (Hp & m & Hc & Hk).
  destruct Hr as [Hm _]. destruct (Hm caller m Hc) as [Hd _].
  assert (Hu : deleteNote s caller noteId =
               (Reply tt,
                {| accessControlState := accessControlState s;
                   emptyNotesMap :=
                     Map.add (emptyNotesMap s) caller (Map.remove m noteId);
                   userProfiles := userProfiles s;
                   nextNoteId := nextNoteId s |})).
  { unfold deleteNote. now rewrite Hp, Hc. }
  assert (Ha : accessControlState s' = accessControlState s)
    by (subst s'; now rewrite Hu).
  assert (Hn : emptyNotesMap s'
               = Map.add (emptyNotesMap s) caller (Map.remove m noteId))
    by (subst s'; now rewrite Hu).
  split; [|split; [|split; [|split; [|split]]]].
  - now rewrite Hu.
  - subst s'. now rewrite Hu.
  - rewrite (getNote_after s s' caller _ Ha Hn), Hp, String.eqb_refl.
    cbn [negb]. now rewrite MapFacts.get_remove_same.
  - intros c k Hck. rewrite (getNote_after s s' caller _ Ha Hn).
    unfold getNote.
    destruct (negb (hasPermission (accessControlState s) c user));
      [reflexivity|].
    destruct (String.eqb_spec c caller) as [->|Hne]; [|reflexivity].
    destruct Hck as [Hc'|Hk']; [contradiction|].
    now rewrite MapFacts.get_remove_other, Hc by exact Hk'.
  - intros c Hc'. rewrite (listNotes_after s s' caller _ Ha Hn).
    unfold listNotes.
    destruct (negb (hasPermission (accessControlState s) c user));
      [reflexivity|].
    now rewrite (eqb_other c caller Hc').
  - rewrite (listNotes_after s s' caller _ Ha Hn), Hp, String.eqb_refl.
    unfold listNotes. rewrite Hp, Hc. cbn [negb].
    do 2 eexists. split; [reflexivity|]. split; [reflexivity|].
    rewrite !ArrayFacts.sort_permutation.
    now apply MapFacts.values_remove.
Qed.

(** X12. A note the caller does not have: [updateNote] traps with the
    message of [getNote] and changes nothing. [deleteNote] traps in the
    same way when no map of notes is bound to the caller; when one is
    bound, even an empty one, it replies, and every answer of [getNote]
    and [listNotes] is as before. *)
Theorem missing_note (s : Actor) (caller : Principal) (noteId : NoteId)
        (data : NoteData) :
  hasPermission (accessControlState s) caller user = true ->
  getNote s caller noteId = Trap "Note does not exist" ->
  updateNote s caller noteId data = (Trap "Note does not exist", s)
  /\ match Map.get (emptyNotesMap s) caller with
     | None => deleteNote s caller noteId = (Trap "Note does not exist", s)
     | Some _ =>
         fst (deleteNote s caller noteId) = Reply tt
         /\ (forall c k, getNote (snd (deleteNote s caller noteId)) c k
                         = getNote s c k)
         /\ (forall c, listNotes (snd (deleteNote s caller noteId)) c
                       = listNotes s c)
     end.
Proof.
  intros Hp Hg. pose proof (getNote_missing s caller noteId Hp Hg) as Hnone.
  split.
  - unfold updateNote. rewrite Hp. cbn [negb].
    destruct (Map.get (emptyNotesMap s) caller) as [m|]; [|reflexivity].
    now rewrite (Hnone m).
  - destruct (Map.get (emptyNotesMap s) caller) as [m|] eqn:Hc.
    + assert (Hu : deleteNote s caller noteId =
                   (Reply tt,
                    {| accessControlState := accessControlState s;
                       emptyNotesMap := Map.add (emptyNotesMap s) caller m;
                       userProfiles := userProfiles s;
                       nextNoteId := nextNoteId s |})).
      { unfold deleteNote. rewrite Hp, Hc. cbn [negb].
        now rewrite (MapFacts.values_remove_absent m noteId (Hnone m eq_refl)). }
      rewrite Hu. cbn [fst snd]. set (s' := Build_Actor _ _ _ _).
      split; [reflexivity|]. split.
      * intros c k. rewrite (getNote_after s s' caller m eq_refl eq_refl).
        unfold getNote.
        destruct (negb (hasPermission (accessControlState s) c user));
          [reflexivity|].
        destruct (String.eqb_spec c caller) as [->|Hne]; [|reflexivity].
        now rewrite Hc.
      * intros c. rewrite (listNotes_after s s' caller m eq_refl eq_refl).
        unfold listNotes.
        destruct (negb (hasPermission (accessControlState s) c user));
          [reflexivity|].
        destruct (String.eqb_spec c caller) as [->|Hne]; [|reflexivity].
        now rewrite Hc.
    + unfold deleteNote. now rewrite Hp, Hc.
Qed.

(** X13. [listNotes] of a user, in a state the canister reaches, replies
    with the notes in the order of their timestamps, each identifier
    once; a note is in the list exactly when [getNote] replies with it on
    its identifier. A user without notes gets the empty list. *)
Theorem listNotes_lists_the_notes (s : Actor) (caller : Principal) :
  reachable s -> hasPermission (accessControlState s) caller user = true ->
  exists l, listNotes s caller = Reply l
            /\ by_timestamp l
            /\ NoDup (map id l)
            /\ forall n, In n l <-> getNote s caller (id n) = Reply n.
Proof.
  intros Hr Hp. apply reachable_well_kept in Hr. destruct Hr as [Hm _].
  unfold listNotes. rewrite Hp. cbn [negb].
  destruct (Map.get (emptyNotesMap s) caller) as [m|] eqn:Hc.
  - destruct (Hm caller m Hc) as [Hd Hin].
    exists (Array.sort (Map.values m) compareByTimestamp).
    split; [reflexivity|]. split; [apply (ArrayFacts.sort_sorted timestamp)|].
    assert (Hids : map id (Map.values m) = map fst m).
    { unfold Map.values. rewrite map_map. apply map_ext_in.
      intros [k n] Hkn. cbn [fst snd].
      apply (MapFacts.in_get m k n Hd) in Hkn. now destruct (Hin k n Hkn). }
    split.
    + apply (Permutation_NoDup (l := map id (Map.values m)));
        [|now rewrite Hids].
      apply Permutation_map. symmetry. apply ArrayFacts.sort_permutation.
    + intros n. rewrite getNote_reply.
      assert (Hperm : In n (Array.sort (Map.values m) compareByTimestamp)
                      <-> In n (Map.values m)).
      { split; apply Permutation_in;
          [|symmetry]; apply ArrayFacts.sort_permutation. }
      rewrite Hperm, MapFacts.in_values. split.
      * intros (k & Hkn). apply (MapFacts.in_get m k n Hd) in Hkn.
        destruct (Hin k n Hkn) as [Hid _]. split; [exact Hp|].
        exists m. split; [exact Hc|]. now rewrite Hid.
      * intros (_ & m' & Hc' & Hk). exists (id n).
        apply (MapFacts.in_get m (id n) n Hd). congruence.
  - exists []. split; [reflexivity|]. split; [constructor|].
    split; [constructor|]. intros n. rewrite getNote_reply. split.
    + intros [].
    + intros (_ & m' & Hc' & _). congruence.
Qed.

(** X14. [saveCallerUserProfile] by a user binds the profile to the
    caller: the caller reads it back, the profiles of the other users and
    all notes are as before. *)
Theorem saveCallerUserProfile_binds_the_profile
        (s : Actor) (caller : Principal) (profile : UserProfile) :
  hasPermission (accessControlState s) caller user = true ->
  let s' := snd (saveCallerUserProfile s caller profile) in
  fst (saveCallerUserProfile s caller profile) = Reply tt
  /\ getCallerUserProfile s' caller = Reply (Some profile)
  /\ getUserProfile s' caller caller = Reply (Some profile)
  /\ (forall c, c <> caller ->
                getCallerUserProfile s' c = getCallerUserProfile s c)
  /\ (forall c u, u <> caller -> getUserProfile s' c u = getUserProfile s c u)
  /\ (forall c k, getNote s' c k = getNote s c k)
  /\ (forall c, listNotes s' c = listNotes s c).
Proof.
  intros Hp s'. subst s'. unfold saveCallerUserProfile. rewrite Hp.
  cbn [negb fst snd].
  unfold getCallerUserProfile, getUserProfile, getNote, listNotes.
  cbn [accessControlState userProfiles emptyNotesMap].
  rewrite Hp, String.eqb_refl. cbn [negb andb].
  rewrite MapFacts.get_add_same.
  split; [reflexivity|]. split; [reflexivity|]. split; [reflexivity|].
  split; [|split; [|split; reflexivity]].
  - intros c Hc. now rewrite MapFacts.get_add_other by exact Hc.
  - intros c u Hu. now rewrite MapFacts.get_add_other by exact Hu.
Qed.

(** X22. Identifiers are never given twice: a note created after
    another one, by whichever user and whatever happened in between,
    deletions included, has another identifier. *)
Theorem identifiers_are_never_reused
        (s s' : Actor) (caller caller' : Principal) (now now' : Z)
        (data data' : NoteData) :
  hasPermission (accessControlState s) caller user = true ->
  hasPermission (accessControlState s') caller' user = true ->
  later (snd (createNote s caller now data)) s' ->
  exists note note',
    fst (createNote s caller now data) = Reply note
    /\ fst (createNote s' caller' now' data') = Reply note'
    /\ id note' <> id note.
Proof.
  intros Hp Hp' Hl. apply later_counter in Hl.
  unfold createNote in *. rewrite Hp in *. rewrite Hp'.
  cbn [negb fst snd nextNoteId] in *.
  do 2 eexists. split; [reflexivity|]. split; [reflexivity|].
  cbn [id]. intros He. apply Nat_toText_injective in He. lia.
Qed.

Lemma later_trans (a b c : Actor) : later a b -> later b c -> later a c.
Proof.
  intros Hab Hbc. induction Hbc; [exact Hab|..]; now constructor.
Qed.

(** One user's map is replaced by a map whose notes have the identifier
    and timestamp of notes the user had, or were just created. *)
Lemma created_by_step (s s2 : Actor) (c : Principal) (m' : Map.Map Note) :
  (forall x, later x s -> later x s2) ->
  emptyNotesMap s2 = Map.add (emptyNotesMap s) c m' ->
  (forall k n, Map.get m' k = Some n ->
     (exists m n0, Map.get (emptyNotesMap s) c = Some m
                   /\ Map.get m k = Some n0
                   /\ id n = id n0 /\ timestamp n = timestamp n0)
     \/ created_by c n s2) ->
  (forall c0 m k n, Map.get (emptyNotesMap s) c0 = Some m ->
                    Map.get m k = Some n -> created_by c0 n s) ->
  forall c0 m k n, Map.get (emptyNotesMap s2) c0 = Some m ->
                   Map.get m k = Some n -> created_by c0 n s2.
Proof.
  intros Hlater Hmap Hfrom IH c0 m k n Hm Hk.
  assert (Hold : forall n0, created_by c0 n0 s ->
                            id n = id n0 -> timestamp n = timestamp n0 ->
                            created_by c0 n s2).
  { intros n0 (s0 & now & data & created & Hr & Hc & Hl & Hid & Hts) Hi Ht.
    exists s0, now, data, created.
    split; [exact Hr|]. split; [exact Hc|]. split; [now apply Hlater|].
    split; congruence. }
  rewrite Hmap in Hm. destruct (String.eqb_spec c0 c) as [->|Hne].
  - rewrite MapFacts.get_add_same in Hm. injection Hm as <-.
    destruct (Hfrom k n Hk) as [(m0 & n0 & Hm0 & Hk0 & Hi & Ht)|Hnew];
      [|exact Hnew].
    apply (Hold n0); [|exact Hi|exact Ht]. now apply (IH c m0 k n0).
  - rewrite MapFacts.get_add_other in Hm by exact Hne.
    apply (Hold n); [|reflexivity|reflexivity]. now apply (IH c0 m k n).
Qed.

Lemma reachable_created_by (s : Actor) :
  reachable s ->
  forall c m k n, Map.get (emptyNotesMap s) c = Some m ->
                  Map.get m k = Some n -> created_by c n s.
Proof.
  unfold reachable.
  induction 1 as [|s access Hr IH|s caller profile Hr IH
                  |s caller now data Hr IH|s caller noteId data Hr IH
                  |s caller noteId Hr IH].
  - intros c m k n Hm. discriminate Hm.
  - intros c m k n Hm Hk.
    destruct (IH c m k n Hm Hk)
      as (s0 & now & data & created & H0 & Hc & Hl & Hi & Ht).
    exists s0, now, data, created. repeat split; try assumption.
    now constructor.
  - intros c m k n Hm Hk.
    assert (Hsame : emptyNotesMap (snd (saveCallerUserProfile s caller profile))
                    = emptyNotesMap s).
    { unfold saveCallerUserProfile.
      destruct (negb (hasPermission (accessControlState s) caller user));
        reflexivity. }
    rewrite Hsame in Hm.
    destruct (IH c m k n Hm Hk)
      as (s0 & now & data & created & H0 & Hc & Hl & Hi & Ht).
    exists s0, now, data, created. repeat split; try assumption.
    now constructor.
  - destruct (hasPermission (accessControlState s) caller user) eqn:Hp.
    + assert (Hs : exists m',
                 emptyNotesMap (snd (createNote s caller now data))
                 = Map.add (emptyNotesMap s) caller m'
                 /\ forall k n, Map.get m' k = Some n ->
                      (k = Nat_toText (nextNoteId s)
                       /\ fst (createNote s caller now data) = Reply n)
                      \/ exists m, Map.get (emptyNotesMap s) caller = Some m
                                   /\ Map.get m k = Some n).
      { unfold createNote. rewrite Hp. cbn [negb fst snd emptyNotesMap].
        eexists. split; [reflexivity|]. intros k n Hk.
        destruct (String.eqb_spec k (Nat_toText (nextNoteId s))) as [->|Hne].
        - left. split; [reflexivity|].
          destruct (Map.get (emptyNotesMap s) caller);
            rewrite MapFacts.get_add_same in Hk; congruence.
        - right. destruct (Map.get (emptyNotesMap s) caller) as [m|];
            rewrite MapFacts.get_add_other in Hk by exact Hne;
            [now exists m|discriminate]. }
      destruct Hs as (m' & Hmap & Hfrom).
      apply (created_by_step s _ caller m');
        [intros x Hx; now constructor|exact Hmap| |exact IH].
      intros k n Hk. destruct (Hfrom k n Hk) as [[_ Hc]|(m & Hm & Hkm)].
      * right. exists s, now, data, n.
        split; [exact Hr|]. split; [exact Hc|]. split; [constructor|].
        split; reflexivity.
      * left. exists m, n. repeat split; assumption.
    + intros c m k n Hm Hk.
      assert (Hsame : snd (createNote s caller now data) = s)
        by (unfold createNote; now rewrite Hp).
      rewrite Hsame in Hm.
      destruct (IH c m k n Hm Hk)
        as (s0 & now0 & data0 & created & H0 & Hc & Hl & Hi & Ht).
      exists s0, now0, data0, created. repeat split; try assumption.
      now constructor.
  - assert (Hcase : snd (updateNote s caller noteId data) = s
                    \/ exists m existing,
                         Map.get (emptyNotesMap s) caller = Some m
                         /\ Map.get m noteId = Some existing
                         /\ emptyNotesMap (snd (updateNote s caller noteId data))
                            = Map.add (emptyNotesMap s) caller
                                (Map.add m noteId
                                   {| id := id existing;
                                      title := data_title data;
                                      content := data_content data;
                                      encrypted := data_encrypted data;
                                      timestamp := timestamp existing;
                                      imageRefs := data_imageRefs data |})).
    { unfold updateNote.
      destruct (negb (hasPermission (accessControlState s) caller user));
        [now left|].
      destruct (Map.get (emptyNotesMap s) caller) as [m|]; [|now left].
      destruct (Map.get m noteId) as [existing|] eqn:En; [|now left].
      right. exists m, existing. repeat split. exact En. }
    destruct Hcase as [Hsame|(m0 & existing & Hm0 & Hk0 & Hmap)].
    + intros c m k n Hm Hk. rewrite Hsame in Hm.
      destruct (IH c m k n Hm Hk)
        as (s0 & now0 & data0 & created & H0 & Hc & Hl & Hi & Ht).
      exists s0, now0, data0, created. repeat split; try assumption.
      now constructor.
    + eapply (created_by_step s _ caller);
        [intros x Hx; now constructor|exact Hmap| |exact IH].
      intros k n Hk. left.
      destruct (String.eqb_spec k noteId) as [->|Hne].
      * rewrite MapFacts.get_add_same in Hk. injection Hk as <-.
        exists m0, existing. repeat split; assumption.
      * rewrite MapFacts.get_add_other in Hk by exact Hne.
        exists m0, n. repeat split; assumption.
  - assert (Hcase : snd (deleteNote s caller noteId) = s
                    \/ exists m,
                         Map.get (emptyNotesMap s) caller = Some m
                         /\ emptyNotesMap (snd (deleteNote s caller noteId))
                            = Map.add (emptyNotesMap s) caller
                                      (Map.remove m noteId)).
    { unfold deleteNote.
      destruct (negb (hasPermission (accessControlState s) caller user));
        [now left|].
      destruct (Map.get (emptyNotesMap s) caller) as [m|] eqn:Em; [|now left].
      right. exists m. split; reflexivity. }
    destruct Hcase as [Hsame|(m0 & Hm0 & Hmap)].
    + intros c m k n Hm Hk. rewrite Hsame in Hm.
      destruct (IH c m k n Hm Hk)
        as (s0 & now0 & data0 & created & H0 & Hc & Hl & Hi & Ht).
      exists s0, now0, data0, created. repeat split; try assumption.
      now constructor.
    + eapply (created_by_step s _ caller);
        [intros x Hx; now constructor|exact Hmap| |exact IH].
      intros k n Hk. left.
      destruct (String.eqb_spec k noteId) as [->|Hne].
      * now rewrite MapFacts.get_remove_same in Hk.
      * rewrite MapFacts.get_remove_other in Hk by exact Hne.
        exists m0, n. repeat split; assumption.
Qed.

(** X23. Whatever note [getNote] or [listNotes] gives a user, in a state
    the canister reaches, goes back to a call of [createNote] by that
    same user, and has the identifier and the timestamp it was created
    with, whatever calls came since. *)
Theorem notes_are_the_callers_own (s : Actor) (caller : Principal)
        (note : Note) :
  reachable s ->
  (exists noteId, getNote s caller noteId = Reply note)
  \/ (exists l, listNotes s caller = Reply l /\ In note l) ->
  created_by caller note s.
Proof.
  intros Hr Hg.
  assert (Hin : exists m k, Map.get (emptyNotesMap s) caller = Some m
                            /\ Map.get m k = Some note).
  { destruct Hg as [(noteId & Hg)|(l & Hl & Hin)].
    - apply getNote_reply in Hg. destruct Hg as (_ & m & Hm & Hk).
      now exists m, noteId.
    - unfold listNotes in Hl.
      destruct (negb (hasPermission (accessControlState s) caller user));
        [discriminate|].
      destruct (Map.get (emptyNotesMap s) caller) as [m|] eqn:Em.
      + injection Hl as <-.
        apply (Permutation_in _ (ArrayFacts.sort_permutation _ _)) in Hin.
        apply MapFacts.in_values in Hin. destruct Hin as [k Hin].
        exists m, k. split; [reflexivity|].
        apply reachable_well_kept in Hr. destruct Hr as [Hm _].
        destruct (Hm caller m Em) as [Hd _].
        now apply (MapFacts.in_get m k note Hd).
      + injection Hl as <-. destruct Hin. }
  destruct Hin as (m & k & Hm & Hk).
  now apply (reachable_created_by s Hr caller m k note).
Qed.

End MainFacts.

Lemma sample_actor_reachable :
  @Main.reachable Main.sample_imports Main.sample_actor.
Proof. apply Main.later_createNote, Main.later_mixin, Main.later_now. Qed.

Lemma note_identifiers_witness :
  Main.id Main.sample_note = "0"%string
  /\ (exists j, j < Main.nextNoteId Main.sample_actor
                /\ "0"%string = Nat_toText j)
  /\ forall c n, Main.getNote Main.sample_actor c "0"%string = Main.Reply n ->
                 c = Main.alice.
Proof.
  apply (@note_identifiers Main.sample_imports Main.sample_actor Main.alice
                           "0"%string Main.sample_note).
  - apply sample_actor_reachable.
  - reflexivity.
Defined.

Lemma createNote_adds_a_note_witness :
  fst (Main.createNote Main.sample_actor Main.bob 1700000100 Main.other_data)
  = Main.Reply
      {| Main.id := "1"%string;
         Main.title := "shopping"%string;
         Main.content := "milk and bread"%string;
         Main.encrypted := false;
         Main.timestamp := 1700000100;
         Main.imageRefs := Main.data_imageRefs Main.other_data |}.
Proof.
  exact (proj1 (@createNote_adds_a_note
                  Main.sample_imports Main.sample_actor Main.bob 1700000100
                  Main.other_data sample_actor_reachable eq_refl)).
Defined.

Lemma updateNote_replaces_the_data_witness :
  fst (Main.updateNote Main.sample_actor Main.alice "0"%string Main.other_data)
  = Main.Reply
      {| Main.id := "0"%string;
         Main.title := "shopping"%string;
         Main.content := "milk and bread"%string;
         Main.encrypted := false;
         Main.timestamp := 1700000000;
         Main.imageRefs := Main.data_imageRefs Main.other_data |}.
Proof.
  exact (proj1 (@updateNote_replaces_the_data
                  Main.sample_imports Main.sample_actor Main.alice "0"%string
                  Main.other_data Main.sample_note sample_actor_reachable
                  eq_refl)).
Defined.

Lemma deleteNote_removes_the_note_witness :
  fst (Main.deleteNote Main.sample_actor Main.alice "0"%string)
  = Main.Reply tt.
Proof.
  exact (proj1 (@deleteNote_removes_the_note
                  Main.sample_imports Main.sample_actor Main.alice "0"%string
                  Main.sample_note sample_actor_reachable eq_refl)).
Defined.

Lemma missing_note_witness :
  Main.updateNote Main.sample_actor Main.alice "7"%string Main.other_data
  = (Main.Trap "Note does not exist", Main.sample_actor)
  /\ Main.deleteNote Main.sample_actor Main.bob "0"%string
     = (Main.Trap "Note does not exist", Main.sample_actor).
Proof.
  split.
  - exact (proj1 (@missing_note Main.sample_imports Main.sample_actor
                                Main.alice "7"%string Main.other_data
                                eq_refl eq_refl)).
  - exact (proj2 (@missing_note Main.sample_imports Main.sample_actor
                                Main.bob "0"%string Main.other_data
                                eq_refl eq_refl)).
Defined.

Lemma listNotes_lists_the_notes_witness :
  exists l, Main.listNotes Main.sample_actor Main.alice = Main.Reply l
            /\ Main.by_timestamp l
            /\ NoDup (map Main.id l)
            /\ forall n, In n l <->
                         Main.getNote Main.sample_actor Main.alice (Main.id n)
                         = Main.Reply n.
Proof.
  apply (@listNotes_lists_the_notes Main.sample_imports Main.sample_actor
                                    Main.alice).
  - apply sample_actor_reachable.
  - reflexivity.
Defined.

Lemma saveCallerUserProfile_binds_the_profile_witness :
  fst (Main.saveCallerUserProfile Main.sample_actor Main.bob
                                  {| Main.name := "Bob"%string |})
  = Main.Reply tt.
Proof.
  exact (proj1 (@saveCallerUserProfile_binds_the_profile
                  Main.sample_imports Main.sample_actor Main.bob
                  {| Main.name := "Bob"%string |} eq_refl)).
Defined.

Lemma identifiers_are_never_reused_witness :
  exists note note',
    fst (Main.createNote Main.admitted Main.alice 1700000000 Main.sample_data)
    = Main.Reply note
    /\ fst (Main.createNote
              (snd (Main.deleteNote Main.sample_actor Main.alice "0"%string))
              Main.bob 1700000100 Main.other_data) = Main.Reply note'
    /\ Main.id note' <> Main.id note.
Proof.
  apply (@identifiers_are_never_reused
           Main.sample_imports Main.admitted
           (snd (Main.deleteNote Main.sample_actor Main.alice "0"%string))
           Main.alice Main.bob 1700000000 1700000100
           Main.sample_data Main.other_data).
  - reflexivity.
  - reflexivity.
  - apply Main.later_deleteNote, Main.later_now.
Defined.

Lemma notes_are_the_callers_own_witness :
  Main.created_by Main.alice Main.sample_note Main.sample_actor.
Proof.
  apply (@notes_are_the_callers_own Main.sample_imports Main.sample_actor
                                    Main.alice Main.sample_note).
  - apply sample_actor_reachable.
  - left. exists "0"%string. reflexivity.
Defined.

(* ------------------------------------------------------------------ *)
(** ** The components: opening a note *)

Section Opening.
Import backend.
Variable getBytes : ExternalBlob -> result bytes.

(** The loop ends without a failure exactly when every image decrypts. *)
Lemma decrypt_images_all (refs : list ExternalBlob) (w : jsstring)
      (images : list bytes) :
  decrypt_images getBytes refs w = (images, None) <->
  Forall2 (fun imageRef image =>
             bind (getBytes imageRef) (fun e => decryptImage e w) = Ok image)
          refs images.
Proof.
  revert images. induction refs as [|ref rest IH]; intros images;
    cbn [decrypt_images].
  - split.
    + intros [= <-]. constructor.
    + intros H. inversion H. reflexivity.
  - destruct (bind (getBytes ref) (fun e => decryptImage e w)) as [b|e] eqn:E.
    + destruct (decrypt_images getBytes rest w) as [more failure] eqn:Er.
      split.
      * intros [= <- ->]. constructor; [exact E|]. now apply IH.
      * intros H. inversion H as [|? b' ? more' Hb Hm]; subst.
        apply IH in Hm. congruence.
    + split; [discriminate|]. intros H. inversion H; subst. congruence.
Qed.

Lemma opens_unique (note : Note) (w text text' : jsstring)
      (images images' : list bytes) :
  opens getBytes note w text images -> opens getBytes note w text' images' ->
  text' = text /\ images' = images.
Proof.
  intros [Ht Hi] [Ht' Hi']. split; [congruence|].
  apply decrypt_images_all in Hi, Hi'. congruence.
Qed.

(** What [handleDecrypt] makes of a note that opens. *)
Lemma handleDecrypt_opens (note : Note) (s : NoteDetailModal.State)
      (w text : jsstring) (images : list bytes) :
  NoteDetailModal.decryptPassword s = w -> w <> [] ->
  opens getBytes note w text images ->
  NoteDetailModal.handleDecrypt getBytes note s =
  {| NoteDetailModal.after :=
       {| NoteDetailModal.selectedImage := NoteDetailModal.selectedImage s;
          NoteDetailModal.decryptPassword := w;
          NoteDetailModal.decryptedContent := Some text;
          NoteDetailModal.decryptedImages := Some images;
          NoteDetailModal.decryptedImageUrls := map createObjectURL images;
          NoteDetailModal.decryptError := "";
          NoteDetailModal.isDecrypting := false;
          NoteDetailModal.objectUrlsRef := map createObjectURL images |};
     NoteDetailModal.created := map createObjectURL images;
     NoteDetailModal.revoked := NoteDetailModal.objectUrlsRef s |}.
Proof.
  intros Hs Hw [Ht Hi]. apply decrypt_images_all in Hi.
  unfold NoteDetailModal.handleDecrypt. rewrite Hs.
  destruct w as [|c w]; [congruence|].
  rewrite Ht, Hi. reflexivity.
Qed.

Lemma handleDecrypt_refuses (note : Note) (s : NoteDetailModal.State) :
  NoteDetailModal.decryptPassword s <> [] ->
  (forall text images,
      ~ opens getBytes note (NoteDetailModal.decryptPassword s) text images) ->
  NoteDetailModal.after (NoteDetailModal.handleDecrypt getBytes note s)
  = NoteDetailModal.refused s.
Proof.
  intros Hw Hno. unfold NoteDetailModal.handleDecrypt.
  destruct (NoteDetailModal.decryptPassword s) as [|c w] eqn:Ew; [congruence|].
  destruct (decryptContent (content note) (c :: w)) as [text|e] eqn:Ht;
    [|reflexivity].
  destruct (decrypt_images getBytes (imageRefs note) (c :: w))
    as [images [e|]] eqn:Ei; [reflexivity|].
  exfalso. apply (Hno text images). split; [exact Ht|].
  now apply decrypt_images_all.
Qed.

(** X15. [handleDecrypt] of the detail view shows all of a note or
    nothing. With no password typed in it sets the error "Please enter a
    password" and does nothing else. With a password, either the content
    and every image decrypt under it, and the state then holds exactly
    that text and those images, in order, with an object URL for each and
    no error; or something does not decrypt, and the state holds no text,
    no image, no URL, and the error "Incorrect password". *)
Theorem handleDecrypt_all_or_nothing (note : Note) (s : NoteDetailModal.State) :
  let o := NoteDetailModal.handleDecrypt getBytes note s in
  let s' := NoteDetailModal.after o in
  match NoteDetailModal.decryptPassword s with
  | [] =>
      NoteDetailModal.decryptError s' = "Please enter a password"%string
      /\ NoteDetailModal.decryptedContent s' = NoteDetailModal.decryptedContent s
      /\ NoteDetailModal.decryptedImages s' = NoteDetailModal.decryptedImages s
      /\ NoteDetailModal.decryptedImageUrls s'
         = NoteDetailModal.decryptedImageUrls s
      /\ NoteDetailModal.created o = [] /\ NoteDetailModal.revoked o = []
  | w =>
      (exists text images,
          opens getBytes note w text images
          /\ NoteDetailModal.decryptedContent s' = Some text
          /\ NoteDetailModal.decryptedImages s' = Some images
          /\ NoteDetailModal.decryptedImageUrls s' = map createObjectURL images
          /\ NoteDetailModal.decryptError s' = ""%string)
      \/ ((forall text images, ~ opens getBytes note w text images)
          /\ NoteDetailModal.decryptedContent s' = None
          /\ NoteDetailModal.decryptedImages s' = None
          /\ NoteDetailModal.decryptedImageUrls s' = []
          /\ NoteDetailModal.decryptError s' = "Incorrect password"%string)
  end.
Proof.
  intros o s'.
  destruct (NoteDetailModal.decryptPassword s) as [|c w0] eqn:Ew.
  - subst s' o. unfold NoteDetailModal.handleDecrypt. rewrite Ew.
    repeat split.
  - assert (Hw : NoteDetailModal.decryptPassword s <> []) by congruence.
    rewrite <- Ew.
    destruct (decryptContent (content note) (NoteDetailModal.decryptPassword s))
      as [text|e] eqn:Ht.
    + destruct (decrypt_images getBytes (imageRefs note)
                               (NoteDetailModal.decryptPassword s))
        as [images [e|]] eqn:Ei.
      * right.
        assert (Hno : forall text' images',
                   ~ opens getBytes note (NoteDetailModal.decryptPassword s)
                           text' images').
        { intros text' images' [_ Hi]. apply decrypt_images_all in Hi.
          congruence. }
        split; [exact Hno|]. subst s' o.
        rewrite (handleDecrypt_refuses note s Hw Hno). repeat split.
      * left. exists text, images.
        assert (Ho : opens getBytes note (NoteDetailModal.decryptPassword s)
                           text images)
          by (split; [exact Ht|now apply decrypt_images_all]).
        split; [exact Ho|]. subst s' o.
        rewrite (handleDecrypt_opens note s _ text images eq_refl Hw Ho).
        repeat split.
    + right.
      assert (Hno : forall text' images',
                 ~ opens getBytes note (NoteDetailModal.decryptPassword s)
                         text' images').
      { intros text' images' [Ht' _]. congruence. }
      split; [exact Hno|]. subst s' o.
      rewrite (handleDecrypt_refuses note s Hw Hno). repeat split.
Qed.

End Opening.

(* ------------------------------------------------------------------ *)
(** ** The components: saving a note *)

Section Saving.
Import backend.




Lemma upload_new_value (files : list File) (news : list bytes) :
  Forall2 (fun f b => arrayBuffer f = Ok b) files news ->
  NoteFormModal.upload_new files = Ok (map fromBytes news).
Proof.
  induction 1 as [|f b files news Hf _ IH]; [reflexivity|].
  cbn [NoteFormModal.upload_new]. now rewrite Hf, bind_Ok, IH.
Qed.


(** The data of a note that is not encrypted, or has no password. *)
Lemma noteData_clear (s : NoteFormModal.State) (d : NoteFormModal.Draws)
      (news : list bytes) :
  NoteFormModal.isEncrypted s = false \/ NoteFormModal.password s = [] ->
  Forall2 (fun f b => arrayBuffer f = Ok b) (NoteFormModal.newImageFiles s) news ->
  NoteFormModal.noteData s d =
  Ok {| data_title := trim (NoteFormModal.title s);
        data_content := NoteFormModal.content s;
        data_imageRefs := NoteFormModal.existingImages s ++ map fromBytes news;
        data_encrypted := NoteFormModal.isEncrypted s |}.
Proof.
  intros Hc Hf. unfold NoteFormModal.noteData.
  assert (Hb : NoteFormModal.isEncrypted s
               && match NoteFormModal.password s with
                  | [] => false
                  | _ :: _ => true
                  end = false).
  { destruct Hc as [-> | ->]; [reflexivity|apply andb_false_r]. }
  rewrite Hb. cbv iota.
  rewrite bind_Ok, (upload_new_value _ _ Hf), bind_Ok, bind_Ok. reflexivity.
Qed.

Lemma handleSubmit_requests (p : NoteFormModal.Props) (d : NoteFormModal.Draws)
      (s : NoteFormModal.State) (data : NoteData) :
  NoteFormModal.validateForm p s = [] ->
  NoteFormModal.noteData s d = Ok data ->
  NoteFormModal.handleSubmit p true d s =
  (NoteFormModal.setErrors [] s,
   NoteFormModal.Requested
     match NoteFormModal.note p with
     | Some n => NoteFormModal.updateNote (id n) data
     | None => NoteFormModal.createNote data
     end).
Proof.
  intros Hv Hd. unfold NoteFormModal.handleSubmit. rewrite Hv, Hd.
  cbn [negb]. destruct (NoteFormModal.note p); reflexivity.
Qed.



End Saving.

(* ------------------------------------------------------------------ *)
(** ** The components: editing a note *)

Section Editing.
Import backend.

Lemma app_nil_parts {A : Type} (a b c d : list A) :
  a ++ b ++ c ++ d = [] -> a = [] /\ b = [] /\ c = [] /\ d = [].
Proof.
  intros H. apply app_eq_nil in H. destruct H as [Ha H].
  apply app_eq_nil in H. destruct H as [Hb H].
  apply app_eq_nil in H. tauto.
Qed.

Lemma jsstring_eqb_refl (a : jsstring) : jsstring_eqb a a = true.
Proof.
  unfold jsstring_eqb. rewrite Nat.eqb_refl. cbn [andb].
  induction a as [|c a IH]; [reflexivity|].
  cbn [startsWith]. unfold cu_eqb. now rewrite N.eqb_refl, IH.
Qed.

(** What the form checks of a note that is being edited: the title and
    the content are not blank and the note, if encrypted, was decrypted. *)
Lemma validateForm_editing (n : Note) (s : NoteFormModal.State) :
  trim (NoteFormModal.title s) <> [] ->
  trim (NoteFormModal.content s) <> [] ->
  encrypted n && negb (NoteFormModal.isDecrypted s) = false ->
  NoteFormModal.validateForm (NotesDashboard.form (Some n)) s = [].
Proof.
  intros Ht Hc Hd. unfold NoteFormModal.validateForm.
  cbn [NoteFormModal.isEditing NotesDashboard.form NoteFormModal.note negb].
  rewrite andb_false_r. cbn [andb]. rewrite Hd.
  destruct (trim (NoteFormModal.title s)); [congruence|].
  destruct (trim (NoteFormModal.content s)); [congruence|].
  reflexivity.
Qed.

(** X17. Encryption switched on without a password. The form accepts this
    only for a note that is being edited, where it asks for no password;
    [handleSubmit] then requests the note with its content in clear and
    the flag set. A content of fewer than 59 code units stored this way
    is refused by [handleDecrypt] whatever password is typed. *)
Theorem encrypting_without_password
        (p : NoteFormModal.Props) (d : NoteFormModal.Draws)
        (s : NoteFormModal.State) (news : list bytes) :
  NoteFormModal.validateForm p s = [] ->
  NoteFormModal.isEncrypted s = true -> NoteFormModal.password s = [] ->
  Forall2 (fun f b => arrayBuffer f = Ok b) (NoteFormModal.newImageFiles s) news ->
  let data :=
    {| data_title := trim (NoteFormModal.title s);
       data_content := NoteFormModal.content s;
       data_imageRefs := NoteFormModal.existingImages s ++ map fromBytes news;
       data_encrypted := true |} in
  exists n,
    NoteFormModal.note p = Some n
    /\ NoteFormModal.handleSubmit p true d s
       = (NoteFormModal.setErrors [] s,
          NoteFormModal.Requested (NoteFormModal.updateNote (id n) data))
    /\ ((length (NoteFormModal.content s) < 59)%nat ->
        forall getBytes ts st,
          NoteDetailModal.decryptPassword st <> [] ->
          NoteDetailModal.after
            (NoteDetailModal.handleDecrypt
               getBytes (NoteFormModal.stored (id n) ts data) st)
          = NoteDetailModal.refused st).
Proof.
  intros Hv He Hw Hf data.
  assert (Hn : exists n, NoteFormModal.note p = Some n).
  { unfold NoteFormModal.validateForm in Hv.
    apply app_nil_parts in Hv. destruct Hv as (_ & _ & Hv & _).
    rewrite He, Hw in Hv. unfold NoteFormModal.isEditing in Hv.
    destruct (NoteFormModal.note p) as [n|]; [now exists n|].
    discriminate Hv. }
  destruct Hn as [n Hn]. exists n. split; [exact Hn|].
  assert (Hd : NoteFormModal.noteData s d = Ok data).
  { rewrite (noteData_clear s d news (or_intror Hw) Hf), He. reflexivity. }
  split.
  - rewrite (handleSubmit_requests p d s data Hv Hd), Hn. reflexivity.
  - intros Hl getBytes ts st Hst. apply handleDecrypt_refuses; [exact Hst|].
    intros text images [Ht _].
    cbn [NoteFormModal.stored content data data_content] in Ht.
    rewrite decryptContent_short_text in Ht by exact Hl. discriminate Ht.
Qed.

(** What [handleDecryptForEdit] makes of a note that opens. *)
Lemma handleDecryptForEdit_opens (getBytes : ExternalBlob -> result bytes)
      (n : Note) (s : NoteFormModal.State) (w text : jsstring)
      (images : list bytes) :
  NoteFormModal.decryptPassword s = w -> w <> [] ->
  opens getBytes n w text images ->
  NoteFormModal.after (NoteFormModal.handleDecryptForEdit getBytes n s) =
  NoteFormModal.setErrors []
    match imageRefs n with
    | [] => NoteFormModal.decrypted_for_edit text s
    | _ :: _ =>
        NoteFormModal.with_decrypted_images
          images (NoteFormModal.decrypted_for_edit text s)
    end.
Proof.
  intros Hs Hw [Ht Hi]. apply decrypt_images_all in Hi.
  unfold NoteFormModal.handleDecryptForEdit. rewrite Hs.
  destruct w as [|c w]; [congruence|]. rewrite Ht.
  destruct (imageRefs n) as [|ref refs]; [reflexivity|].
  rewrite Hi. reflexivity.
Qed.

Lemma mounted_encrypted (n : Note) :
  encrypted n = true ->
  NoteFormModal.mounted (NotesDashboard.form (Some n)) =
  {| NoteFormModal.title := title n;
     NoteFormModal.content := content n;
     NoteFormModal.isEncrypted := true;
     NoteFormModal.password := [];
     NoteFormModal.confirmPassword := [];
     NoteFormModal.existingImages := [];
     NoteFormModal.decryptedExistingImages := [];
     NoteFormModal.decryptedExistingPreviews := [];
     NoteFormModal.newImageFiles := [];
     NoteFormModal.newImagePreviews := [];
     NoteFormModal.uploadProgress := [];
     NoteFormModal.useTextImport := false;
     NoteFormModal.errors := [];
     NoteFormModal.isDecrypted := false;
     NoteFormModal.decryptPassword := [];
     NoteFormModal.decryptedPreviewUrlsRef := [] |}.
Proof.
  intros He. unfold NoteFormModal.mounted.
  cbn [NotesDashboard.form NoteFormModal.note
       NoteFormModal.initialDecryptedContent].
  rewrite He. reflexivity.
Qed.

(** The form on an encrypted note after the decrypt step. *)
Lemma decrypted_form (getBytes : ExternalBlob -> result bytes)
      (n : Note) (w text : jsstring) (images : list bytes) :
  encrypted n = true -> w <> [] -> opens getBytes n w text images ->
  NoteFormModal.after
    (NoteFormModal.handleDecryptForEdit
       getBytes n
       (NoteFormModal.typed w
          (NoteFormModal.mounted (NotesDashboard.form (Some n)))))
  = {| NoteFormModal.title := title n;
       NoteFormModal.content := text;
       NoteFormModal.isEncrypted := true;
       NoteFormModal.password := w;
       NoteFormModal.confirmPassword := w;
       NoteFormModal.existingImages := [];
       NoteFormModal.decryptedExistingImages := images;
       NoteFormModal.decryptedExistingPreviews := map createObjectURL images;
       NoteFormModal.newImageFiles := [];
       NoteFormModal.newImagePreviews := [];
       NoteFormModal.uploadProgress := [];
       NoteFormModal.useTextImport := false;
       NoteFormModal.errors := [];
       NoteFormModal.isDecrypted := true;
       NoteFormModal.decryptPassword := w;
       NoteFormModal.decryptedPreviewUrlsRef := map createObjectURL images |}.
Proof.
  intros He Hw Ho.
  rewrite (handleDecryptForEdit_opens
             getBytes n
             (NoteFormModal.typed
                w (NoteFormModal.mounted (NotesDashboard.form (Some n))))
             w text images eq_refl Hw Ho).
  rewrite (mounted_encrypted n He).
  destruct Ho as [_ Hi].
  destruct (imageRefs n) as [|ref refs]; [|reflexivity].
  inversion Hi. reflexivity.
Qed.


(** X19. Encryption switched off while editing an encrypted note. After
    the decrypt step, with the switch turned off, [handleSubmit] requests
    the note with the decrypted text in clear, the flag unset and no
    image: the images the note had are not part of the request. *)
Theorem switching_encryption_off
        (getBytes : ExternalBlob -> result bytes) (n : Note)
        (d : NoteFormModal.Draws) (w text : jsstring) (images : list bytes) :
  encrypted n = true -> w <> [] -> opens getBytes n w text images ->
  trim (title n) <> [] -> trim text <> [] ->
  let s :=
    NoteFormModal.setIsEncrypted false
      (NoteFormModal.after
         (NoteFormModal.handleDecryptForEdit
            getBytes n
            (NoteFormModal.typed w
               (NoteFormModal.mounted (NotesDashboard.form (Some n)))))) in
  NoteFormModal.decryptedExistingImages s = images
  /\ NoteFormModal.handleSubmit (NotesDashboard.form (Some n)) true d s
     = (NoteFormModal.setErrors [] s,
        NoteFormModal.Requested
          (NoteFormModal.updateNote
             (id n)
             {| data_title := trim (title n);
                data_content := text;
                data_imageRefs := [];
                data_encrypted := false |})).
Proof.
  intros He Hw Ho Ht Hc s. subst s.
  rewrite (decrypted_form getBytes n w text images He Hw Ho).
  unfold NoteFormModal.setIsEncrypted at 1 2.
  cbn [NoteFormModal.title NoteFormModal.content NoteFormModal.isEncrypted
       NoteFormModal.password NoteFormModal.confirmPassword
       NoteFormModal.existingImages NoteFormModal.decryptedExistingImages
       NoteFormModal.decryptedExistingPreviews NoteFormModal.newImageFiles
       NoteFormModal.newImagePreviews NoteFormModal.uploadProgress
       NoteFormModal.useTextImport NoteFormModal.errors
       NoteFormModal.isDecrypted NoteFormModal.decryptPassword
       NoteFormModal.decryptedPreviewUrlsRef].
  set (s := NoteFormModal.Build_State _ _ _ _ _ _ _ _ _ _ _ _ _ _ _ _).
  split; [reflexivity|].
  assert (Hv : NoteFormModal.validateForm (NotesDashboard.form (Some n)) s = []).
  { apply validateForm_editing; [exact Ht|exact Hc|apply andb_false_r]. }
  assert (Hd : NoteFormModal.noteData s d
               = Ok {| data_title := trim (title n);
                       data_content := text;
                       data_imageRefs := [];
                       data_encrypted := false |}).
  { rewrite (noteData_clear s d [] (or_introl eq_refl) (Forall2_nil _)).
    reflexivity. }
  rewrite (handleSubmit_requests _ d s _ Hv Hd). reflexivity.
Qed.


End Editing.

(* ------------------------------------------------------------------ *)
(** ** The components: the files of the form *)

Section Files.
Import backend.
Variable readAsDataURL : File -> result jsstring.

Lemma process_files_valid (files : list File) :
  match NoteFormModal.process_files readAsDataURL files with
  | (validFiles, previews, _, None) =>
      Forall (fun f => valid (validateImageFile f) = true) validFiles
      /\ Forall2 (fun f u => createImagePreview readAsDataURL f = Ok u)
                 validFiles previews
  | (_, _, _, Some _) => True
  end.
Proof.
  induction files as [|file rest IH]; cbn [NoteFormModal.process_files].
  - split; constructor.
  - destruct (valid (validateImageFile file)) eqn:Ev; cbn [negb].
    + destruct (createImagePreview readAsDataURL file) as [u|e] eqn:Eu;
        [|exact I].
      destruct (NoteFormModal.process_files readAsDataURL rest)
        as [[[vf pv] sh] [e|]]; [exact I|].
      destruct IH as [Hv Hp]. split; constructor; assumption.
    + destruct (NoteFormModal.process_files readAsDataURL rest)
        as [[[vf pv] sh] [e|]]; [exact I|exact IH].
Qed.

Lemma paste_items_valid (items : list NoteFormModal.DataTransferItem)
      (index : nat) (now : nat -> N) :
  match NoteFormModal.paste_items readAsDataURL items index now with
  | (validFiles, previews, _, None) =>
      Forall (fun f => valid (validateImageFile f) = true) validFiles
      /\ Forall2 (fun f u => createImagePreview readAsDataURL f = Ok u)
                 validFiles previews
  | (_, _, _, Some _) => True
  end.
Proof.
  revert index. induction items as [|item rest IH]; intros index;
    cbn [NoteFormModal.paste_items].
  - split; constructor.
  - destruct (NoteFormModal.getAsFile item) as [file|]; [|apply IH].
    set (namedFile := new_File file _ _).
    destruct (valid (validateImageFile namedFile)) eqn:Ev; cbn [negb].
    + destruct (createImagePreview readAsDataURL namedFile) as [u|e] eqn:Eu;
        [|exact I].
      specialize (IH (S index)).
      destruct (NoteFormModal.paste_items readAsDataURL rest (S index) now)
        as [[[vf pv] sh] [e|]]; [exact I|].
      destruct IH as [Hv Hp]. split; constructor; assumption.
    + specialize (IH (S index)).
      destruct (NoteFormModal.paste_items readAsDataURL rest (S index) now)
        as [[[vf pv] sh] [e|]]; [exact I|exact IH].
Qed.

Lemma without_index_Forall {A : Type} (P : A -> Prop) (index : nat)
      (l : list A) :
  Forall P l -> Forall P (NoteFormModal.without_index index l).
Proof.
  intros H. revert index.
  induction H as [|x l Hx Hl IH]; intros [|i];
    cbn [NoteFormModal.without_index]; auto.
Qed.

Lemma without_index_Forall2 {A B : Type} (R : A -> B -> Prop) (index : nat)
      (a : list A) (b : list B) :
  Forall2 R a b ->
  Forall2 R (NoteFormModal.without_index index a)
          (NoteFormModal.without_index index b).
Proof.
  intros H. revert index.
  induction H as [|x y a b Hxy Hab IH]; intros [|i];
    cbn [NoteFormModal.without_index]; auto.
Qed.

Lemma mounted_no_new_files (p : NoteFormModal.Props) :
  NoteFormModal.newImageFiles (NoteFormModal.mounted p) = []
  /\ NoteFormModal.newImagePreviews (NoteFormModal.mounted p) = [].
Proof.
  unfold NoteFormModal.mounted.
  destruct (NoteFormModal.note p) as [n|]; [|split; reflexivity].
  destruct (encrypted n);
    [destruct (NoteFormModal.initialDecryptedContent p)|];
    split; reflexivity.
Qed.

(** The files the form holds have passed [validateImageFile], and each
    preview is the preview of the file at the same index. *)
Lemma selecting_valid (p : NoteFormModal.Props) (s : NoteFormModal.State) :
  NoteFormModal.selecting readAsDataURL p s ->
  Forall (fun f => valid (validateImageFile f) = true)
         (NoteFormModal.newImageFiles s)
  /\ Forall2 (fun f u => createImagePreview readAsDataURL f = Ok u)
             (NoteFormModal.newImageFiles s) (NoteFormModal.newImagePreviews s).
Proof.
  induction 1 as [|s files _ IH|s items now _ IH|s index _ IH
                  |s s' _ IH Hf Hp].
  - destruct (mounted_no_new_files p) as [-> ->]. split; constructor.
  - unfold NoteFormModal.processImageFiles.
    pose proof (process_files_valid files) as Hv.
    destruct (NoteFormModal.process_files readAsDataURL files)
      as [[[vf pv] sh] [e|]]; [exact IH|].
    cbn [NoteFormModal.selected NoteFormModal.with_new_images
         NoteFormModal.newImageFiles NoteFormModal.newImagePreviews].
    destruct IH as [IH1 IH2]. destruct Hv as [Hv1 Hv2]. split.
    + apply Forall_app. split; assumption.
    + now apply Forall2_app.
  - unfold NoteFormModal.handlePaste.
    destruct items as [items|]; [|exact IH].
    destruct (filter _ items) as [|item imageItems]; [exact IH|].
    pose proof (paste_items_valid (item :: imageItems) 0 now) as Hv.
    destruct (NoteFormModal.paste_items readAsDataURL (item :: imageItems) 0 now)
      as [[[vf pv] sh] [e|]]; [destruct vf; exact IH|].
    destruct vf as [|f vf]; [exact IH|].
    cbn [NoteFormModal.selected NoteFormModal.with_new_images
         NoteFormModal.newImageFiles NoteFormModal.newImagePreviews].
    destruct IH as [IH1 IH2]. destruct Hv as [Hv1 Hv2]. split.
    + apply Forall_app. split; assumption.
    + now apply Forall2_app.
  - unfold NoteFormModal.handleRemoveNewImage.
    cbn [NoteFormModal.with_new_images NoteFormModal.newImageFiles
         NoteFormModal.newImagePreviews].
    destruct IH as [IH1 IH2]. split.
    + now apply without_index_Forall.
    + now apply without_index_Forall2.
  - rewrite Hf, Hp. exact IH.
Qed.

Lemma valid_file (f : File) :
  valid (validateImageFile f) = true ->
  In (file_type f) ALLOWED_IMAGE_TYPES /\ file_size f <= 10485760.
Proof.
  unfold validateImageFile.
  destruct (existsb (jsstring_eqb (file_type f)) ALLOWED_IMAGE_TYPES) eqn:Et;
    cbn [negb]; [|discriminate].
  destruct (MAX_FILE_SIZE <? file_size f) eqn:Es; [discriminate|].
  intros _. split.
  - apply existsb_exists in Et. destruct Et as (t & Hin & Heq).
    enough (file_type f = t) by congruence.
    unfold jsstring_eqb in Heq. apply andb_true_iff in Heq.
    destruct Heq as [Hl Hs]. apply Nat.eqb_eq in Hl.
    clear Hin. revert t Hl Hs.
    induction (file_type f) as [|c a IH]; intros [|d t] Hl Hs;
      cbn [length] in Hl; try lia; [reflexivity|].
    cbn [startsWith] in Hs. apply andb_true_iff in Hs. destruct Hs as [Hc Hs].
    unfold cu_eqb in Hc. apply N.eqb_eq in Hc.
    rewrite <- (cu_of_N_val c), <- (cu_of_N_val d), Hc.
    f_equal. apply IH; [lia|exact Hs].
  - apply N.ltb_ge in Es. exact Es.
Qed.

Lemma upload_new_inversion (files : list File) (blobs : list ExternalBlob) :
  NoteFormModal.upload_new files = Ok blobs ->
  exists news, blobs = map fromBytes news
               /\ Forall2 (fun f b => arrayBuffer f = Ok b) files news.
Proof.
  revert blobs. induction files as [|f files IH]; intros blobs;
    cbn [NoteFormModal.upload_new].
  - intros [= <-]. exists []. split; [reflexivity|constructor].
  - destruct (arrayBuffer f) as [b|e] eqn:Ef; [|discriminate].
    rewrite bind_Ok.
    destruct (NoteFormModal.upload_new files) as [more|e]; [|discriminate].
    rewrite bind_Ok. intros [= <-].
    destruct (IH more eq_refl) as (news & -> & Hn).
    exists (b :: news). split; [reflexivity|]. now constructor.
Qed.

(** X24. The form holds no file that [validateImageFile] does not accept.
    However files were selected, pasted and removed, every file among the
    new files has one of the three types and a size of at most 10 MiB,
    and the previews are those of the files, index by index; so that the
    blobs a submission without encryption adds to the images the note
    had are the bytes of such files, in the order of the files. *)
Theorem only_valid_files_are_uploaded
        (p : NoteFormModal.Props) (s : NoteFormModal.State)
        (d : NoteFormModal.Draws) (data : NoteData) :
  NoteFormModal.selecting readAsDataURL p s ->
  Forall (fun f => In (file_type f) ALLOWED_IMAGE_TYPES
                   /\ file_size f <= 10485760)
         (NoteFormModal.newImageFiles s)
  /\ Forall2 (fun f u => createImagePreview readAsDataURL f = Ok u)
             (NoteFormModal.newImageFiles s) (NoteFormModal.newImagePreviews s)
  /\ (NoteFormModal.isEncrypted s = false ->
      NoteFormModal.noteData s d = Ok data ->
      exists news,
        data_imageRefs data
        = NoteFormModal.existingImages s ++ map fromBytes news
        /\ Forall2 (fun f b => arrayBuffer f = Ok b)
                   (NoteFormModal.newImageFiles s) news).
Proof.
  intros Hs. destruct (selecting_valid p s Hs) as [Hv Hp].
  split; [|split; [exact Hp|]].
  - eapply Forall_impl; [|exact Hv]. apply valid_file.
  - intros He Hd. unfold NoteFormModal.noteData in Hd. rewrite He in Hd.
    cbn [andb] in Hd. cbv iota in Hd. rewrite bind_Ok in Hd.
    destruct (NoteFormModal.upload_new (NoteFormModal.newImageFiles s))
      as [blobs|e] eqn:Eu; [|discriminate Hd].
    rewrite !bind_Ok in Hd. injection Hd as <-.
    destruct (upload_new_inversion _ _ Eu) as (news & -> & Hn).
    exists news. split; [reflexivity|exact Hn].
Qed.

End Files.

(* ------------------------------------------------------------------ *)
(** ** [safeErrorReason] *)

Section SafeErrorReason.
Variable toLowerCase : jsstring -> jsstring.

Lemma unexpected_is_short : (length unexpected < 100)%nat.
Proof. apply Nat.ltb_lt. reflexivity. Qed.

(** X21. [safeErrorReason] returns fewer than 100 code units whatever it
    is given, the empty text for a falsy value, and for an [Error] object
    never a text that contains "at ". A string of fewer than 100 code
    units is returned as it is, whatever it contains. *)
Theorem safeErrorReason_is_short (error : unknown) (message s : jsstring) :
  (length (safeErrorReason toLowerCase error) < 100)%nat
  /\ (truthy error = false -> safeErrorReason toLowerCase error = [])
  /\ includes (safeErrorReason toLowerCase (ErrorObject message)) (js "at ")
     = false
  /\ ((length s < 100)%nat -> safeErrorReason toLowerCase (Str s) = s).
Proof.
  assert (He : (length (safeErrorReason toLowerCase (ErrorObject message)) < 100)%nat
               /\ includes (safeErrorReason toLowerCase (ErrorObject message))
                           (js "at ") = false).
  { unfold safeErrorReason. cbn [truthy negb].
    repeat match goal with
           | |- context [if ?c then js ?t else _] =>
               destruct c; [split; [apply Nat.ltb_lt|]; reflexivity|]
           end.
    destruct (length message <? 100)%nat eqn:El; cbn [andb].
    - destruct (includes message (js "at ")) eqn:Ei; cbn [negb].
      + split; [apply unexpected_is_short|reflexivity].
      + split; [now apply Nat.ltb_lt|exact Ei].
    - split; [apply unexpected_is_short|reflexivity]. }
  split; [|split; [|split]].
  - destruct error as [t|t|m|[m|]].
    + destruct t; cbn; [apply unexpected_is_short|lia].
    + unfold safeErrorReason.
      destruct (negb (truthy (Str t))); [cbn; lia|].
      destruct (length t <? 100)%nat eqn:El;
        [now apply Nat.ltb_lt|apply unexpected_is_short].
    + unfold safeErrorReason. cbn [truthy negb].
      repeat match goal with
             | |- context [if ?c then js ?t else _] =>
                 destruct c; [apply Nat.ltb_lt; reflexivity|]
             end.
      destruct ((length m <? 100)%nat && negb (includes m (js "at "))) eqn:El;
        [|apply unexpected_is_short].
      apply andb_true_iff in El. destruct El as [El _]. now apply Nat.ltb_lt.
    + unfold safeErrorReason. cbn [truthy negb].
      destruct (length m <? 100)%nat eqn:El;
        [now apply Nat.ltb_lt|apply unexpected_is_short].
    + apply unexpected_is_short.
  - intros Ht. unfold safeErrorReason. now rewrite Ht.
  - apply He.
  - intros Hs. unfold safeErrorReason. destruct s as [|c s]; [reflexivity|].
    cbn [truthy negb]. apply Nat.ltb_lt in Hs. now rewrite Hs.
Qed.

End SafeErrorReason.

(* ------------------------------------------------------------------ *)
(** ** The components on the sample values *)

Lemma echo_returns (b : bytes) : echo (backend.fromBytes b) = Ok b.
Proof. reflexivity. Qed.

Lemma secret_note_content :
  decryptContent (backend.content Samples.secret_note) (js "correct horse")
  = Ok (js "hello world").
Proof.
  cbn [backend.content Samples.secret_note].
  rewrite decryptContent_envelope
    by (try apply drawn_salt_length; try apply drawn_iv_length; reflexivity).
  reflexivity.
Qed.

Lemma secret_note_opens :
  opens echo Samples.secret_note (js "correct horse") (js "hello world")
        [sample_image].
Proof.
  split; [apply secret_note_content|].
  cbn [backend.imageRefs Samples.secret_note].
  constructor; [|constructor].
  rewrite echo_returns, bind_Ok.
  apply decryptImage_envelope;
    [apply drawn_salt_length|apply drawn_iv_length|reflexivity].
Qed.


Lemma encrypting_without_password_witness :
  let p := NotesDashboard.form (Some Samples.plain_note) in
  let s := NoteFormModal.setIsEncrypted true (NoteFormModal.mounted p) in
  let data :=
    {| backend.data_title := trim (NoteFormModal.title s);
       backend.data_content := NoteFormModal.content s;
       backend.data_imageRefs :=
         NoteFormModal.existingImages s ++ map backend.fromBytes [];
       backend.data_encrypted := true |} in
  exists n,
    NoteFormModal.note p = Some n
    /\ NoteFormModal.handleSubmit p true Samples.draws s
       = (NoteFormModal.setErrors [] s,
          NoteFormModal.Requested (NoteFormModal.updateNote (backend.id n) data))
    /\ ((length (NoteFormModal.content s) < 59)%nat ->
        forall getBytes ts st,
          NoteDetailModal.decryptPassword st <> [] ->
          NoteDetailModal.after
            (NoteDetailModal.handleDecrypt
               getBytes (NoteFormModal.stored (backend.id n) ts data) st)
          = NoteDetailModal.refused st).
Proof.
  intros p s.
  apply (encrypting_without_password p Samples.draws s []).
  - reflexivity.
  - reflexivity.
  - reflexivity.
  - constructor.
Defined.


Lemma switching_encryption_off_witness :
  let p := NotesDashboard.form (Some Samples.secret_note) in
  let s :=
    NoteFormModal.setIsEncrypted false
      (NoteFormModal.after
         (NoteFormModal.handleDecryptForEdit
            echo Samples.secret_note
            (NoteFormModal.typed (js "correct horse")
                                 (NoteFormModal.mounted p)))) in
  NoteFormModal.decryptedExistingImages s = [sample_image]
  /\ NoteFormModal.handleSubmit p true Samples.draws s
     = (NoteFormModal.setErrors [] s,
        NoteFormModal.Requested
          (NoteFormModal.updateNote
             (backend.id Samples.secret_note)
             {| backend.data_title := trim (backend.title Samples.secret_note);
                backend.data_content := js "hello world";
                backend.data_imageRefs := [];
                backend.data_encrypted := false |})).
Proof.
  intros p.
  apply (switching_encryption_off
           echo Samples.secret_note Samples.draws (js "correct horse")
           (js "hello world") [sample_image]).
  - reflexivity.
  - discriminate.
  - apply secret_note_opens.
  - discriminate.
  - discriminate.
Defined.


Lemma only_valid_files_are_uploaded_witness :
  let s :=
    NoteFormModal.selected
      (NoteFormModal.processImageFiles
         Samples.reader
         [Samples.photo; Samples.document_file; Samples.big_photo]
         (NoteFormModal.mounted (NotesDashboard.form None))) in
  NoteFormModal.newImageFiles s = [Samples.photo]
  /\ Forall (fun f => In (file_type f) ALLOWED_IMAGE_TYPES
                      /\ file_size f <= 10485760)
            (NoteFormModal.newImageFiles s).
Proof.
  intros s. split; [reflexivity|].
  apply (only_valid_files_are_uploaded
           Samples.reader (NotesDashboard.form None) s Samples.draws
           {| backend.data_title := [];
              backend.data_content := [];
              backend.data_imageRefs := [];
              backend.data_encrypted := false |}).
  apply NoteFormModal.selecting_processImageFiles,
    NoteFormModal.selecting_mounted.
Defined.
